(** * Proof maneuvers of propositions/deduction.py

    A shallow embedding of the five proof-transformation maneuvers
    ([prove_corollary], [combine_proofs], [remove_assumption],
    [prove_from_opposites], [prove_by_way_of_contradiction]) together with
    the formula, inference-rule and proof model they are written against.

    The maneuvers are translated from deduction.py.  The classes they use
    (Formula, InferenceRule, Proof and Proof.Line, with specialization and
    the validity check) and the catalogue of axiom schemas live in modules
    that are not among the sources; they are modelled from the
    specification, and each such definition says so. *)

From stdpp Require Import gmap strings list fin_maps.

Open Scope string_scope.
Open Scope nat_scope.
Open Scope list_scope.
Open Scope stdpp_scope.

(** ** Formulas *)

(** Modelled from the spec: the Formula class (propositions/syntax.py is not
    among the sources).  An immutable tree whose leaves are variables or
    truth constants and whose internal nodes carry an operator symbol [root]
    with one or two children; equality is structural. *)
Inductive Formula : Type :=
  | Var (root : string)
  | Const (root : string)
  | Unary (root : string) (first : Formula)
  | Binary (root : string) (first second : Formula).

Definition root (f : Formula) : string :=
  match f with
  | Var r | Const r | Unary r _ | Binary r _ _ => r
  end.

Definition first (f : Formula) : option Formula :=
  match f with
  | Unary _ a | Binary _ a _ => Some a
  | _ => None
  end.

Global Instance Formula_eq_dec : EqDecision Formula.
Proof. solve_decision. Defined.

Fixpoint Formula_to_tree (f : Formula) : gen_tree string :=
  match f with
  | Var r => GenNode 0 [GenLeaf r]
  | Const r => GenNode 1 [GenLeaf r]
  | Unary r a => GenNode 2 [GenLeaf r; Formula_to_tree a]
  | Binary r a b => GenNode 3 [GenLeaf r; Formula_to_tree a; Formula_to_tree b]
  end.

Fixpoint Formula_of_tree (t : gen_tree string) : Formula :=
  match t with
  | GenNode 0 [GenLeaf r] => Var r
  | GenNode 2 [GenLeaf r; a] => Unary r (Formula_of_tree a)
  | GenNode 3 [GenLeaf r; a; b] => Binary r (Formula_of_tree a) (Formula_of_tree b)
  | GenNode _ [GenLeaf r] => Const r
  | _ => Const ""
  end.

Global Instance Formula_countable : Countable Formula.
Proof.
  refine (inj_countable' Formula_to_tree Formula_of_tree _).
  intros f. induction f; simpl; congruence.
Defined.

Declare Scope formula_scope.
Delimit Scope formula_scope with F.
Notation "a '->>' b" := (Binary "->" a b)
  (at level 55, right associativity) : formula_scope.
Notation "'~~' a" := (Unary "~" a) (at level 35, right associativity) : formula_scope.

(** ** Inference rules *)

(** Modelled from the spec: the InferenceRule class, an ordered list of
    assumption formulas and a conclusion formula, compared structurally. *)
Record InferenceRule : Type := mkInferenceRule {
  assumptions : list Formula;
  conclusion : Formula
}.

Global Instance InferenceRule_eq_dec : EqDecision InferenceRule.
Proof. solve_decision. Defined.

Definition InferenceRule_to_pair (r : InferenceRule) : list Formula * Formula :=
  (assumptions r, conclusion r).
Definition InferenceRule_of_pair (x : list Formula * Formula) : InferenceRule :=
  mkInferenceRule x.1 x.2.

Global Instance InferenceRule_countable : Countable InferenceRule.
Proof.
  refine (inj_countable' InferenceRule_to_pair InferenceRule_of_pair _).
  by intros [].
Defined.

(** Modelled from the spec: [Formula.substitute_variables], the textual
    substitution of schema variables by formulas that underlies
    specialization. *)
Fixpoint substitute_variables (m : gmap string Formula) (f : Formula) : Formula :=
  match f with
  | Var v => default (Var v) (m !! v)
  | Const c => Const c
  | Unary r a => Unary r (substitute_variables m a)
  | Binary r a b => Binary r (substitute_variables m a) (substitute_variables m b)
  end.

(** Modelled from the spec: [InferenceRule.specialize], substituting
    throughout the assumptions and the conclusion. *)
Definition specialize (general : InferenceRule) (m : gmap string Formula) : InferenceRule :=
  mkInferenceRule (substitute_variables m <$> assumptions general)
                  (substitute_variables m (conclusion general)).

(** Modelled from the spec: merging two partial specialization maps, failing
    when either is a failure or when they disagree on a shared variable. *)
Definition merge_specialization_maps (m1 m2 : option (gmap string Formula))
  : option (gmap string Formula) :=
  match m1, m2 with
  | Some a, Some b => if decide (map_agree a b) then Some (a ∪ b) else None
  | _, _ => None
  end.

(** Modelled from the spec: the substitution, if any, that turns the formula
    [general] into the formula [specialization]. *)
Fixpoint formula_specialization_map (general specialization : Formula)
  : option (gmap string Formula) :=
  match general, specialization with
  | Var v, s => Some {[ v := s ]}
  | Const c, Const c' => if decide (c = c') then Some ∅ else None
  | Unary r g, Unary r' s =>
      if decide (r = r') then formula_specialization_map g s else None
  | Binary r g1 g2, Binary r' s1 s2 =>
      if decide (r = r')
      then merge_specialization_maps (formula_specialization_map g1 s1)
                                     (formula_specialization_map g2 s2)
      else None
  | _, _ => None
  end.

(** Modelled from the spec: [general.specialization_map(specialization)],
    a mapping or a failure ([None]). *)
Definition specialization_map (general specialization : InferenceRule)
  : option (gmap string Formula) :=
  if decide (length (assumptions general) = length (assumptions specialization))
  then
    foldl (λ acc gs, merge_specialization_maps acc
                       (formula_specialization_map gs.1 gs.2))
          (Some ∅)
          (zip (assumptions general ++ [conclusion general])
               (assumptions specialization ++ [conclusion specialization]))
  else None.

(** Modelled from the spec: [self.is_specialization_of(general)], existence
    of a specialization map. *)
Definition is_specialization_of (self general : InferenceRule) : bool :=
  bool_decide (is_Some (specialization_map general self)).

(** Modelled from the spec: the fixed catalogue of propositions/
    axiomatic_systems.py that the maneuvers name (Modus Ponens, identity,
    weakening, distribution, ex falso), over the schema variables p, q, r. *)
Definition MP : InferenceRule :=
  mkInferenceRule [Var "p"; (Var "p" ->> Var "q")%F] (Var "q").
Definition I0 : InferenceRule :=
  mkInferenceRule [] (Var "p" ->> Var "p")%F.
Definition I1 : InferenceRule :=
  mkInferenceRule [] (Var "q" ->> (Var "p" ->> Var "q"))%F.
Definition D : InferenceRule :=
  mkInferenceRule []
    ((Var "p" ->> (Var "q" ->> Var "r")) ->>
     ((Var "p" ->> Var "q") ->> (Var "p" ->> Var "r")))%F.
Definition I2 : InferenceRule :=
  mkInferenceRule [] (~~ Var "p" ->> (Var "p" ->> Var "q"))%F.

(** ** Proofs *)

(** Modelled from the spec: the Proof.Line class.  A line is either an
    assumption line ([Proof.Line(formula)], whose rule is [None]) or a rule
    application carrying the rule and the indices of the lines that fill
    its assumption slots (the attribute [assumptions] of a line, called
    [refs] here).  Line indices are natural numbers. *)
Inductive Line : Type :=
  | AssumptionLine (formula : Formula)
  | RuleLine (formula : Formula) (rule : InferenceRule) (refs : list nat).

Definition formula (l : Line) : Formula :=
  match l with AssumptionLine f | RuleLine f _ _ => f end.

Definition is_assumption (l : Line) : bool :=
  match l with AssumptionLine _ => true | RuleLine _ _ _ => false end.

Global Instance Line_eq_dec : EqDecision Line.
Proof. solve_decision. Defined.

(** Modelled from the spec: the Proof class, a statement, a set of
    permitted rules and a sequence of lines. *)
Record Proof : Type := mkProof {
  statement : InferenceRule;
  rules : gset InferenceRule;
  lines : list Line
}.

(** Modelled from the spec: [Proof.rule_for_line], the rule instance a
    rule-application line claims: the formulas of the referenced lines as
    assumptions and the line's own formula as conclusion. *)
Definition rule_for_line (ls : list Line) (l : Line) : option InferenceRule :=
  match l with
  | AssumptionLine _ => None
  | RuleLine f _ refs =>
      fs ← mapM (λ a, formula <$> ls !! a) refs;
      Some (mkInferenceRule fs f)
  end.

(** Modelled from the spec: [Proof.is_line_valid].  An assumption line must
    appear in the statement's assumptions; a rule line must use a permitted
    rule, refer to strictly earlier lines only, and be a specialization of
    its rule. *)
Definition is_line_valid (p : Proof) (line_number : nat) : bool :=
  match lines p !! line_number with
  | None => false
  | Some (AssumptionLine f) => bool_decide (f ∈ assumptions (statement p))
  | Some (RuleLine f r refs as l) =>
      bool_decide (r ∈ rules p)
      && forallb (λ a, bool_decide (a < line_number)) refs
      && match rule_for_line (lines p) l with
         | Some inst => is_specialization_of inst r
         | None => false
         end
  end.

(** Modelled from the spec: [Proof.is_valid]: the line list is non-empty,
    its last formula is the statement's conclusion, and every line is
    valid. *)
Definition is_valid (p : Proof) : bool :=
  match last (lines p) with
  | Some l => bool_decide (formula l = conclusion (statement p))
  | None => false
  end
  && forallb (is_line_valid p) (seq 0 (length (lines p))).

(** ** Exceptions *)

(** The maneuvers are Python functions that either return a proof or raise;
    [result] is the corresponding error monad. *)
Inductive exn : Type :=
  | AssertionError
  | NameError
  | IndexError
  | TypeError
  | AttributeError.

Inductive result (A : Type) : Type :=
  | Return (a : A)
  | Raise (e : exn).
Arguments Return {A} a.
Arguments Raise {A} e.

Global Instance result_ret : MRet result := λ A a, Return a.
Global Instance result_bind : MBind result := λ A B k x,
  match x with
  | Return a => k a
  | Raise e => Raise e
  end.

(** [assert b] *)
Definition assert (b : bool) : result unit :=
  if b then Return tt else Raise AssertionError.

(** [seq[i]] on a tuple or list, for a non-negative [i] *)
Definition index {A} (l : list A) (i : nat) : result A :=
  match l !! i with
  | Some x => Return x
  | None => Raise IndexError
  end.

(** [seq[-1]] *)
Definition index_last {A} (l : list A) : result A :=
  match last l with
  | Some x => Return x
  | None => Raise IndexError
  end.

Fixpoint for_each {A S} (body : S → A → result S) (l : list A) (s : S) : result S :=
  match l with
  | [] => Return s
  | x :: l' => s' ← body s x; for_each body l' s'
  end.

(** ** The maneuvers of deduction.py

    Each maneuver first asserts that its input proofs are valid, so their
    line lists are non-empty wherever [len(...) - 1] is computed below. *)

(** [for line in proof.lines: lines.append(line)] *)
Definition append_lines (acc ls : list Line) : list Line :=
  foldl (λ acc line, acc ++ [line]) acc ls.

(** The body of the loop that lays a second proof out after a first one:
    rule lines are rebuilt with every reference increased by [offset],
    assumption lines are appended as they are. *)
Definition shift_line (offset : nat) (line : Line) : Line :=
  match line with
  | RuleLine f r refs => RuleLine f r ((λ a, a + offset) <$> refs)
  | AssumptionLine _ => line
  end.

Definition append_shifted (offset : nat) (acc ls : list Line) : list Line :=
  foldl (λ acc line, acc ++ [shift_line offset line]) acc ls.

Definition prove_corollary (antecedent_proof : Proof) (consequent : Formula)
    (conditional : InferenceRule) : result Proof :=
  assert (is_valid antecedent_proof) ;;
  assert (is_specialization_of
            (mkInferenceRule []
               (conclusion (statement antecedent_proof) ->> consequent)%F)
            conditional) ;;
  let implication_rule :=
    mkInferenceRule [] (conclusion (statement antecedent_proof) ->> consequent)%F in
  match specialization_map conditional implication_rule with
  | None => Raise TypeError
  | Some specialization_map =>
      let specialized_conditional := specialize conditional specialization_map in
      let implication_proof :=
        mkProof implication_rule (rules antecedent_proof ∪ {[ MP; conditional ]})
                [RuleLine (conclusion specialized_conditional)
                          specialized_conditional []] in
      let antecedent_line := length (lines antecedent_proof) - 1 in
      let implication_line := antecedent_line + 1 in
      let lines0 := append_lines [] (lines antecedent_proof) in
      let lines1 :=
        lines0 ++ [RuleLine (conclusion specialized_conditional)
                            specialized_conditional []] in
      let lines2 :=
        lines1 ++ [RuleLine consequent MP [antecedent_line; implication_line]] in
      let rules' := rules antecedent_proof ∪ {[ MP; conditional ]} in
      let new_statement :=
        mkInferenceRule (assumptions (statement antecedent_proof)) consequent in
      Return (mkProof new_statement rules' lines2)
  end.

Definition combine_proofs (antecedent1_proof antecedent2_proof : Proof)
    (consequent : Formula) (double_conditional : InferenceRule) : result Proof :=
  assert (is_valid antecedent1_proof) ;;
  assert (is_valid antecedent2_proof) ;;
  assert (bool_decide (assumptions (statement antecedent1_proof) =
                       assumptions (statement antecedent2_proof))) ;;
  assert (bool_decide (rules antecedent1_proof = rules antecedent2_proof)) ;;
  assert (is_specialization_of
            (mkInferenceRule []
               (conclusion (statement antecedent1_proof) ->>
                (conclusion (statement antecedent2_proof) ->> consequent))%F)
            double_conditional) ;;
  let double_implication_rule :=
    mkInferenceRule []
      (conclusion (statement antecedent1_proof) ->>
       (conclusion (statement antecedent2_proof) ->> consequent))%F in
  match specialization_map double_conditional double_implication_rule with
  | None => Raise TypeError
  | Some specialization_map =>
      let specialized_double_conditional :=
        specialize double_conditional specialization_map in
      let total_lines_from_proof1 := length (lines antecedent1_proof) in
      let total_lines_from_proof2 := length (lines antecedent2_proof) in
      let lines0 := append_lines [] (lines antecedent1_proof) in
      let lines1 :=
        append_shifted total_lines_from_proof1 lines0 (lines antecedent2_proof) in
      let lines2 :=
        lines1 ++ [RuleLine (conclusion specialized_double_conditional)
                            specialized_double_conditional []] in
      let lines3 :=
        lines2 ++ [RuleLine
                     (conclusion (statement antecedent2_proof) ->> consequent)%F
                     MP
                     [total_lines_from_proof1 - 1;
                      total_lines_from_proof1 + total_lines_from_proof2]] in
      let lines4 :=
        lines3 ++ [RuleLine consequent MP
                     [total_lines_from_proof1 + total_lines_from_proof2 - 1;
                      total_lines_from_proof1 + total_lines_from_proof2 + 1]] in
      let rules' := rules antecedent1_proof ∪ {[ MP; double_conditional ]} in
      let new_statement :=
        mkInferenceRule (assumptions (statement antecedent1_proof)) consequent in
      Return (mkProof new_statement rules' lines4)
  end.

(** [for rule in proof.rules: assert rule == MP or len(rule.assumptions) == 0] *)
Definition only_MP_or_assumptionless (rs : gset InferenceRule) : bool :=
  forallb (λ rule, bool_decide (rule = MP)
                   || bool_decide (length (assumptions rule) = 0))
          (elements rs).

(** The body of the loop of [remove_assumption] over the lines of the
    given proof, appending to [new_lines]. *)
Definition remove_assumption_body (proof : Proof) (assumption : Formula)
    (new_lines : list Line) (line : Line) : result (list Line) :=
  match line with
  | AssumptionLine psi =>
      if decide (psi = assumption)
      then Return (new_lines ++ [RuleLine (assumption ->> assumption)%F I0 []])
      else Return (new_lines ++
                   [RuleLine (psi ->> (assumption ->> psi))%F I1 []])
  | RuleLine psi rule_used refs =>
      if decide (rule_used = MP)
      then
        phi_line ← index refs 0;
        implication_line ← index refs 1;
        phi ← index (lines proof) phi_line;
        implication ← index (lines proof) implication_line;
        let d_formula :=
          ((assumption ->> (formula phi ->> formula implication)) ->>
           ((assumption ->> formula phi) ->> (assumption ->> psi)))%F in
        Return (new_lines ++ [RuleLine d_formula D []])
      else
        let new_lines1 := new_lines ++ [RuleLine psi rule_used []] in
        let i1_formula := (psi ->> (assumption ->> psi))%F in
        let new_lines2 := new_lines1 ++ [RuleLine i1_formula I1 []] in
        let mp_line1 := length new_lines2 - 2 in
        let mp_line2 := length new_lines2 - 1 in
        Return (new_lines2 ++
                [RuleLine (assumption ->> psi)%F MP [mp_line1; mp_line2]])
  end.

Definition remove_assumption (proof : Proof) : result Proof :=
  assert (is_valid proof) ;;
  assert (bool_decide (0 < length (assumptions (statement proof)))) ;;
  assert (only_MP_or_assumptionless (rules proof)) ;;
  assumption ← index_last (assumptions (statement proof));
  let conclusion0 := conclusion (statement proof) in
  new_lines ← for_each (remove_assumption_body proof assumption) (lines proof) [];
  let new_statement :=
    mkInferenceRule (removelast (assumptions (statement proof)))
                    (assumption ->> conclusion0)%F in
  let rules' := rules proof ∪ {[ MP; I0; I1; D ]} in
  Return (mkProof new_statement rules' []).

Definition prove_from_opposites (proof_of_affirmation proof_of_negation : Proof)
    (conclusion0 : Formula) : result Proof :=
  assert (is_valid proof_of_affirmation) ;;
  assert (is_valid proof_of_negation) ;;
  assert (bool_decide (assumptions (statement proof_of_affirmation) =
                       assumptions (statement proof_of_negation))) ;;
  assert (bool_decide ((~~ conclusion (statement proof_of_affirmation))%F =
                       conclusion (statement proof_of_negation))) ;;
  assert (bool_decide (rules proof_of_affirmation = rules proof_of_negation)) ;;
  let affirmation := conclusion (statement proof_of_affirmation) in
  let negation := conclusion (statement proof_of_negation) in
  let i2_formula := (~~ affirmation ->> (affirmation ->> conclusion0))%F in
  let i2_specialized := mkInferenceRule [] i2_formula in
  let lines0 := append_lines [] (lines proof_of_affirmation) in
  let offset_affirmation := length lines0 - 1 in
  let offset_negation := length lines0 in
  let lines1 :=
    append_shifted (offset_affirmation + 1) lines0 (lines proof_of_negation) in
  let offset_negation_end := length lines1 - 1 in
  let lines2 := lines1 ++ [RuleLine i2_formula I2 []] in
  let i2_line := length lines2 - 1 in
  let lines3 :=
    lines2 ++ [RuleLine (affirmation ->> conclusion0)%F MP
                 [offset_negation_end; i2_line]] in
  let lines4 :=
    lines3 ++ [RuleLine conclusion0 MP [offset_affirmation; length lines3 - 1]] in
  let rules' := rules proof_of_affirmation ∪ {[ MP; I2 ]} in
  let new_statement :=
    mkInferenceRule (assumptions (statement proof_of_affirmation)) conclusion0 in
  Return (mkProof new_statement rules' lines4).

(** The function ends in [Proof(new_statement, rules, [])], where [rules] is
    a name bound neither in the function nor by the module's imports;
    evaluating the call's arguments raises [NameError]. *)
Definition prove_by_way_of_contradiction (proof : Proof) : result Proof :=
  assert (is_valid proof) ;;
  assert (bool_decide (conclusion (statement proof) =
                       (~~ (Var "p" ->> Var "p"))%F)) ;;
  assert (bool_decide (0 < length (assumptions (statement proof)))) ;;
  last_assumption ← index_last (assumptions (statement proof));
  assert (bool_decide (root last_assumption = "~")) ;;
  assert (only_MP_or_assumptionless (rules proof)) ;;
  let negation := last_assumption in
  match first negation with
  | None => Raise AttributeError
  | Some phi =>
      let new_statement :=
        mkInferenceRule (removelast (assumptions (statement proof))) phi in
      Raise NameError
  end.

(** * The maneuvers over an object store

    In the program a proof holds a tuple of references to [Line] objects,
    and a maneuver that copies a line appends the very same object to its
    result.  To speak about what a call does to its inputs, line objects
    are placed in a store; a proof object holds locations of the store. *)

Record ProofObj : Type := mkProofObj {
  obj_statement : InferenceRule;
  obj_rules : gset InferenceRule;
  obj_lines : list nat
}.

(** Computations over the store that may raise.  The store keeps the
    objects allocated so far, a location being an index into it. *)
Definition M (A : Type) : Type := list Line → list Line * result A.

Global Instance M_ret : MRet M := λ A a h, (h, Return a).
Global Instance M_bind : MBind M := λ A B k m h,
  match m h with
  | (h', Return a) => k a h'
  | (h', Raise e) => (h', Raise e)
  end.

Definition lift {A} (r : result A) : M A := λ h, (h, r).

(** [Proof.Line(...)]: a new object. *)
Definition new_Line (l : Line) : M nat := λ h, (h ++ [l], Return (length h)).

(** Reading the attributes of the object at a location. *)
Definition get_Line (x : nat) : M Line := λ h, (h, index h x).

Fixpoint for_each_M {A S} (body : S → A → M S) (l : list A) (s : S) : M S :=
  match l with
  | [] => mret s
  | x :: l' => s' ← body s x; for_each_M body l' s'
  end.

(** The proof value a proof object stands for in a given store. *)
Definition view (h : list Line) (P : ProofObj) : option Proof :=
  ls ← mapM (λ x, h !! x) (obj_lines P);
  Some (mkProof (obj_statement P) (obj_rules P) ls).

Definition read_Proof (P : ProofObj) : M Proof := λ h,
  match view h P with
  | Some p => (h, Return p)
  | None => (h, Raise IndexError)
  end.

(** [for line in proof.lines: lines.append(line)]: the references are
    appended, no object is created. *)
Definition append_lines_obj (acc xs : list nat) : list nat :=
  foldl (λ acc x, acc ++ [x]) acc xs.

(** The loop that lays a second proof out after a first one: a rule line
    is rebuilt as a new object with shifted references, an assumption line
    is appended as it is. *)
Definition append_shifted_obj (offset : nat) (acc xs : list nat) : M (list nat) :=
  for_each_M
    (λ acc x,
       line ← get_Line x;
       if negb (is_assumption line)
       then x' ← new_Line (shift_line offset line); mret (acc ++ [x'])
       else mret (acc ++ [x]))
    xs acc.

Definition prove_corollary_obj (antecedent_proof : ProofObj)
    (consequent : Formula) (conditional : InferenceRule) : M ProofObj :=
  p ← read_Proof antecedent_proof;
  lift (assert (is_valid p));;
  lift (assert (is_specialization_of
                  (mkInferenceRule [] (conclusion (statement p) ->> consequent)%F)
                  conditional));;
  let implication_rule :=
    mkInferenceRule [] (conclusion (statement p) ->> consequent)%F in
  match specialization_map conditional implication_rule with
  | None => lift (Raise TypeError)
  | Some specialization_map =>
      let specialized_conditional := specialize conditional specialization_map in
      implication_proof_line ←
        new_Line (RuleLine (conclusion specialized_conditional)
                           specialized_conditional []);
      let antecedent_line := length (obj_lines antecedent_proof) - 1 in
      let implication_line := antecedent_line + 1 in
      let lines0 := append_lines_obj [] (obj_lines antecedent_proof) in
      x1 ← new_Line (RuleLine (conclusion specialized_conditional)
                              specialized_conditional []);
      let lines1 := lines0 ++ [x1] in
      x2 ← new_Line (RuleLine consequent MP [antecedent_line; implication_line]);
      let lines2 := lines1 ++ [x2] in
      mret (mkProofObj
              (mkInferenceRule (assumptions (obj_statement antecedent_proof))
                               consequent)
              (obj_rules antecedent_proof ∪ {[ MP; conditional ]})
              lines2)
  end.

Definition combine_proofs_obj (antecedent1_proof antecedent2_proof : ProofObj)
    (consequent : Formula) (double_conditional : InferenceRule) : M ProofObj :=
  p1 ← read_Proof antecedent1_proof;
  p2 ← read_Proof antecedent2_proof;
  lift (assert (is_valid p1));;
  lift (assert (is_valid p2));;
  lift (assert (bool_decide (assumptions (statement p1) =
                             assumptions (statement p2))));;
  lift (assert (bool_decide (rules p1 = rules p2)));;
  lift (assert (is_specialization_of
                  (mkInferenceRule []
                     (conclusion (statement p1) ->>
                      (conclusion (statement p2) ->> consequent))%F)
                  double_conditional));;
  let double_implication_rule :=
    mkInferenceRule []
      (conclusion (statement p1) ->>
       (conclusion (statement p2) ->> consequent))%F in
  match specialization_map double_conditional double_implication_rule with
  | None => lift (Raise TypeError)
  | Some specialization_map =>
      let specialized_double_conditional :=
        specialize double_conditional specialization_map in
      let total_lines_from_proof1 := length (obj_lines antecedent1_proof) in
      let total_lines_from_proof2 := length (obj_lines antecedent2_proof) in
      let lines0 := append_lines_obj [] (obj_lines antecedent1_proof) in
      lines1 ← append_shifted_obj total_lines_from_proof1 lines0
                 (obj_lines antecedent2_proof);
      x2 ← new_Line (RuleLine (conclusion specialized_double_conditional)
                              specialized_double_conditional []);
      x3 ← new_Line (RuleLine
                       (conclusion (statement p2) ->> consequent)%F MP
                       [total_lines_from_proof1 - 1;
                        total_lines_from_proof1 + total_lines_from_proof2]);
      x4 ← new_Line (RuleLine consequent MP
                       [total_lines_from_proof1 + total_lines_from_proof2 - 1;
                        total_lines_from_proof1 + total_lines_from_proof2 + 1]);
      mret (mkProofObj
              (mkInferenceRule (assumptions (obj_statement antecedent1_proof))
                               consequent)
              (obj_rules antecedent1_proof ∪ {[ MP; double_conditional ]})
              (((lines1 ++ [x2]) ++ [x3]) ++ [x4]))
  end.

(** The loop body of [remove_assumption]: every appended line is a new
    object. *)
Definition remove_assumption_body_obj (p : Proof) (assumption : Formula)
    (new_lines : list nat) (line : Line) : M (list nat) :=
  match line with
  | AssumptionLine psi =>
      if decide (psi = assumption)
      then x ← new_Line (RuleLine (assumption ->> assumption)%F I0 []);
           mret (new_lines ++ [x])
      else x ← new_Line (RuleLine (psi ->> (assumption ->> psi))%F I1 []);
           mret (new_lines ++ [x])
  | RuleLine psi rule_used refs =>
      if decide (rule_used = MP)
      then
        phi_line ← lift (index refs 0);
        implication_line ← lift (index refs 1);
        phi ← lift (index (lines p) phi_line);
        implication ← lift (index (lines p) implication_line);
        let d_formula :=
          ((assumption ->> (formula phi ->> formula implication)) ->>
           ((assumption ->> formula phi) ->> (assumption ->> psi)))%F in
        x ← new_Line (RuleLine d_formula D []);
        mret (new_lines ++ [x])
      else
        x1 ← new_Line (RuleLine psi rule_used []);
        let new_lines1 := new_lines ++ [x1] in
        let i1_formula := (psi ->> (assumption ->> psi))%F in
        x2 ← new_Line (RuleLine i1_formula I1 []);
        let new_lines2 := new_lines1 ++ [x2] in
        let mp_line1 := length new_lines2 - 2 in
        let mp_line2 := length new_lines2 - 1 in
        x3 ← new_Line (RuleLine (assumption ->> psi)%F MP [mp_line1; mp_line2]);
        mret (new_lines2 ++ [x3])
  end.

Definition remove_assumption_obj (proof : ProofObj) : M ProofObj :=
  p ← read_Proof proof;
  lift (assert (is_valid p));;
  lift (assert (bool_decide (0 < length (assumptions (statement p)))));;
  lift (assert (only_MP_or_assumptionless (rules p)));;
  assumption ← lift (index_last (assumptions (statement p)));
  let conclusion0 := conclusion (statement p) in
  new_lines ← for_each_M (remove_assumption_body_obj p assumption) (lines p) [];
  mret (mkProofObj
          (mkInferenceRule (removelast (assumptions (statement p)))
                           (assumption ->> conclusion0)%F)
          (rules p ∪ {[ MP; I0; I1; D ]})
          []).

Definition prove_from_opposites_obj (proof_of_affirmation proof_of_negation : ProofObj)
    (conclusion0 : Formula) : M ProofObj :=
  pa ← read_Proof proof_of_affirmation;
  pn ← read_Proof proof_of_negation;
  lift (assert (is_valid pa));;
  lift (assert (is_valid pn));;
  lift (assert (bool_decide (assumptions (statement pa) =
                             assumptions (statement pn))));;
  lift (assert (bool_decide ((~~ conclusion (statement pa))%F =
                             conclusion (statement pn))));;
  lift (assert (bool_decide (rules pa = rules pn)));;
  let affirmation := conclusion (statement pa) in
  let i2_formula := (~~ affirmation ->> (affirmation ->> conclusion0))%F in
  let lines0 := append_lines_obj [] (obj_lines proof_of_affirmation) in
  let offset_affirmation := length lines0 - 1 in
  lines1 ← append_shifted_obj (offset_affirmation + 1) lines0
             (obj_lines proof_of_negation);
  let offset_negation_end := length lines1 - 1 in
  x2 ← new_Line (RuleLine i2_formula I2 []);
  let lines2 := lines1 ++ [x2] in
  let i2_line := length lines2 - 1 in
  x3 ← new_Line (RuleLine (affirmation ->> conclusion0)%F MP
                   [offset_negation_end; i2_line]);
  let lines3 := lines2 ++ [x3] in
  x4 ← new_Line (RuleLine conclusion0 MP [offset_affirmation; length lines3 - 1]);
  mret (mkProofObj
          (mkInferenceRule (assumptions (obj_statement proof_of_affirmation))
                           conclusion0)
          (obj_rules proof_of_affirmation ∪ {[ MP; I2 ]})
          (lines3 ++ [x4])).

(** [prove_by_way_of_contradiction] creates no line object before it
    raises. *)
Definition prove_by_way_of_contradiction_obj (proof : ProofObj) : M ProofObj :=
  p ← read_Proof proof;
  lift (prove_by_way_of_contradiction p);;
  lift (Raise NameError).

(** * The maneuvers over a heap of mutable objects

    The store above only ever grows.  In the program a maneuver also
    changes an object: the list [lines] it creates is extended by
    [lines.append(...)], call after call.  To state what a call does to
    the objects that exist before it, the heap below holds every object
    a maneuver touches, and has assignment:
    - a line object ([Proof.Line]), with its formula, rule and references;
    - a sequence of references to line objects: the list a maneuver builds,
      or the line sequence of a proof;
    - a proof object, with its statement, its rule set and a reference to
      its line sequence.
    A location is an index into the heap.  Formulas, inference rules and
    rule sets are values.  A maneuver reads the statement and the rule set
    of an input once, when it first inspects the input, and reads the lines
    of an input from the heap wherever the program reads them. *)

Inductive Obj : Type :=
  | OLine (line : Line)
  | OSeq (refs : list nat)
  | OProof (proof_statement : InferenceRule) (proof_rules : gset InferenceRule)
           (proof_lines : nat).

(** Computations over the heap that may raise. *)
Definition Prog (A : Type) : Type := list Obj → list Obj * result A.

Global Instance Prog_ret : MRet Prog := λ A a h, (h, Return a).
Global Instance Prog_bind : MBind Prog := λ A B k m h,
  match m h with
  | (h', Return a) => k a h'
  | (h', Raise e) => (h', Raise e)
  end.

Definition lift_Prog {A} (r : result A) : Prog A := λ h, (h, r).

(** [raise e] *)
Definition raise {A} (e : exn) : Prog A := lift_Prog (Raise e).

(** A new object, at the next free location. *)
Definition alloc (o : Obj) : Prog nat := λ h, (h ++ [o], Return (length h)).

(** Reading the object at a location. *)
Definition load (x : nat) : Prog Obj := λ h,
  match h !! x with
  | Some o => (h, Return o)
  | None => (h, Raise IndexError)
  end.

(** Replacing the object at a location: the only way an existing object
    changes. *)
Definition store (x : nat) (o : Obj) : Prog unit := λ h, (<[x := o]> h, Return tt).

Fixpoint for_each_Prog {A S} (body : S → A → Prog S) (l : list A) (s : S) : Prog S :=
  match l with
  | [] => mret s
  | x :: l' => s' ← body s x; for_each_Prog body l' s'
  end.

(** [Proof.Line(formula, rule, assumptions)] *)
Definition Line_new (l : Line) : Prog nat := alloc (OLine l).

(** Reading the attributes of a line object. *)
Definition Line_get (x : nat) : Prog Line :=
  o ← load x;
  match o with
  | OLine l => mret l
  | _ => raise AttributeError
  end.

(** [[]] *)
Definition list_new : Prog nat := alloc (OSeq []).

Definition seq_get (s : nat) : Prog (list nat) :=
  o ← load s;
  match o with
  | OSeq xs => mret xs
  | _ => raise TypeError
  end.

(** [len(lines)] *)
Definition list_len (lst : nat) : Prog nat :=
  xs ← seq_get lst; mret (length xs).

(** [lines.append(x)]: the list object itself is changed. *)
Definition list_append (lst x : nat) : Prog unit :=
  xs ← seq_get lst; store lst (OSeq (xs ++ [x])).

(** Modelled from the spec: the constructor [Proof(statement, rules, lines)].
    Whether the proof keeps the list it is given as its line sequence or a
    copy of it is left open: [copies] says which.  Everything below holds
    for both. *)
Definition Proof_new (copies : bool) (st : InferenceRule)
    (rs : gset InferenceRule) (lst : nat) : Prog nat :=
  if copies
  then xs ← seq_get lst; t ← alloc (OSeq xs); alloc (OProof st rs t)
  else alloc (OProof st rs lst).

(** [proof.lines], as the references it holds. *)
Definition Proof_lines (proof : nat) : Prog (list nat) :=
  o ← load proof;
  match o with
  | OProof _ _ t => seq_get t
  | _ => raise AttributeError
  end.

(** The proof value that the object at [proof] stands for in the heap [h]:
    its statement, its rule set, and the lines its sequence refers to. *)
Definition deref (h : list Obj) (proof : nat) : option Proof :=
  match h !! proof with
  | Some (OProof st rs t) =>
      match h !! t with
      | Some (OSeq xs) =>
          ls ← mapM (λ x, match h !! x with
                          | Some (OLine l) => Some l
                          | _ => None
                          end) xs;
          Some (mkProof st rs ls)
      | _ => None
      end
  | _ => None
  end.

(** Reading a proof object without changing anything, as [proof.is_valid()]
    and the attribute accesses of the maneuvers do. *)
Definition Proof_read (proof : nat) : Prog Proof := λ h,
  match deref h proof with
  | Some p => (h, Return p)
  | None => (h, Raise AttributeError)
  end.

(** [for line in proof.lines: lines.append(line)]: the reference to the
    line object itself is appended. *)
Definition append_lines_heap (lines : nat) (xs : list nat) : Prog unit :=
  for_each_Prog (λ _ line, list_append lines line) xs tt.

(** The loop that lays a second proof out after a first one: for a line
    that is not an assumption a new line object with shifted references is
    appended, an assumption line is appended as it is. *)
Definition append_shifted_heap (offset : nat) (lines : nat) (xs : list nat)
  : Prog unit :=
  for_each_Prog
    (λ _ x,
       line ← Line_get x;
       if negb (is_assumption line)
       then x' ← Line_new (shift_line offset line); list_append lines x'
       else list_append lines x)
    xs tt.

Section maneuvers_over_the_heap.
Variable copies : bool.

Definition prove_corollary_heap (antecedent_proof : nat)
    (consequent : Formula) (conditional : InferenceRule) : Prog nat :=
  p ← Proof_read antecedent_proof;
  lift_Prog (assert (is_valid p));;
  lift_Prog (assert (is_specialization_of
                       (mkInferenceRule []
                          (conclusion (statement p) ->> consequent)%F)
                       conditional));;
  let implication_rule :=
    mkInferenceRule [] (conclusion (statement p) ->> consequent)%F in
  match specialization_map conditional implication_rule with
  | None => raise TypeError
  | Some specialization_map =>
      let specialized_conditional := specialize conditional specialization_map in
      x0 ← Line_new (RuleLine (conclusion specialized_conditional)
                              specialized_conditional []);
      lst0 ← alloc (OSeq [x0]);
      implication_proof ←
        Proof_new copies implication_rule (rules p ∪ {[ MP; conditional ]}) lst0;
      xs0 ← Proof_lines antecedent_proof;
      let antecedent_line := length xs0 - 1 in
      let implication_line := antecedent_line + 1 in
      lines ← list_new;
      xs ← Proof_lines antecedent_proof;
      append_lines_heap lines xs;;
      x1 ← Line_new (RuleLine (conclusion specialized_conditional)
                              specialized_conditional []);
      list_append lines x1;;
      x2 ← Line_new (RuleLine consequent MP [antecedent_line; implication_line]);
      list_append lines x2;;
      let rules' := rules p ∪ {[ MP; conditional ]} in
      let new_statement :=
        mkInferenceRule (assumptions (statement p)) consequent in
      Proof_new copies new_statement rules' lines
  end.

Definition combine_proofs_heap (antecedent1_proof antecedent2_proof : nat)
    (consequent : Formula) (double_conditional : InferenceRule) : Prog nat :=
  p1 ← Proof_read antecedent1_proof;
  lift_Prog (assert (is_valid p1));;
  p2 ← Proof_read antecedent2_proof;
  lift_Prog (assert (is_valid p2));;
  lift_Prog (assert (bool_decide (assumptions (statement p1) =
                                  assumptions (statement p2))));;
  lift_Prog (assert (bool_decide (rules p1 = rules p2)));;
  lift_Prog (assert (is_specialization_of
                       (mkInferenceRule []
                          (conclusion (statement p1) ->>
                           (conclusion (statement p2) ->> consequent))%F)
                       double_conditional));;
  let double_implication_rule :=
    mkInferenceRule []
      (conclusion (statement p1) ->>
       (conclusion (statement p2) ->> consequent))%F in
  match specialization_map double_conditional double_implication_rule with
  | None => raise TypeError
  | Some specialization_map =>
      let specialized_double_conditional :=
        specialize double_conditional specialization_map in
      ys1 ← Proof_lines antecedent1_proof;
      let total_lines_from_proof1 := length ys1 in
      ys2 ← Proof_lines antecedent2_proof;
      let total_lines_from_proof2 := length ys2 in
      lines ← list_new;
      xs1 ← Proof_lines antecedent1_proof;
      append_lines_heap lines xs1;;
      xs2 ← Proof_lines antecedent2_proof;
      append_shifted_heap total_lines_from_proof1 lines xs2;;
      x2 ← Line_new (RuleLine (conclusion specialized_double_conditional)
                              specialized_double_conditional []);
      list_append lines x2;;
      x3 ← Line_new (RuleLine
                       (conclusion (statement p2) ->> consequent)%F MP
                       [total_lines_from_proof1 - 1;
                        total_lines_from_proof1 + total_lines_from_proof2]);
      list_append lines x3;;
      x4 ← Line_new (RuleLine consequent MP
                       [total_lines_from_proof1 + total_lines_from_proof2 - 1;
                        total_lines_from_proof1 + total_lines_from_proof2 + 1]);
      list_append lines x4;;
      let rules' := rules p1 ∪ {[ MP; double_conditional ]} in
      let new_statement :=
        mkInferenceRule (assumptions (statement p1)) consequent in
      Proof_new copies new_statement rules' lines
  end.

(** The loop body of [remove_assumption]: every line it appends to
    [new_lines] is a new object. *)
Definition remove_assumption_body_heap (proof : nat) (assumption : Formula)
    (new_lines : nat) (x : nat) : Prog unit :=
  line ← Line_get x;
  match line with
  | AssumptionLine psi =>
      if decide (psi = assumption)
      then x' ← Line_new (RuleLine (assumption ->> assumption)%F I0 []);
           list_append new_lines x'
      else x' ← Line_new (RuleLine (psi ->> (assumption ->> psi))%F I1 []);
           list_append new_lines x'
  | RuleLine psi rule_used refs =>
      if decide (rule_used = MP)
      then
        phi_line ← lift_Prog (index refs 0);
        implication_line ← lift_Prog (index refs 1);
        ys ← Proof_lines proof;
        phi_ref ← lift_Prog (index ys phi_line);
        phi ← Line_get phi_ref;
        ys' ← Proof_lines proof;
        implication_ref ← lift_Prog (index ys' implication_line);
        implication ← Line_get implication_ref;
        let d_formula :=
          ((assumption ->> (formula phi ->> formula implication)) ->>
           ((assumption ->> formula phi) ->> (assumption ->> psi)))%F in
        x' ← Line_new (RuleLine d_formula D []);
        list_append new_lines x'
      else
        x1 ← Line_new (RuleLine psi rule_used []);
        list_append new_lines x1;;
        let i1_formula := (psi ->> (assumption ->> psi))%F in
        x2 ← Line_new (RuleLine i1_formula I1 []);
        list_append new_lines x2;;
        n ← list_len new_lines;
        let mp_line1 := n - 2 in
        let mp_line2 := n - 1 in
        x3 ← Line_new (RuleLine (assumption ->> psi)%F MP [mp_line1; mp_line2]);
        list_append new_lines x3
  end.

(** The proof is made from a new empty list, not from [new_lines]. *)
Definition remove_assumption_heap (proof : nat) : Prog nat :=
  p ← Proof_read proof;
  lift_Prog (assert (is_valid p));;
  lift_Prog (assert (bool_decide (0 < length (assumptions (statement p)))));;
  lift_Prog (assert (only_MP_or_assumptionless (rules p)));;
  assumption ← lift_Prog (index_last (assumptions (statement p)));
  let conclusion0 := conclusion (statement p) in
  new_lines ← list_new;
  xs ← Proof_lines proof;
  for_each_Prog (λ _ x, remove_assumption_body_heap proof assumption new_lines x)
                xs tt;;
  let new_statement :=
    mkInferenceRule (removelast (assumptions (statement p)))
                    (assumption ->> conclusion0)%F in
  let rules' := rules p ∪ {[ MP; I0; I1; D ]} in
  empty ← list_new;
  Proof_new copies new_statement rules' empty.

Definition prove_from_opposites_heap (proof_of_affirmation proof_of_negation : nat)
    (conclusion0 : Formula) : Prog nat :=
  pa ← Proof_read proof_of_affirmation;
  lift_Prog (assert (is_valid pa));;
  pn ← Proof_read proof_of_negation;
  lift_Prog (assert (is_valid pn));;
  lift_Prog (assert (bool_decide (assumptions (statement pa) =
                                  assumptions (statement pn))));;
  lift_Prog (assert (bool_decide ((~~ conclusion (statement pa))%F =
                                  conclusion (statement pn))));;
  lift_Prog (assert (bool_decide (rules pa = rules pn)));;
  let affirmation := conclusion (statement pa) in
  let i2_formula := (~~ affirmation ->> (affirmation ->> conclusion0))%F in
  lines ← list_new;
  xs1 ← Proof_lines proof_of_affirmation;
  append_lines_heap lines xs1;;
  n ← list_len lines;
  let offset_affirmation := n - 1 in
  xs2 ← Proof_lines proof_of_negation;
  append_shifted_heap (offset_affirmation + 1) lines xs2;;
  n ← list_len lines;
  let offset_negation_end := n - 1 in
  x2 ← Line_new (RuleLine i2_formula I2 []);
  list_append lines x2;;
  n ← list_len lines;
  let i2_line := n - 1 in
  x3 ← Line_new (RuleLine (affirmation ->> conclusion0)%F MP
                   [offset_negation_end; i2_line]);
  list_append lines x3;;
  n ← list_len lines;
  x4 ← Line_new (RuleLine conclusion0 MP [offset_affirmation; n - 1]);
  list_append lines x4;;
  let rules' := rules pa ∪ {[ MP; I2 ]} in
  let new_statement :=
    mkInferenceRule (assumptions (statement pa)) conclusion0 in
  Proof_new copies new_statement rules' lines.

(** [prove_by_way_of_contradiction] reads its input and raises before it
    creates any object: the arguments of the final [Proof(...)] call are
    evaluated from left to right, and [rules] comes before the list. *)
Definition prove_by_way_of_contradiction_heap (proof : nat) : Prog nat :=
  p ← Proof_read proof;
  lift_Prog (prove_by_way_of_contradiction p);;
  raise NameError.

End maneuvers_over_the_heap.

(** * Graphs and colorings (propositions/reductions.py) *)

(** A graph on the vertices 1, ..., [n_vertices]: the number of vertices
    and a set of edges, each a pair of integers. *)
Definition Graph : Type := Z * gset (Z * Z).

(** [is_graph]: every edge has both ends between 1 and [n_vertices] and
    is not a loop.  The loops over the edge set only ever return [False],
    so the order in which the set is traversed does not matter. *)
Definition is_graph (graph : Graph) : bool :=
  let '(n_vertices, edges) := graph in
  forallb (λ edge : Z * Z,
             bool_decide (1 ≤ edge.1 ≤ n_vertices)%Z
             && bool_decide (1 ≤ edge.2 ≤ n_vertices)%Z
             && negb (bool_decide (edge.1 = edge.2)))
          (elements edges).

(** What a call of [is_valid_3coloring] can raise. *)
Inductive coloring_exn : Type :=
  | GraphAssertionError
  | KeyError.

(** [coloring[vertex]] *)
Definition getitem (coloring : gmap Z Z) (vertex : Z) : coloring_exn + Z :=
  match coloring !! vertex with
  | Some c => inr c
  | None => inl KeyError
  end.

(** [vertex not in coloring.keys() or coloring[vertex] not in {1, 2, 3}],
    negated. *)
Definition has_color_1_2_3 (coloring : gmap Z Z) (vertex : Z) : bool :=
  match coloring !! vertex with
  | None => false
  | Some c => bool_decide (c = 1 ∨ c = 2 ∨ c = 3)%Z
  end.

(** The loop over the edges of [is_valid_3coloring], in the order in which
    the edge set is traversed. *)
Fixpoint check_edges (coloring : gmap Z Z) (edges : list (Z * Z))
  : coloring_exn + bool :=
  match edges with
  | [] => inr true
  | edge :: edges' =>
      match getitem coloring edge.1 with
      | inl e => inl e
      | inr c0 =>
          match getitem coloring edge.2 with
          | inl e => inl e
          | inr c1 =>
              if bool_decide (c0 = c1) then inr false
              else check_edges coloring edges'
          end
      end
  end.

Definition is_valid_3coloring (graph : Graph) (coloring : gmap Z Z)
  : coloring_exn + bool :=
  if negb (is_graph graph) then inl GraphAssertionError
  else
    let '(n_vertices, edges) := graph in
    if negb (forallb (has_color_1_2_3 coloring) (seqZ 1 n_vertices))
    then inr false
    else check_edges coloring (elements edges).

(** A coloring is proper when every vertex has one of the colors 1, 2, 3
    and the two ends of every edge have different colors. *)
Definition proper_3coloring (graph : Graph) (coloring : gmap Z Z) : Prop :=
  (∀ v : Z, (1 ≤ v ≤ graph.1)%Z →
            ∃ c : Z, coloring !! v = Some c ∧ (c = 1 ∨ c = 2 ∨ c = 3)%Z)
  ∧ (∀ u v : Z, (u, v) ∈ graph.2 → coloring !! u ≠ coloring !! v).

(** * Auxiliary definitions for the statements *)

(** [consistent m a]: the partial map [a] only records what substituting
    by [m] does to variables. *)
Definition consistent (m a : gmap string Formula) : Prop :=
  ∀ v f, a !! v = Some f → f = substitute_variables m (Var v).

Definition merge_step (acc : option (gmap string Formula)) (gs : Formula * Formula) :=
  merge_specialization_maps acc (formula_specialization_map gs.1 gs.2).

(** The proof built by [prove_corollary] when its assertions pass. *)
Definition prove_corollary_result (p : Proof) (c : Formula) (r : InferenceRule) : Proof :=
  let A := conclusion (statement p) in
  let n := length (lines p) in
  mkProof (mkInferenceRule (assumptions (statement p)) c)
          (rules p ∪ {[ MP; r ]})
          (lines p ++
           [RuleLine (A ->> c)%F (mkInferenceRule [] (A ->> c)%F) [];
            RuleLine c MP [n - 1; n]]).

(** The proof built by [combine_proofs] when its assertions pass. *)
Definition combine_proofs_result (p1 p2 : Proof) (c : Formula) (r : InferenceRule)
  : Proof :=
  let A := conclusion (statement p1) in
  let B := conclusion (statement p2) in
  let n1 := length (lines p1) in
  let n2 := length (lines p2) in
  mkProof (mkInferenceRule (assumptions (statement p1)) c)
          (rules p1 ∪ {[ MP; r ]})
          (lines p1 ++ (shift_line n1 <$> lines p2) ++
           [RuleLine (A ->> (B ->> c))%F
                     (mkInferenceRule [] (A ->> (B ->> c))%F) [];
            RuleLine (B ->> c)%F MP [n1 - 1; n1 + n2];
            RuleLine c MP [n1 + n2 - 1; n1 + n2 + 1]]).

(** The proof built by [prove_from_opposites] when its assertions pass. *)
Definition prove_from_opposites_result (p1 p2 : Proof) (c : Formula) : Proof :=
  let A := conclusion (statement p1) in
  let n1 := length (lines p1) in
  let n2 := length (lines p2) in
  mkProof (mkInferenceRule (assumptions (statement p1)) c)
          (rules p1 ∪ {[ MP; I2 ]})
          (lines p1 ++ (shift_line n1 <$> lines p2) ++
           [RuleLine (~~ A ->> (A ->> c))%F I2 [];
            RuleLine (A ->> c)%F MP [n1 + n2 - 1; n1 + n2];
            RuleLine c MP [n1 - 1; n1 + n2 + 1]]).

(** The two-step composition the documentation describes: remove the last
    assumption, then apply [prove_corollary] with the consequent [phi] and
    the schema [N]. *)
Definition remove_then_corollary (N : InferenceRule) (proof : Proof)
    (phi : Formula) : result Proof :=
  implication_proof ← remove_assumption proof;
  prove_corollary implication_proof phi N.

(** [refines h m r]: run in the store [h], [m] raises what [r] raises, or
    returns a proof object that stands for the proof [r] returns. *)
Definition refines (h : list Line) (m : M ProofObj) (r : result Proof) : Prop :=
  match (m h).2, r with
  | Return P', Return p' => view (m h).1 P' = Some p'
  | Raise e, Raise e' => e = e'
  | _, _ => False
  end.

(** [keeps n m Q]: run in a heap that holds at least [n] objects, [m]
    leaves the first [n] of them as they are and removes none, and a value
    it returns satisfies [Q] in the heap it leaves. *)
Definition keeps {A} (n : nat) (m : Prog A) (Q : A → list Obj → Prop) : Prop :=
  ∀ h, n ≤ length h →
    take n (m h).1 = take n h
    ∧ length h ≤ length (m h).1
    ∧ ∀ a, (m h).2 = Return a → Q a (m h).1.

(** [own_line_sequence n out h']: in the heap [h'], [out] is a proof object
    that is not among the first [n] objects, and neither is the object that
    holds its line sequence. *)
Definition own_line_sequence (n : nat) (out : nat) (h' : list Obj) : Prop :=
  n ≤ out ∧ ∃ st rs t, h' !! out = Some (OProof st rs t) ∧ n ≤ t.

(** [s[i] = x]: the sequence object itself is changed. *)
Definition seq_set (s i x : nat) : Prog unit :=
  xs ← seq_get s; store s (OSeq (<[i := x]> xs)).

(** Reindexing the line sequence of a proof in place: every line that is
    not an assumption is replaced, in its slot of the sequence, by a line
    whose references are shifted by [offset].  As in the maneuvers, the
    shifted line is a new [Proof.Line]; no line object is written to. *)
Definition reindex_in_place (offset : nat) (proof : nat) : Prog unit :=
  o ← load proof;
  match o with
  | OProof _ _ t =>
      xs ← seq_get t;
      for_each_Prog
        (λ i x,
           line ← Line_get x;
           (if negb (is_assumption line)
            then x' ← Line_new (shift_line offset line); seq_set t i x'
            else mret tt);;
           mret (S i))
        xs 0;;
      mret tt
  | _ => raise AttributeError
  end.

(** The proof [q] with the references of its rule lines shifted. *)
Definition reindexed (offset : nat) (q : Proof) : Proof :=
  mkProof (statement q) (rules q) (shift_line offset <$> lines q).

(** [does_not_mutate_inputs m]: in whatever heap [h] the call [m] is run,
    whether it returns or raises,
    - every object of [h] (proof objects, their line sequences, their
      lines) is in the heap after the call, unchanged;
    - so every proof of [h], the inputs among them, has the same
      statement, rule set and lines (formula, rule and references of each)
      after the call;
    - what the call returns is a new proof object, with a line sequence
      that is a new object;
    - and reindexing that line sequence in place after the call, by any
      offset, does reindex the returned proof, and still leaves every
      object of [h] unchanged and every proof of [h] as it was. *)
Definition does_not_mutate_inputs (m : Prog nat) : Prop :=
  ∀ h : list Obj,
    h `prefix_of` (m h).1
    ∧ (∀ Q q, deref h Q = Some q → deref (m h).1 Q = Some q)
    ∧ ∀ out, (m h).2 = Return out →
        own_line_sequence (length h) out (m h).1
        ∧ ∃ returned,
            deref (m h).1 out = Some returned
            ∧ ∀ offset,
                (reindex_in_place offset out (m h).1).2 = Return tt
                ∧ deref (reindex_in_place offset out (m h).1).1 out
                  = Some (reindexed offset returned)
                ∧ h `prefix_of` (reindex_in_place offset out (m h).1).1
                ∧ ∀ Q q, deref h Q = Some q →
                    deref (reindex_in_place offset out (m h).1).1 Q = Some q.

Global Instance Proof_eq_dec : EqDecision Proof.
Proof. solve_decision. Defined.

(** [refines_heap h m r]: run in the heap [h], [m] raises what [r] raises,
    or returns a proof object that stands for the proof [r] returns. *)
Definition refines_heap (h : list Obj) (m : Prog nat) (r : result Proof) : Prop :=
  match (m h).2, r with
  | Return out, Return q => deref (m h).1 out = Some q
  | Raise e, Raise e' => e = e'
  | _, _ => False
  end.

(** [lines_at g xs ls]: in the heap [g], the locations [xs] hold line
    objects with the attributes [ls], in this order. *)
Definition lines_at (g : list Obj) (xs : list nat) (ls : list Line) : Prop :=
  Forall2 (λ x l, g !! x = Some (OLine l)) xs ls.

(** [built h g lst ys ls]: the heap [g] has grown out of [h] with every
    object of [h] unchanged, and [lst], a list created since, holds the
    references [ys] to lines with the attributes [ls]. *)
Definition built (h g : list Obj) (lst : nat) (ys : list nat) (ls : list Line)
  : Prop :=
  h `prefix_of` g ∧ length h ≤ lst ∧ g !! lst = Some (OSeq ys) ∧ lines_at g ys ls.

(** [wp m Φ Ψ g]: run in the heap [g], [m] returns a value [a] and leaves
    a heap [g'] with [Φ a g'], or raises an exception [e] with [Ψ e]. *)
Definition wp {A} (m : Prog A) (Φ : A → list Obj → Prop) (Ψ : exn → Prop)
    (g : list Obj) : Prop :=
  match m g with
  | (g', Return a) => Φ a g'
  | (_, Raise e) => Ψ e
  end.

(** [MP_refs_ordered ls]: every Modus Ponens line of [ls] has exactly two
    references, the first to a line proving an antecedent [X] and the second
    to a line proving the implication from [X] to the line's own formula. *)
Definition MP_refs_ordered (ls : list Line) : Prop :=
  ∀ k (Y : Formula) refs,
    ls !! k = Some (RuleLine Y MP refs) →
    ∃ i j (X : Formula),
      refs = [i; j]
      ∧ formula <$> ls !! i = Some X
      ∧ formula <$> ls !! j = Some (X ->> Y)%F.

(** The line order of [combine_proofs] as the specification words it: the
    first Modus Ponens line uses the last line of the shifted second proof
    and the specialized line, the final one the last line of the first
    proof and the line just derived. *)
Definition combine_order_claimed (p1 p2 : Proof) (c : Formula) (out : Proof) : Prop :=
  let n1 := length (lines p1) in
  let n2 := length (lines p2) in
  ∃ (special_rule : InferenceRule) (refs1 refs2 : list nat),
    refs1 ≡ₚ [n1 + n2 - 1; n1 + n2]
    ∧ refs2 ≡ₚ [n1 - 1; n1 + n2 + 1]
    ∧ lines out =
        lines p1 ++ (shift_line n1 <$> lines p2) ++
        [RuleLine (conclusion (statement p1) ->>
                   (conclusion (statement p2) ->> c))%F special_rule [];
         RuleLine (conclusion (statement p2) ->> c)%F MP refs1;
         RuleLine c MP refs2].

(** The line order [combine_proofs] produces: the first Modus Ponens line
    uses the last line of the first proof and the specialized line, the
    final one the last line of the shifted second proof and the line just
    derived. *)
Definition combine_order_actual (p1 p2 : Proof) (c : Formula) (r : InferenceRule)
    (out : Proof) : Prop :=
  let n1 := length (lines p1) in
  let n2 := length (lines p2) in
  let A := conclusion (statement p1) in
  let B := conclusion (statement p2) in
  ∃ m : gmap string Formula,
    specialization_map r (mkInferenceRule [] (A ->> (B ->> c))%F) = Some m
    ∧ conclusion (specialize r m) = (A ->> (B ->> c))%F
    ∧ lines out =
        lines p1 ++ (shift_line n1 <$> lines p2) ++
        [RuleLine (conclusion (specialize r m)) (specialize r m) [];
         RuleLine (B ->> c)%F MP [n1 - 1; n1 + n2];
         RuleLine c MP [n1 + n2 - 1; n1 + n2 + 1]]
    ∧ formula <$> lines out !! (n1 - 1) = Some A
    ∧ formula <$> lines out !! (n1 + n2 - 1) = Some B.

(** ** Concrete proofs used as test inputs *)

(** The two-line proof of the scenario for [remove_assumption]:
    assumptions [q; p], both lines the assumption [p]. *)
Definition scenario_proof : Proof :=
  mkProof (mkInferenceRule [Var "q"; Var "p"] (Var "p")) ∅
          [AssumptionLine (Var "p"); AssumptionLine (Var "p")].

(** A one-line proof of [x] from the assumption [x]. *)
Definition x_from_x : Proof :=
  mkProof (mkInferenceRule [Var "x"] (Var "x")) ∅ [AssumptionLine (Var "x")].

(** One-line proofs of [x] and of [y] from the assumptions [x; y]. *)
Definition proof_of_x : Proof :=
  mkProof (mkInferenceRule [Var "x"; Var "y"] (Var "x")) ∅
          [AssumptionLine (Var "x")].
Definition proof_of_y : Proof :=
  mkProof (mkInferenceRule [Var "x"; Var "y"] (Var "y")) ∅
          [AssumptionLine (Var "y")].

(** One-line proofs of [p] and of [~p] from the assumptions [p; ~p]. *)
Definition proof_of_p : Proof :=
  mkProof (mkInferenceRule [Var "p"; (~~ Var "p")%F] (Var "p")) ∅
          [AssumptionLine (Var "p")].
Definition proof_of_not_p : Proof :=
  mkProof (mkInferenceRule [Var "p"; (~~ Var "p")%F] (~~ Var "p")%F) ∅
          [AssumptionLine (~~ Var "p")%F].

(** A one-line proof of [~(p->p)] from the assumption [~(p->p)], whose last
    assumption is the negation of [(p->p)]. *)
Definition contradiction_proof : Proof :=
  mkProof (mkInferenceRule [(~~ (Var "p" ->> Var "p"))%F]
                           (~~ (Var "p" ->> Var "p"))%F) ∅
          [AssumptionLine (~~ (Var "p" ->> Var "p"))%F].

(** A store holding the single line of [x_from_x], and the proof object
    for it. *)
Definition x_from_x_store : list Line := [AssumptionLine (Var "x")].
Definition x_from_x_obj : ProofObj :=
  mkProofObj (mkInferenceRule [Var "x"] (Var "x")) ∅ [0].

(** [add_proof p h]: the heap [h] with one more proof in it: its lines,
    then its line sequence, then the proof object, which comes last. *)
Definition add_proof (p : Proof) (h : list Obj) : list Obj :=
  h ++ (OLine <$> lines p)
    ++ [OSeq (seq (length h) (length (lines p)));
        OProof (statement p) (rules p) (length h + length (lines p))].

(** A three-line proof of [y] from the assumptions [x; (x->y)], by Modus
    Ponens, and a heap that holds it: the lines at 0, 1 and 2, the line
    sequence at 3, the proof object at 4. *)
Definition y_by_MP : Proof :=
  mkProof (mkInferenceRule [Var "x"; (Var "x" ->> Var "y")%F] (Var "y")) {[ MP ]}
          [AssumptionLine (Var "x");
           AssumptionLine (Var "x" ->> Var "y")%F;
           RuleLine (Var "y") MP [0; 1]].
Definition y_by_MP_heap : list Obj := add_proof y_by_MP [].

(** * Properties *)

(** ** Specialization: the matcher is sound and complete for substitution *)

Section specialization.
Implicit Types (m : gmap string Formula) (g s : Formula).

Lemma merge_specialization_maps_Some (o1 o2 : option (gmap string Formula)) m :
  merge_specialization_maps o1 o2 = Some m →
  ∃ a b, o1 = Some a ∧ o2 = Some b ∧ map_agree a b ∧ m = a ∪ b.
Proof.
  destruct o1 as [a|], o2 as [b|]; simpl; try done.
  case_decide; [|done]. intros [= <-]. by exists a, b.
Qed.

Lemma map_agree_union_r_subseteq m1 m2 : map_agree m1 m2 → m2 ⊆ m1 ∪ m2.
Proof.
  rewrite map_agree_spec, map_subseteq_spec. intros Hag i x Hx.
  apply lookup_union_Some_raw.
  destruct (m1 !! i) as [y|] eqn:Hy; [left | right; done].
  f_equal. eauto.
Qed.

Lemma substitute_variables_Var m v f :
  m !! v = Some f → substitute_variables m (Var v) = f.
Proof. simpl. by intros ->. Qed.

(** Soundness on formulas: a map found for [g] against [s], and every
    extension of it, substitutes [g] into [s]. *)
Lemma formula_specialization_map_sound g : ∀ s m m',
  formula_specialization_map g s = Some m → m ⊆ m' →
  substitute_variables m' g = s.
Proof.
  induction g as [v|c|r g IH|r g1 IH1 g2 IH2]; intros s m m' Hm Hsub.
  - simpl in Hm. injection Hm as <-. apply substitute_variables_Var.
    eapply lookup_weaken; [|done]. apply lookup_singleton_eq.
  - destruct s; simpl in Hm; try done. case_decide; [|done]. by subst.
  - destruct s; simpl in Hm; try done. case_decide; [|done]. subst.
    simpl. f_equal. eauto.
  - destruct s as [| | |r' s1 s2]; simpl in Hm; try done.
    case_decide; [|done]. subst.
    apply merge_specialization_maps_Some in Hm
      as (a & b & Ha & Hb & Hag & ->).
    simpl. f_equal.
    + eapply IH1; [done|]. etrans; [apply map_union_subseteq_l | done].
    + eapply IH2; [done|].
      etrans; [by apply map_agree_union_r_subseteq | done].
Qed.

Lemma consistent_empty m : consistent m ∅.
Proof. intros v f. by rewrite lookup_empty. Qed.

Lemma consistent_merge m a b :
  consistent m a → consistent m b →
  ∃ c, merge_specialization_maps (Some a) (Some b) = Some c ∧ consistent m c.
Proof.
  intros Ha Hb. simpl. rewrite decide_True.
  - eexists; split; [done|]. intros v f [?|[_ ?]]%lookup_union_Some_raw; eauto.
  - apply map_agree_spec. intros i x y Hx Hy.
    by rewrite (Ha _ _ Hx), (Hb _ _ Hy).
Qed.

(** Completeness on formulas: matching [g] against one of its own
    substitution instances succeeds. *)
Lemma formula_specialization_map_complete m g :
  ∃ a, formula_specialization_map g (substitute_variables m g) = Some a
       ∧ consistent m a.
Proof.
  induction g as [v|c|r g IH|r g1 [a1 [H1 C1]] g2 [a2 [H2 C2]]].
  - eexists; split; [done|].
    intros w f [-> <-]%lookup_singleton_Some. done.
  - exists ∅. simpl. rewrite decide_True by done. auto using consistent_empty.
  - simpl. rewrite decide_True by done. done.
  - simpl. rewrite decide_True by done. rewrite H1, H2.
    by apply consistent_merge.
Qed.

Lemma foldl_merge_step_None l : foldl merge_step None l = None.
Proof. induction l; simpl; auto. Qed.

Lemma foldl_merge_step_sound l : ∀ acc m,
  foldl merge_step acc l = Some m →
  (∃ a, acc = Some a ∧ a ⊆ m)
  ∧ Forall (λ gs, substitute_variables m gs.1 = gs.2) l.
Proof.
  induction l as [|[g s] l IH]; intros acc m Hm; simpl in Hm.
  - split; [eauto|constructor].
  - apply IH in Hm as [(c & Hc & Hsub) Hall].
    apply merge_specialization_maps_Some in Hc
      as (a & b & -> & Hb & Hag & ->).
    split.
    + exists a. split; [done|]. etrans; [apply map_union_subseteq_l | done].
    + constructor; [|done]. simpl.
      eapply formula_specialization_map_sound; [done|].
      etrans; [by apply map_agree_union_r_subseteq | done].
Qed.

Lemma foldl_merge_step_complete m (gs : list Formula) : ∀ a,
  consistent m a →
  ∃ c, foldl merge_step (Some a) (zip gs (substitute_variables m <$> gs)) = Some c
       ∧ consistent m c.
Proof.
  induction gs as [|g gs IH]; intros a Ha; [simpl; eauto|].
  rewrite fmap_cons. cbn [zip zip_with foldl]. unfold merge_step at 2.
  cbn [fst snd].
  destruct (formula_specialization_map_complete m g) as (b & -> & Hb).
  destruct (consistent_merge m a b Ha Hb) as (c & -> & Hc). eauto.
Qed.

Lemma zip_fmap_eq (gs ss : list Formula) (f : Formula → Formula) :
  length gs = length ss →
  Forall (λ x : Formula * Formula, f x.1 = x.2) (zip gs ss) → f <$> gs = ss.
Proof.
  revert ss. induction gs as [|g gs IH]; intros [|s ss]; simpl; try done.
  intros [= Hlen] Hall. inversion Hall; subst; simpl in *. f_equal; auto.
Qed.

(** Soundness: the map returned for [general] against [specialization]
    specializes [general] to exactly [specialization]. *)
Lemma specialization_map_sound (general specialization : InferenceRule) m :
  specialization_map general specialization = Some m →
  specialize general m = specialization.
Proof.
  unfold specialization_map, specialize. case_decide as Hlen; [|done].
  intros [_ Hall]%foldl_merge_step_sound.
  apply zip_fmap_eq in Hall; [|by rewrite !length_app, Hlen].
  rewrite fmap_app in Hall. simpl in Hall.
  apply app_inj_1 in Hall as [Has [= Hc]]; [|by rewrite length_fmap].
  destruct specialization; simpl in *. by subst.
Qed.

(** Completeness: every substitution instance of a rule is recognised as
    a specialization of it. *)
Lemma is_specialization_of_specialize (general : InferenceRule) m :
  is_specialization_of (specialize general m) general = true.
Proof.
  unfold is_specialization_of, specialization_map, specialize. simpl.
  rewrite decide_True by by rewrite length_fmap.
  apply bool_decide_eq_true.
  destruct (foldl_merge_step_complete m
              (assumptions general ++ [conclusion general]) ∅
              (consistent_empty m)) as (c & Hc & _).
  rewrite fmap_app in Hc. simpl in Hc. unfold merge_step in Hc.
  rewrite Hc. eauto.
Qed.

Lemma is_specialization_of_sound (self general : InferenceRule) :
  is_specialization_of self general = true →
  ∃ m, specialization_map general self = Some m ∧ specialize general m = self.
Proof.
  unfold is_specialization_of. intros [m Hm]%bool_decide_eq_true.
  eauto using specialization_map_sound.
Qed.

(** The matcher decides the relation the specification describes: [self]
    is a specialization of [general] exactly when some substitution of the
    schema variables turns [general] into [self]. *)
Lemma is_specialization_of_iff (self general : InferenceRule) :
  is_specialization_of self general = true ↔ ∃ m, specialize general m = self.
Proof.
  split.
  - intros (m & _ & Hm)%is_specialization_of_sound. by exists m.
  - intros [m <-]. apply is_specialization_of_specialize.
Qed.

Lemma is_specialization_of_length (self general : InferenceRule) :
  is_specialization_of self general = true →
  length (assumptions self) = length (assumptions general).
Proof.
  intros (m & _ & <-)%is_specialization_of_sound. simpl. by rewrite length_fmap.
Qed.

Lemma is_specialization_of_refl (r : InferenceRule) :
  is_specialization_of r r = true.
Proof.
  assert (specialize r ∅ = r) as Hid.
  { assert (∀ f, substitute_variables ∅ f = f) as Hf.
    { induction f; simpl; rewrite ?lookup_empty; simpl; congruence. }
    destruct r as [as0 c]. unfold specialize; simpl. f_equal; [|done].
    induction as0; simpl; f_equal; auto. }
  rewrite <- Hid at 1. apply is_specialization_of_specialize.
Qed.
End specialization.

(** ** Line validity and how it is carried over to a spliced proof *)

Section validity.
Implicit Types (p out : Proof) (l : Line) (ls : list Line) (k i j : nat).

Lemma and_iff_both (A B C E : Prop) : (A ↔ B) → (C ↔ E) → (A ∧ C ↔ B ∧ E).
Proof. tauto. Qed.

Lemma append_lines_app acc ls : append_lines acc ls = acc ++ ls.
Proof.
  unfold append_lines. revert acc.
  induction ls as [|l ls IH]; intros acc; simpl.
  - by rewrite app_nil_r.
  - by rewrite IH, <- app_assoc.
Qed.

Lemma append_shifted_app offset acc ls :
  append_shifted offset acc ls = acc ++ (shift_line offset <$> ls).
Proof.
  unfold append_shifted. revert acc.
  induction ls as [|l ls IH]; intros acc; simpl.
  - by rewrite app_nil_r.
  - by rewrite IH, <- app_assoc.
Qed.

Lemma formula_shift_line offset l : formula (shift_line offset l) = formula l.
Proof. by destruct l. Qed.

Lemma shift_line_0 l : shift_line 0 l = l.
Proof.
  destruct l as [|f r refs]; simpl; [done|]. f_equal.
  induction refs as [|a refs IH]; simpl; [done|].
  rewrite Nat.add_0_r. f_equal. done.
Qed.

Lemma is_line_valid_assumption p k f :
  lines p !! k = Some (AssumptionLine f) →
  is_line_valid p k = true ↔ f ∈ assumptions (statement p).
Proof.
  intros Hk. unfold is_line_valid. rewrite Hk. apply bool_decide_eq_true.
Qed.

Lemma is_line_valid_rule p k f r refs :
  lines p !! k = Some (RuleLine f r refs) →
  is_line_valid p k = true ↔
    r ∈ rules p ∧ Forall (λ a, a < k) refs ∧
    ∃ fs, Forall2 (λ a g, formula <$> lines p !! a = Some g) refs fs
          ∧ is_specialization_of (mkInferenceRule fs f) r = true.
Proof.
  intros Hk. unfold is_line_valid. rewrite Hk. simpl.
  rewrite !andb_true_iff, bool_decide_eq_true.
  rewrite <- (and_assoc (r ∈ rules p)).
  apply and_iff_compat_l. apply and_iff_both.
  - rewrite forallb_forall, Forall_forall.
    split; intros H a Ha.
    + apply list_elem_of_In, H, bool_decide_eq_true in Ha. done.
    + apply bool_decide_eq_true, H, list_elem_of_In, Ha.
  - split.
    + destruct (mapM _ refs) as [fs|] eqn:Hfs; simpl; [|done].
      intros Hs. exists fs. split; [|done]. by apply mapM_Some_1.
    + intros (fs & Hfs%mapM_Some_2 & Hs). rewrite Hfs. done.
Qed.

Lemma is_valid_spec p :
  is_valid p = true ↔
    (∃ l, last (lines p) = Some l ∧ formula l = conclusion (statement p))
    ∧ ∀ k, k < length (lines p) → is_line_valid p k = true.
Proof.
  unfold is_valid. rewrite andb_true_iff, forallb_forall.
  apply and_iff_both.
  - destruct (last (lines p)) as [l|].
    + rewrite bool_decide_eq_true. split; [by exists l|].
      by intros (l' & [= <-] & Hf).
    + split; [done|]. by intros (l' & [=] & _).
  - split; intros H k Hk; apply H.
    + apply in_seq. lia.
    + apply in_seq in Hk. lia.
Qed.

Lemma is_valid_nonempty p : is_valid p = true → 0 < length (lines p).
Proof.
  intros [(l & Hl & _) _]%is_valid_spec.
  destruct (lines p); [done | simpl; lia].
Qed.

Lemma is_valid_last p :
  is_valid p = true →
  formula <$> lines p !! (length (lines p) - 1) = Some (conclusion (statement p)).
Proof.
  intros [(l & Hl & Hf) _]%is_valid_spec.
  rewrite last_lookup in Hl.
  replace (length (lines p) - 1) with (pred (length (lines p))) by lia.
  by rewrite Hl; simpl; rewrite Hf.
Qed.

(** The key transfer lemma: if [out] lays the first [k+1] lines of [p] out
    at offset [offset], each rebuilt by [shift_line offset], under the
    same assumptions and at least the same rules, then line [k] of [p]
    stays valid at its new position. *)
Lemma is_line_valid_transfer p out offset k :
  assumptions (statement p) = assumptions (statement out) →
  rules p ⊆ rules out →
  (∀ j l, j ≤ k → lines p !! j = Some l →
          lines out !! (offset + j) = Some (shift_line offset l)) →
  is_line_valid p k = true → is_line_valid out (offset + k) = true.
Proof.
  intros Hasm Hrules Hlines Hv.
  destruct (lines p !! k) as [[f|f r refs]|] eqn:Hk.
  - apply (is_line_valid_assumption p k f Hk) in Hv.
    apply (is_line_valid_assumption _ _ f).
    + by apply (Hlines k _ (le_n _)) in Hk.
    + by rewrite <- Hasm.
  - destruct (proj1 (is_line_valid_rule p k f r refs Hk) Hv)
      as (Hr & Hlt & fs & Hfs & Hs).
    apply (is_line_valid_rule _ _ f r ((λ a, a + offset) <$> refs)).
    + by apply (Hlines k _ (le_n _)) in Hk.
    + split; [set_solver|]. split.
      * apply Forall_fmap. eapply Forall_impl; [done|]. simpl. lia.
      * exists fs. split; [|done]. apply Forall2_fmap_l.
        clear Hs Hk. induction Hfs as [|a g refs fs Ha Hfs IH]; [constructor|].
        inversion Hlt as [|?? Hak Hlt']; subst.
        constructor; [|by apply IH]. simpl.
        destruct (lines p !! a) as [la|] eqn:Hla; [|done].
        rewrite (Nat.add_comm a offset).
        rewrite (Hlines a la) by (done || lia). simpl in *.
        by rewrite formula_shift_line.
  - unfold is_line_valid in Hv. by rewrite Hk in Hv.
Qed.

(** Lines copied verbatim in front stay valid. *)
Lemma is_line_valid_prefix p out ext k :
  assumptions (statement p) = assumptions (statement out) →
  rules p ⊆ rules out →
  lines out = lines p ++ ext →
  is_line_valid p k = true → is_line_valid out k = true.
Proof.
  intros Hasm Hrules Hlines Hv.
  apply (is_line_valid_transfer p out 0 k); try done.
  intros j l _ Hj. rewrite shift_line_0, Hlines. simpl.
  by apply lookup_app_l_Some.
Qed.

(** Lines laid out after a prefix, with their references shifted by the
    prefix's length, stay valid. *)
Lemma is_line_valid_shifted p out pre ext k :
  assumptions (statement p) = assumptions (statement out) →
  rules p ⊆ rules out →
  lines out = pre ++ (shift_line (length pre) <$> lines p) ++ ext →
  is_line_valid p k = true → is_line_valid out (length pre + k) = true.
Proof.
  intros Hasm Hrules Hlines Hv.
  apply (is_line_valid_transfer p out (length pre) k); try done.
  intros j l _ Hj. rewrite Hlines.
  rewrite lookup_app_r by lia.
  replace (length pre + j - length pre) with j by lia.
  apply lookup_app_l_Some. by rewrite list_lookup_fmap, Hj.
Qed.

(** Every instance of Modus Ponens and of the ex falso schema is
    recognised as a specialization. *)
Lemma MP_instance (X Y : Formula) :
  is_specialization_of (mkInferenceRule [X; (X ->> Y)%F] Y) MP = true.
Proof.
  replace (mkInferenceRule [X; (X ->> Y)%F] Y)
    with (specialize MP (<["p" := X]> {["q" := Y]})).
  - apply is_specialization_of_specialize.
  - unfold specialize, MP; simpl. by simplify_map_eq.
Qed.

Lemma I2_instance (A C : Formula) :
  is_specialization_of (mkInferenceRule [] (~~ A ->> (A ->> C))%F) I2 = true.
Proof.
  replace (mkInferenceRule [] (~~ A ->> (A ->> C))%F)
    with (specialize I2 (<["p" := A]> {["q" := C]})).
  - apply is_specialization_of_specialize.
  - unfold specialize, I2; simpl. by simplify_map_eq.
Qed.

(** A Modus Ponens line whose first reference proves [X] and whose second
    proves [(X->Y)], both earlier, is a valid justification of [Y]. *)
Lemma is_line_valid_MP out k i j (X Y : Formula) :
  lines out !! k = Some (RuleLine Y MP [i; j]) →
  MP ∈ rules out → i < k → j < k →
  formula <$> lines out !! i = Some X →
  formula <$> lines out !! j = Some (X ->> Y)%F →
  is_line_valid out k = true.
Proof.
  intros Hk HMP Hi Hj HX HXY.
  apply (is_line_valid_rule _ _ Y MP [i; j]); [done|].
  split; [done|]. split; [by repeat constructor|].
  exists [X; (X ->> Y)%F]. split; [by repeat constructor|].
  apply MP_instance.
Qed.

(** A line without references is valid when its rule is permitted and its
    formula is an instance of the rule's conclusion. *)
Lemma is_line_valid_axiom out k (F : Formula) (r : InferenceRule) :
  lines out !! k = Some (RuleLine F r []) →
  is_line_valid out k = true ↔
    r ∈ rules out ∧ is_specialization_of (mkInferenceRule [] F) r = true.
Proof.
  intros Hk. rewrite (is_line_valid_rule _ _ F r []) by done.
  split.
  - intros (Hr & _ & fs & Hfs & Hs). inversion Hfs; subst. done.
  - intros [Hr Hs]. split; [done|]. split; [constructor|].
    exists []. split; [constructor | done].
Qed.

(** Conversely, a valid Modus Ponens line has exactly two references, the
    first to a line proving some [X] and the second to a line proving
    [(X->Y)], where [Y] is the line's own formula. *)
Lemma is_line_valid_MP_inv p k (Y : Formula) refs :
  lines p !! k = Some (RuleLine Y MP refs) →
  is_line_valid p k = true →
  ∃ i j X, refs = [i; j] ∧ i < k ∧ j < k
           ∧ formula <$> lines p !! i = Some X
           ∧ formula <$> lines p !! j = Some (X ->> Y)%F.
Proof.
  intros Hk Hv.
  destruct (proj1 (is_line_valid_rule p k Y MP refs Hk) Hv)
    as (_ & Hlt & fs & Hfs & Hs).
  apply is_specialization_of_sound in Hs as (m & _ & Hm).
  unfold specialize, MP in Hm; simpl in Hm. injection Hm as Hfs' HY.
  subst fs.
  inversion Hfs as [|i X refs' fs' Hi Hfs' ]; subst.
  inversion Hfs' as [|j XY refs'' fs'' Hj Hfs'']; subst.
  inversion Hfs''; subst.
  inversion Hlt as [|?? Hik Hlt']; subst. inversion Hlt'; subst.
  by exists i, j, (default (Var "p") (m !! "p")).
Qed.
End validity.

(** ** What the splicing maneuvers return *)

Section maneuvers.
Implicit Types (p out : Proof) (c : Formula) (r : InferenceRule).

Lemma assert_true {A} (b : bool) (k : result A) :
  b = true → (assert b ;; k) = k.
Proof. by intros ->. Qed.

Lemma assert_false {A} (b : bool) (k : result A) :
  b = false → (assert b ;; k) = Raise AssertionError.
Proof. by intros ->. Qed.

(** The specialization computed from the asserted rule instance gives the
    instance back. *)
Lemma specialized_instance r (F : Formula) :
  is_specialization_of (mkInferenceRule [] F) r = true →
  ∃ m, specialization_map r (mkInferenceRule [] F) = Some m
       ∧ specialize r m = mkInferenceRule [] F.
Proof. apply is_specialization_of_sound. Qed.

Lemma prove_corollary_run p c r :
  is_valid p = true →
  is_specialization_of
    (mkInferenceRule [] (conclusion (statement p) ->> c)%F) r = true →
  prove_corollary p c r = Return (prove_corollary_result p c r).
Proof.
  intros Hv Hs. unfold prove_corollary.
  rewrite (assert_true _ _ Hv), (assert_true _ _ Hs).
  destruct (specialized_instance _ _ Hs) as (m & -> & ->).
  unfold prove_corollary_result. simpl.
  rewrite append_lines_app, app_nil_l, <- app_assoc. simpl.
  pose proof (is_valid_nonempty p Hv).
  by replace (length (lines p) - 1 + 1) with (length (lines p)) by lia.
Qed.

Lemma combine_proofs_run p1 p2 c r :
  is_valid p1 = true → is_valid p2 = true →
  assumptions (statement p1) = assumptions (statement p2) →
  rules p1 = rules p2 →
  is_specialization_of
    (mkInferenceRule []
       (conclusion (statement p1) ->> (conclusion (statement p2) ->> c))%F)
    r = true →
  combine_proofs p1 p2 c r = Return (combine_proofs_result p1 p2 c r).
Proof.
  intros Hv1 Hv2 Hasm Hrules Hs. unfold combine_proofs.
  rewrite (assert_true _ _ Hv1), (assert_true _ _ Hv2).
  rewrite (assert_true _ _ (bool_decide_eq_true_2 _ Hasm)).
  rewrite (assert_true _ _ (bool_decide_eq_true_2 _ Hrules)).
  rewrite (assert_true _ _ Hs).
  destruct (specialized_instance _ _ Hs) as (m & -> & ->).
  unfold combine_proofs_result. simpl.
  rewrite append_lines_app, append_shifted_app, app_nil_l.
  by rewrite <- !app_assoc.
Qed.

Lemma prove_from_opposites_run p1 p2 c :
  is_valid p1 = true → is_valid p2 = true →
  assumptions (statement p1) = assumptions (statement p2) →
  (~~ conclusion (statement p1))%F = conclusion (statement p2) →
  rules p1 = rules p2 →
  prove_from_opposites p1 p2 c = Return (prove_from_opposites_result p1 p2 c).
Proof.
  intros Hv1 Hv2 Hasm Hneg Hrules. unfold prove_from_opposites.
  rewrite (assert_true _ _ Hv1), (assert_true _ _ Hv2).
  rewrite (assert_true _ _ (bool_decide_eq_true_2 _ Hasm)).
  rewrite (assert_true _ _ (bool_decide_eq_true_2 _ Hneg)).
  rewrite (assert_true _ _ (bool_decide_eq_true_2 _ Hrules)).
  unfold prove_from_opposites_result. cbn zeta.
  rewrite !append_lines_app, !append_shifted_app, !app_nil_l.
  pose proof (is_valid_nonempty p1 Hv1).
  replace (length (lines p1) - 1 + 1) with (length (lines p1)) by lia.
  rewrite <- !app_assoc. simpl.
  rewrite !length_app, !length_fmap. simpl.
  replace (length (lines p1) + (length (lines p2) + 1) - 1)
    with (length (lines p1) + length (lines p2)) by lia.
  replace (length (lines p1) + (length (lines p2) + 2) - 1)
    with (length (lines p1) + length (lines p2) + 1) by lia.
  done.
Qed.
Lemma bind_Return {A B} (a : A) (k : A → result B) : (Return a ≫= k) = k a.
Proof. done. Qed.

(** The function never returns a proof. *)
Lemma prove_by_way_of_contradiction_never_returns (proof out : Proof) :
  prove_by_way_of_contradiction proof ≠ Return out.
Proof.
  unfold prove_by_way_of_contradiction.
  destruct (assert (is_valid proof)) as [[]|]; [|done].
  destruct (assert (bool_decide (conclusion _ = _))) as [[]|]; [|done].
  destruct (assert (bool_decide (0 < _))) as [[]|]; [|done].
  rewrite !bind_Return. destruct (index_last _) as [phi|]; [|done].
  rewrite !bind_Return.
  destruct (assert (bool_decide (root phi = _))) as [[]|]; [|done].
  destruct (assert (only_MP_or_assumptionless _)) as [[]|]; [|done].
  rewrite !bind_Return. by destruct (first phi).
Qed.

End maneuvers.

(** ** Validity of the spliced proofs, line by line *)

Section spliced.
Implicit Types (p out : Proof) (c : Formula) (r : InferenceRule).

Lemma last_line_formula p (rest : list Line) :
  is_valid p = true →
  formula <$> (lines p ++ rest) !! (length (lines p) - 1)
  = Some (conclusion (statement p)).
Proof.
  intros Hv. pose proof (is_valid_nonempty p Hv).
  rewrite lookup_app_l by lia. by apply is_valid_last.
Qed.

Lemma last_shifted_line_formula p (pre ext : list Line) offset :
  is_valid p = true →
  formula <$> (pre ++ (shift_line offset <$> lines p) ++ ext)
              !! (length pre + length (lines p) - 1)
  = Some (conclusion (statement p)).
Proof.
  intros Hv. pose proof (is_valid_nonempty p Hv).
  rewrite lookup_app_r by lia.
  rewrite lookup_app_l by (rewrite length_fmap; lia).
  rewrite list_lookup_fmap.
  replace (length pre + length (lines p) - 1 - length pre)
    with (length (lines p) - 1) by lia.
  pose proof (is_valid_last p Hv) as Hl.
  destruct (lines p !! (length (lines p) - 1)) as [l|]; [|done].
  simpl in *. by rewrite formula_shift_line.
Qed.

(** In a proof that starts with the lines of [p1] followed by the shifted
    lines of [p2], all of these lines are valid. *)
Lemma spliced_lines_valid p1 p2 out (ext : list Line) k :
  is_valid p1 = true → is_valid p2 = true →
  assumptions (statement p1) = assumptions (statement out) →
  assumptions (statement p2) = assumptions (statement out) →
  rules p1 ⊆ rules out → rules p2 ⊆ rules out →
  lines out = lines p1 ++ (shift_line (length (lines p1)) <$> lines p2) ++ ext →
  k < length (lines p1) + length (lines p2) →
  is_line_valid out k = true.
Proof.
  intros [_ Hv1]%is_valid_spec [_ Hv2]%is_valid_spec Ha1 Ha2 Hr1 Hr2 Hl Hk.
  destruct (decide (k < length (lines p1))) as [Hlt|Hge].
  - by apply (is_line_valid_prefix p1 out _ k Ha1 Hr1 Hl), Hv1.
  - replace k with (length (lines p1) + (k - length (lines p1))) by lia.
    apply (is_line_valid_shifted p2 out _ _ _ Ha2 Hr2 Hl), Hv2. lia.
Qed.

(** The two closing Modus Ponens lines of a three-line tail are valid as
    soon as their first references point at lines proving the antecedents
    [X] of the schema instance [(X->(Y->c))] and [Y] of [(Y->c)]. *)
Lemma closing_MP_lines_valid out (body : list Line) r (X Y c : Formula) i j :
  lines out = body ++
    [RuleLine (X ->> (Y ->> c))%F r [];
     RuleLine (Y ->> c)%F MP [i; length body];
     RuleLine c MP [j; length body + 1]] →
  MP ∈ rules out →
  i < length body → j < length body →
  formula <$> body !! i = Some X →
  formula <$> body !! j = Some Y →
  is_line_valid out (length body + 1) = true
  ∧ is_line_valid out (length body + 2) = true.
Proof.
  intros Hl HMP Hi Hj HX HY. split.
  - apply (is_line_valid_MP out _ i (length body) X (Y ->> c)%F);
      try done; try lia.
    + rewrite Hl, lookup_app_r by lia.
      by replace (length body + 1 - length body) with 1 by lia.
    + by rewrite Hl, lookup_app_l.
    + rewrite Hl, lookup_app_r by lia. by rewrite Nat.sub_diag.
  - apply (is_line_valid_MP out _ j (length body + 1) Y c);
      try done; try lia.
    + rewrite Hl, lookup_app_r by lia.
      by replace (length body + 2 - length body) with 2 by lia.
    + by rewrite Hl, lookup_app_l.
    + rewrite Hl, lookup_app_r by lia.
      by replace (length body + 1 - length body) with 1 by lia.
Qed.

(** A proof made of the lines of [p1], the shifted lines of [p2] and a
    three-line tail (a schema instance, then two Modus Ponens lines) has
    all its lines valid, except perhaps the schema instance itself. *)
Lemma spliced_result_lines_valid p1 p2 out r (X Y c : Formula) i j k :
  let n1 := length (lines p1) in
  let n2 := length (lines p2) in
  let body := lines p1 ++ (shift_line n1 <$> lines p2) in
  is_valid p1 = true → is_valid p2 = true →
  assumptions (statement p1) = assumptions (statement out) →
  assumptions (statement p2) = assumptions (statement out) →
  rules p1 ⊆ rules out → rules p2 ⊆ rules out → MP ∈ rules out →
  lines out = body ++
    [RuleLine (X ->> (Y ->> c))%F r [];
     RuleLine (Y ->> c)%F MP [i; n1 + n2];
     RuleLine c MP [j; n1 + n2 + 1]] →
  i < n1 + n2 → j < n1 + n2 →
  formula <$> body !! i = Some X →
  formula <$> body !! j = Some Y →
  k < n1 + n2 + 3 → k ≠ n1 + n2 →
  is_line_valid out k = true.
Proof.
  intros n1 n2 body Hv1 Hv2 Ha1 Ha2 Hr1 Hr2 HMP Hl Hi Hj HX HY Hk Hne.
  assert (length body = n1 + n2) as Hbody.
  { unfold body. by rewrite length_app, length_fmap. }
  destruct (decide (k < n1 + n2)) as [Hlt|Hge].
  - eapply (spliced_lines_valid p1 p2 out); try done.
    unfold body in Hl. by rewrite <- app_assoc in Hl.
  - rewrite <- Hbody in Hl, Hi, Hj.
    destruct (closing_MP_lines_valid out body r X Y c i j)
      as [HMP1 HMP2]; try done.
    rewrite Hbody in HMP1, HMP2.
    destruct (decide (k = n1 + n2 + 1)) as [->|Hne']; [done|].
    by replace k with (n1 + n2 + 2) by lia.
Qed.

Lemma spliced_result_last (body : list Line) (l1 l2 l3 : Line) :
  last (body ++ [l1; l2; l3]) = Some l3.
Proof. by rewrite (last_app_cons body), !last_cons_cons. Qed.

(** *** [prove_from_opposites] *)

Lemma prove_from_opposites_result_valid p1 p2 c :
  is_valid p1 = true → is_valid p2 = true →
  assumptions (statement p1) = assumptions (statement p2) →
  (~~ conclusion (statement p1))%F = conclusion (statement p2) →
  rules p1 = rules p2 →
  is_valid (prove_from_opposites_result p1 p2 c) = true.
Proof.
  intros Hv1 Hv2 Hasm Hneg Hrules.
  set (out := prove_from_opposites_result p1 p2 c).
  set (n1 := length (lines p1)). set (n2 := length (lines p2)).
  assert (rules p1 ⊆ rules out) as Hr1 by apply union_subseteq_l.
  assert (rules p2 ⊆ rules out) as Hr2 by (by rewrite <- Hrules).
  assert (MP ∈ rules out) as HMP by (unfold out; simpl; set_solver-).
  assert (I2 ∈ rules out) as HI2 by (unfold out; simpl; set_solver-).
  clear Hrules.
  pose proof (is_valid_nonempty p1 Hv1) as Hn1.
  pose proof (is_valid_nonempty p2 Hv2) as Hn2.
  assert (lines out = (lines p1 ++ (shift_line n1 <$> lines p2)) ++
            [RuleLine (~~ conclusion (statement p1) ->>
                       (conclusion (statement p1) ->> c))%F I2 [];
             RuleLine (conclusion (statement p1) ->> c)%F MP
                      [n1 + n2 - 1; n1 + n2];
             RuleLine c MP [n1 - 1; n1 + n2 + 1]]) as Hl.
  { unfold out, prove_from_opposites_result. simpl. by rewrite <- app_assoc. }
  assert (length (lines out) = n1 + n2 + 3) as Hlen.
  { rewrite Hl, !length_app, length_fmap. simpl. lia. }
  apply is_valid_spec. split.
  - eexists. split; [rewrite Hl; apply spliced_result_last | done].
  - intros k Hk. rewrite Hlen in Hk.
    destruct (decide (k = n1 + n2)) as [->|Hne].
    + apply (is_line_valid_axiom out _
               (~~ conclusion (statement p1) ->>
                (conclusion (statement p1) ->> c))%F I2).
      * rewrite Hl, lookup_app_r by (rewrite length_app, length_fmap; lia).
        rewrite length_app, length_fmap.
        by replace (n1 + n2 - (length (lines p1) + length (lines p2)))
          with 0 by lia.
      * split; [done | apply I2_instance].
    + eapply (spliced_result_lines_valid p1 p2 out I2); try done; try lia.
      * rewrite Hneg.
        pose proof (last_shifted_line_formula p2 (lines p1) [] n1 Hv2) as H.
        by rewrite app_nil_r in H.
      * by apply last_line_formula.
Qed.

(** *** [combine_proofs] *)

Section combine.
Variables (p1 p2 : Proof) (c : Formula) (r : InferenceRule).
Hypothesis Hv1 : is_valid p1 = true.
Hypothesis Hv2 : is_valid p2 = true.
Hypothesis Hasm : assumptions (statement p1) = assumptions (statement p2).
Hypothesis Hrules : rules p1 = rules p2.

Local Abbreviation out := (combine_proofs_result p1 p2 c r).
Local Abbreviation n1 := (length (lines p1)).
Local Abbreviation n2 := (length (lines p2)).
Local Abbreviation instance :=
  (mkInferenceRule []
     (conclusion (statement p1) ->> (conclusion (statement p2) ->> c))%F).

Lemma combine_proofs_result_lines :
  lines out = (lines p1 ++ (shift_line n1 <$> lines p2)) ++
    [RuleLine (conclusion instance) instance [];
     RuleLine (conclusion (statement p2) ->> c)%F MP [n1 - 1; n1 + n2];
     RuleLine c MP [n1 + n2 - 1; n1 + n2 + 1]].
Proof. unfold out, combine_proofs_result. simpl. by rewrite <- app_assoc. Qed.

Lemma combine_proofs_result_length : length (lines out) = n1 + n2 + 3.
Proof.
  rewrite combine_proofs_result_lines, !length_app, length_fmap. simpl.
  unfold n1, n2. lia.
Qed.

Lemma combine_proofs_result_instance_line :
  lines out !! (n1 + n2) = Some (RuleLine (conclusion instance) instance []).
Proof.
  rewrite combine_proofs_result_lines.
  rewrite lookup_app_r by (rewrite length_app, length_fmap; unfold n1, n2; lia).
  rewrite length_app, length_fmap.
  by replace (n1 + n2 - (length (lines p1) + length (lines p2))) with 0
    by (unfold n1, n2; lia).
Qed.

(** Every line of the result other than the schema-instance line is
    valid. *)
Lemma combine_proofs_result_lines_valid k :
  k < n1 + n2 + 3 → k ≠ n1 + n2 → is_line_valid out k = true.
Proof.
  intros Hk Hne.
  pose proof (is_valid_nonempty p1 Hv1) as Hn1.
  pose proof (is_valid_nonempty p2 Hv2) as Hn2.
  eapply (spliced_result_lines_valid p1 p2 out instance
            (conclusion (statement p1)) (conclusion (statement p2)) c
            (n1 - 1) (n1 + n2 - 1)); try done; try (unfold n1, n2 in *; lia).
  - apply union_subseteq_l.
  - rewrite <- Hrules. apply union_subseteq_l.
  - unfold out; simpl. set_solver-.
  - apply combine_proofs_result_lines.
  - by apply last_line_formula.
  - pose proof (last_shifted_line_formula p2 (lines p1) [] n1 Hv2) as H.
    by rewrite app_nil_r in H.
Qed.

(** The result is valid exactly when the schema instance that
    justifies line [n1 + n2] happens to be a permitted rule. *)
Lemma combine_proofs_result_valid_iff :
  is_valid out = true ↔ instance ∈ rules p1 ∪ {[ MP; r ]}.
Proof.
  rewrite is_valid_spec. split.
  - intros [_ Hall].
    specialize (Hall (n1 + n2)).
    rewrite combine_proofs_result_length in Hall.
    rewrite (is_line_valid_axiom out _ _ _ combine_proofs_result_instance_line)
      in Hall.
    apply Hall. lia.
  - intros Hin. split.
    + eexists. split;
        [rewrite combine_proofs_result_lines; apply spliced_result_last | done].
    + intros k Hk. rewrite combine_proofs_result_length in Hk.
      destruct (decide (k = n1 + n2)) as [->|Hne].
      * apply (is_line_valid_axiom out _ _ _ combine_proofs_result_instance_line).
        split; [done | apply is_specialization_of_refl].
      * by apply combine_proofs_result_lines_valid.
Qed.
End combine.

(** *** [prove_corollary] *)

Section corollary.
Variables (p : Proof) (c : Formula) (r : InferenceRule).
Hypothesis Hv : is_valid p = true.

Local Abbreviation out := (prove_corollary_result p c r).
Local Abbreviation n := (length (lines p)).
Local Abbreviation instance :=
  (mkInferenceRule [] (conclusion (statement p) ->> c)%F).

Lemma prove_corollary_result_length : length (lines out) = n + 2.
Proof. unfold out, prove_corollary_result. simpl. by rewrite length_app. Qed.

Lemma prove_corollary_result_instance_line :
  lines out !! n = Some (RuleLine (conclusion instance) instance []).
Proof.
  unfold out, prove_corollary_result. simpl.
  rewrite lookup_app_r by done. by rewrite Nat.sub_diag.
Qed.

(** Every line of the result other than the schema-instance line is
    valid. *)
Lemma prove_corollary_result_lines_valid k :
  k < n + 2 → k ≠ n → is_line_valid out k = true.
Proof.
  intros Hk Hne. pose proof (is_valid_nonempty p Hv) as Hn.
  destruct (decide (k < n)) as [Hlt|Hge].
  - apply (is_line_valid_prefix p out
             [RuleLine (conclusion instance) instance [];
              RuleLine c MP [n - 1; n]] k); try done.
    + apply union_subseteq_l.
    + apply is_valid_spec in Hv as [_ Hall]. by apply Hall.
  - replace k with (n + 1) by lia.
    apply (is_line_valid_MP out _ (n - 1) n (conclusion (statement p)) c);
      try (unfold n in *; lia).
    + unfold out, prove_corollary_result. simpl.
      rewrite lookup_app_r by (unfold n; lia).
      by replace (n + 1 - length (lines p)) with 1 by (unfold n; lia).
    + unfold out; simpl. set_solver-.
    + by apply last_line_formula.
    + by rewrite prove_corollary_result_instance_line.
Qed.

(** The result is valid exactly when the schema instance that
    justifies line [n] happens to be a permitted rule. *)
Lemma prove_corollary_result_valid_iff :
  is_valid out = true ↔ instance ∈ rules p ∪ {[ MP; r ]}.
Proof.
  rewrite is_valid_spec. split.
  - intros [_ Hall].
    specialize (Hall n). rewrite prove_corollary_result_length in Hall.
    rewrite (is_line_valid_axiom out _ _ _ prove_corollary_result_instance_line)
      in Hall.
    apply Hall. lia.
  - intros Hin. split.
    + exists (RuleLine c MP [n - 1; n]). split; [|done].
      unfold out, prove_corollary_result. simpl.
      by rewrite (last_app_cons (lines p)), last_cons_cons.
    + intros k Hk. rewrite prove_corollary_result_length in Hk.
      destruct (decide (k = n)) as [->|Hne].
      * apply (is_line_valid_axiom out _ _ _ prove_corollary_result_instance_line).
        split; [done | apply is_specialization_of_refl].
      * by apply prove_corollary_result_lines_valid.
Qed.
End corollary.
End spliced.

(** ** The store-level maneuvers compute what the maneuvers on values do *)

Lemma M_bind_Return {A B} (m : M A) (k : A → M B) (h h' : list Line) (a : A) :
  m h = (h', Return a) → (m ≫= k) h = k a h'.
Proof. unfold mbind, M_bind. by intros ->. Qed.

Lemma lift_assert_bind {A} (b : bool) (k : M A) (h : list Line) :
  (lift (assert b) ;; k) h = if b then k h else (h, Raise AssertionError).
Proof. by destruct b. Qed.

Lemma view_Some (h : list Line) (P : ProofObj) (p : Proof) :
  view h P = Some p →
  statement p = obj_statement P ∧ rules p = obj_rules P
  ∧ mapM (λ x, h !! x) (obj_lines P) = Some (lines p)
  ∧ length (obj_lines P) = length (lines p).
Proof.
  unfold view.
  destruct (mapM _ (obj_lines P)) as [ls|] eqn:Hls; [|done].
  intros [= <-]. simpl. repeat split.
  apply mapM_Some_1 in Hls. by eapply Forall2_length.
Qed.

Lemma read_Proof_view (h : list Line) (P : ProofObj) (p : Proof) :
  view h P = Some p → read_Proof P h = (h, Return p).
Proof. unfold read_Proof. by intros ->. Qed.

Lemma append_lines_obj_app (acc xs : list nat) : append_lines_obj acc xs = acc ++ xs.
Proof.
  unfold append_lines_obj. revert acc.
  induction xs as [|x xs IH]; intros acc; simpl.
  - by rewrite app_nil_r.
  - by rewrite IH, <- app_assoc.
Qed.

Lemma mapM_lookup_prefix (h h' : list Line) (xs : list nat) (ls : list Line) :
  h `prefix_of` h' →
  mapM (λ x, h !! x) xs = Some ls → mapM (λ x, h' !! x) xs = Some ls.
Proof.
  intros Hpre Hls%mapM_Some_1. apply mapM_Some_2.
  eapply Forall2_impl; [done|]. simpl.
  intros x l Hx. by eapply prefix_lookup_Some.
Qed.

Lemma mapM_lookup_app (h : list Line) (xs ys : list nat) (ls ks : list Line) :
  mapM (λ x, h !! x) xs = Some ls → mapM (λ x, h !! x) ys = Some ks →
  mapM (λ x, h !! x) (xs ++ ys) = Some (ls ++ ks).
Proof.
  intros Hx%mapM_Some_1 Hy%mapM_Some_1.
  apply mapM_Some_2. by apply Forall2_app.
Qed.

Lemma mapM_lookup_new (h : list Line) (l : Line) :
  mapM (λ x, (h ++ [l]) !! x) [length h] = Some [l].
Proof.
  apply mapM_Some_2. repeat constructor.
  rewrite lookup_app_r by done. by rewrite Nat.sub_diag.
Qed.

(** The shifting loop, run on references that read as [ls], extends the
    accumulated references by references that read as the shifted [ls]. *)
Lemma append_shifted_obj_spec (offset : nat) (xs : list nat) :
  ∀ (h : list Line) (acc : list nat) (la ls : list Line),
    mapM (λ x, h !! x) acc = Some la →
    mapM (λ x, h !! x) xs = Some ls →
    ∃ h' acc',
      append_shifted_obj offset acc xs h = (h', Return acc')
      ∧ h `prefix_of` h'
      ∧ mapM (λ x, h' !! x) acc' = Some (la ++ (shift_line offset <$> ls)).
Proof.
  unfold append_shifted_obj.
  induction xs as [|x xs IH]; intros h acc la ls Hacc Hxs.
  - apply mapM_Some_1 in Hxs. inversion Hxs; subst.
    exists h, acc. simpl. by rewrite app_nil_r.
  - apply mapM_Some_1 in Hxs.
    inversion Hxs as [|? l ? ls' Hx Hxs']; subst.
    apply mapM_Some_2 in Hxs'. cbn [for_each_M].
    assert (get_Line x h = (h, Return l)) as Hget
      by (unfold get_Line, index; by rewrite Hx).
    destruct l as [f|f r refs].
    + erewrite M_bind_Return;
        [|by erewrite M_bind_Return; [|exact Hget]].
      destruct (IH h (acc ++ [x]) (la ++ [AssumptionLine f]) ls')
        as (h' & acc' & Hrun & Hpre & Hread); [|done|].
      { apply mapM_lookup_app; [done|].
        apply mapM_Some_2. by repeat constructor. }
      exists h', acc'. split; [done|]. split; [done|].
      by rewrite Hread, <- app_assoc.
    + erewrite M_bind_Return;
        [|by erewrite M_bind_Return; [|exact Hget]].
      destruct (IH (h ++ [shift_line offset (RuleLine f r refs)])
                  (acc ++ [length h])
                  (la ++ [shift_line offset (RuleLine f r refs)]) ls')
        as (h' & acc' & Hrun & Hpre & Hread).
      { apply mapM_lookup_app.
        - eapply mapM_lookup_prefix; [|done]. by apply prefix_app_r.
        - apply mapM_lookup_new. }
      { eapply mapM_lookup_prefix; [|done]. by apply prefix_app_r. }
      exists h', acc'. split; [done|]. split.
      * etrans; [|done]. by apply prefix_app_r.
      * by rewrite Hread, <- app_assoc.
Qed.

Lemma mapM_lookup_snoc_new (h : list Line) (xs : list nat) (ls : list Line) (l : Line) :
  mapM (λ x, h !! x) xs = Some ls →
  mapM (λ x, (h ++ [l]) !! x) (xs ++ [length h]) = Some (ls ++ [l]).
Proof.
  intros Hxs. apply mapM_lookup_app; [|apply mapM_lookup_new].
  eapply mapM_lookup_prefix; [|done]. by apply prefix_app_r.
Qed.

Lemma mapM_lookup_snoc_at (h : list Line) (xs : list nat) (ls : list Line)
    (l : Line) (n : nat) :
  n = length h →
  mapM (λ x, h !! x) xs = Some ls →
  mapM (λ x, (h ++ [l]) !! x) (xs ++ [n]) = Some (ls ++ [l]).
Proof. intros ->. apply mapM_lookup_snoc_new. Qed.

Lemma view_intro (h : list Line) (st : InferenceRule) (rs : gset InferenceRule)
    (xs : list nat) (ls : list Line) :
  mapM (λ x, h !! x) xs = Some ls →
  view h (mkProofObj st rs xs) = Some (mkProof st rs ls).
Proof. unfold view. simpl. by intros ->. Qed.

Lemma prove_corollary_obj_refines (h : list Line) (P : ProofObj) (p : Proof)
    (c : Formula) (r : InferenceRule) :
  view h P = Some p →
  refines h (prove_corollary_obj P c r) (prove_corollary p c r).
Proof.
  intros Hview. destruct (view_Some h P p Hview) as (Hst & Hru & Hls & Hlen).
  unfold refines, prove_corollary_obj, prove_corollary.
  rewrite (M_bind_Return _ _ h h p (read_Proof_view h P p Hview)).
  rewrite lift_assert_bind.
  destruct (is_valid p); [rewrite assert_true by done | done].
  rewrite lift_assert_bind.
  destruct (is_specialization_of _ r); [rewrite assert_true by done | done].
  destruct (specialization_map r _) as [m|]; [|done].
  unfold mbind at 1 2 3, M_bind, new_Line, mret, M_ret. simpl.
  rewrite append_lines_obj_app, append_lines_app, !app_nil_l.
  rewrite <- Hst, <- Hru, Hlen.
  apply view_intro.
  do 2 apply mapM_lookup_snoc_new.
  eapply mapM_lookup_prefix; [|done]. by apply prefix_app_r.
Qed.

Lemma combine_proofs_obj_refines (h : list Line) (P1 P2 : ProofObj) (p1 p2 : Proof)
    (c : Formula) (r : InferenceRule) :
  view h P1 = Some p1 → view h P2 = Some p2 →
  refines h (combine_proofs_obj P1 P2 c r) (combine_proofs p1 p2 c r).
Proof.
  intros Hview1 Hview2.
  destruct (view_Some h P1 p1 Hview1) as (Hst1 & Hru1 & Hls1 & Hlen1).
  destruct (view_Some h P2 p2 Hview2) as (Hst2 & Hru2 & Hls2 & Hlen2).
  unfold refines, combine_proofs_obj, combine_proofs.
  rewrite (M_bind_Return _ _ h h p1 (read_Proof_view h P1 p1 Hview1)).
  rewrite (M_bind_Return _ _ h h p2 (read_Proof_view h P2 p2 Hview2)).
  rewrite lift_assert_bind.
  destruct (is_valid p1); [rewrite assert_true by done | done].
  rewrite lift_assert_bind.
  destruct (is_valid p2); [rewrite assert_true by done | done].
  rewrite lift_assert_bind.
  destruct (bool_decide (assumptions _ = _)); [rewrite assert_true by done | done].
  rewrite lift_assert_bind.
  destruct (bool_decide (rules _ = _)); [rewrite assert_true by done | done].
  rewrite lift_assert_bind.
  destruct (is_specialization_of _ r); [rewrite assert_true by done | done].
  destruct (specialization_map r _) as [m|]; [|done].
  destruct (append_shifted_obj_spec (length (obj_lines P1)) (obj_lines P2) h
              (append_lines_obj [] (obj_lines P1)) (lines p1) (lines p2))
    as (h' & acc' & Hrun & Hpre & Hread); [|done|].
  { by rewrite append_lines_obj_app, app_nil_l. }
  rewrite (M_bind_Return _ _ h h' acc' Hrun).
  unfold mbind at 1 2 3, M_bind, new_Line, mret, M_ret. simpl.
  rewrite append_lines_app, append_shifted_app, !app_nil_l.
  rewrite <- Hst1, <- Hru1, Hlen1, Hlen2.
  apply view_intro.
  do 3 apply mapM_lookup_snoc_new. by rewrite <- Hlen1.
Qed.

(** The loop of [remove_assumption] raises in the store exactly when it
    raises on values; what it builds is dropped by the caller. *)
Lemma remove_assumption_loop_refines (p : Proof) (phi : Formula) (ls : list Line) :
  ∀ (h : list Line) (acc : list nat) (new_lines : list Line),
    length acc = length new_lines →
    match (for_each_M (remove_assumption_body_obj p phi) ls acc h).2,
          for_each (remove_assumption_body p phi) ls new_lines with
    | Return _, Return _ => True
    | Raise e, Raise e' => e = e'
    | _, _ => False
    end.
Proof.
  induction ls as [|l ls IH]; intros h acc new_lines Hlen; [done|].
  cbn [for_each_M for_each].
  destruct l as [psi|psi rule_used refs]; cbn [remove_assumption_body_obj remove_assumption_body].
  - destruct (decide (psi = phi)).
    + rewrite bind_Return.
      erewrite M_bind_Return; [|by erewrite M_bind_Return].
      apply IH. rewrite !length_app. simpl. lia.
    + rewrite bind_Return.
      erewrite M_bind_Return; [|by erewrite M_bind_Return].
      apply IH. rewrite !length_app. simpl. lia.
  - destruct (decide (rule_used = MP)) as [Heq|Hne];
      [rewrite ?decide_True by done | rewrite ?decide_False by done].
    + unfold index, lift, mbind, M_bind, result_bind.
      destruct (refs !! 0) as [phi_line|]; [|done].
      destruct (refs !! 1) as [implication_line|]; [|done].
      destruct (lines p !! phi_line) as [lphi|]; [|done].
      destruct (lines p !! implication_line) as [limp|]; [|done].
      cbn [new_Line mret M_ret].
      apply IH. rewrite !length_app. simpl. lia.
    + rewrite bind_Return.
      erewrite M_bind_Return; [|by repeat (erewrite M_bind_Return; [|done])].
      apply IH. rewrite !length_app. simpl. lia.
Qed.

Lemma remove_assumption_obj_refines (h : list Line) (P : ProofObj) (p : Proof) :
  view h P = Some p →
  refines h (remove_assumption_obj P) (remove_assumption p).
Proof.
  intros Hview.
  unfold refines, remove_assumption_obj, remove_assumption.
  rewrite (M_bind_Return _ _ h h p (read_Proof_view h P p Hview)).
  rewrite lift_assert_bind.
  destruct (is_valid p); [rewrite assert_true by done | done].
  rewrite lift_assert_bind.
  destruct (bool_decide (0 < _)); [rewrite assert_true by done | done].
  rewrite lift_assert_bind.
  destruct (only_MP_or_assumptionless _); [rewrite assert_true by done | done].
  unfold index_last. destruct (last _) as [phi|]; [|done].
  rewrite bind_Return.
  erewrite (M_bind_Return (lift (Return phi))); [|done].
  pose proof (remove_assumption_loop_refines p phi (lines p) h [] [] eq_refl) as Hloop.
  unfold mbind at 1, M_bind.
  destruct (for_each_M _ _ _ h) as [h' [xs|e]];
    destruct (for_each _ _ _) as [nl|e']; simpl in Hloop; done.
Qed.

Lemma prove_by_way_of_contradiction_obj_refines (h : list Line) (P : ProofObj) (p : Proof) :
  view h P = Some p →
  refines h (prove_by_way_of_contradiction_obj P) (prove_by_way_of_contradiction p).
Proof.
  intros Hview. unfold refines, prove_by_way_of_contradiction_obj.
  rewrite (M_bind_Return _ _ h h p (read_Proof_view h P p Hview)).
  unfold mbind, M_bind, lift.
  pose proof (prove_by_way_of_contradiction_never_returns p) as Hnever.
  destruct (prove_by_way_of_contradiction p) as [out|e]; [by destruct (Hnever out)|done].
Qed.

Lemma prove_from_opposites_obj_refines (h : list Line) (P1 P2 : ProofObj)
    (p1 p2 : Proof) (c : Formula) :
  view h P1 = Some p1 → view h P2 = Some p2 →
  refines h (prove_from_opposites_obj P1 P2 c) (prove_from_opposites p1 p2 c).
Proof.
  intros Hview1 Hview2.
  destruct (view_Some h P1 p1 Hview1) as (Hst1 & Hru1 & Hls1 & Hlen1).
  destruct (view_Some h P2 p2 Hview2) as (Hst2 & Hru2 & Hls2 & Hlen2).
  unfold refines, prove_from_opposites_obj, prove_from_opposites.
  rewrite (M_bind_Return _ _ h h p1 (read_Proof_view h P1 p1 Hview1)).
  rewrite (M_bind_Return _ _ h h p2 (read_Proof_view h P2 p2 Hview2)).
  rewrite lift_assert_bind.
  destruct (is_valid p1); [rewrite assert_true by done | done].
  rewrite lift_assert_bind.
  destruct (is_valid p2); [rewrite assert_true by done | done].
  rewrite lift_assert_bind.
  destruct (bool_decide (assumptions _ = _)); [rewrite assert_true by done | done].
  rewrite lift_assert_bind.
  destruct (bool_decide (Unary _ _ = _)); [rewrite assert_true by done | done].
  rewrite lift_assert_bind.
  destruct (bool_decide (rules _ = _)); [rewrite assert_true by done | done].
  cbn zeta.
  destruct (append_shifted_obj_spec
              (length (append_lines_obj [] (obj_lines P1)) - 1 + 1)
              (obj_lines P2) h
              (append_lines_obj [] (obj_lines P1)) (lines p1) (lines p2))
    as (h' & acc' & Hrun & Hpre & Hread); [|done|].
  { by rewrite append_lines_obj_app, app_nil_l. }
  rewrite (M_bind_Return _ _ h h' acc' Hrun).
  unfold mbind at 1 2 3, M_bind, new_Line, mret, M_ret. simpl.
  assert (length acc' =
          length (lines p1 ++
                  (shift_line (length (append_lines_obj [] (obj_lines P1)) - 1 + 1)
                     <$> lines p2))) as Hlen'.
  { apply mapM_Some_1 in Hread. by eapply Forall2_length. }
  rewrite !append_lines_app, !append_shifted_app, !app_nil_l.
  rewrite append_lines_obj_app, app_nil_l in *.
  rewrite !length_app, Hlen'. rewrite <- Hst1, <- Hru1, Hlen1.
  rewrite length_app. cbn [length].
  apply view_intro.
  do 3 (apply mapM_lookup_snoc_at; [rewrite ?length_app; simpl; lia|]).
  by rewrite <- Hlen1.
Qed.

(** ** Frame: a maneuver writes only to the list it has created *)

Lemma keeps_weaken {A} (n : nat) (m : Prog A) (Q Q' : A → list Obj → Prop) :
  keeps n m Q → (∀ a h, Q a h → Q' a h) → keeps n m Q'.
Proof.
  intros Hm HQ h Hn. destruct (Hm h Hn) as (Ht & Hl & Ha).
  split; [done | split; [done|]]. intros a Hr. by apply HQ, Ha.
Qed.

Lemma keeps_ret {A} (n : nat) (a : A) : keeps n (mret a) (λ _ _, True).
Proof. intros h Hn. done. Qed.

Lemma keeps_lift_Prog {A} (n : nat) (r : result A) :
  keeps n (lift_Prog r) (λ _ _, True).
Proof. intros h Hn. done. Qed.

Lemma keeps_raise {A} (n : nat) (e : exn) (Q : A → list Obj → Prop) :
  keeps n (raise e) Q.
Proof. intros h Hn. done. Qed.

Lemma keeps_bind {A B} (n : nat) (m : Prog A) (k : A → Prog B)
    (Q : A → list Obj → Prop) (R : B → list Obj → Prop) :
  keeps n m Q → (∀ a, (∃ h, Q a h) → keeps n (k a) R) → keeps n (m ≫= k) R.
Proof.
  intros Hm Hk h Hn. unfold mbind, Prog_bind.
  destruct (Hm h Hn) as (Ht & Hl & Ha).
  destruct (m h) as [h1 [a|e]]; simpl in *; [|done].
  assert (n ≤ length h1) as Hn1 by lia.
  destruct (Hk a (ex_intro _ h1 (Ha a eq_refl)) h1 Hn1) as (Ht' & Hl' & Hb).
  split; [congruence | split; [lia | done]].
Qed.

Lemma keeps_alloc (n : nat) (o : Obj) : keeps n (alloc o) (λ x _, n ≤ x).
Proof.
  intros h Hn. simpl. split; [by apply take_app_le | split].
  - rewrite length_app. lia.
  - by intros a [= <-].
Qed.

Lemma keeps_load (n x : nat) : keeps n (load x) (λ _ _, True).
Proof. intros h Hn. unfold load. by destruct (h !! x). Qed.

(** Writing to an object above the first [n] leaves those as they are. *)
Lemma keeps_store (n x : nat) (o : Obj) :
  n ≤ x → keeps n (store x o) (λ _ _, True).
Proof.
  intros Hx h Hn. simpl. split; [by apply take_insert_ge | split; [|done]].
  by rewrite length_insert.
Qed.

Lemma keeps_for_each_Prog {A S} (n : nat) (body : S → A → Prog S) (l : list A) :
  (∀ s x, keeps n (body s x) (λ _ _, True)) →
  ∀ s, keeps n (for_each_Prog body l s) (λ _ _, True).
Proof.
  intros Hbody. induction l as [|x l IH]; intros s; simpl.
  - apply keeps_ret.
  - eapply keeps_bind; [apply Hbody | intros s' _; apply IH].
Qed.

Lemma keeps_Line_new (n : nat) (l : Line) : keeps n (Line_new l) (λ x _, n ≤ x).
Proof. apply keeps_alloc. Qed.

Lemma keeps_list_new (n : nat) : keeps n list_new (λ x _, n ≤ x).
Proof. apply keeps_alloc. Qed.

Lemma keeps_Line_get (n x : nat) : keeps n (Line_get x) (λ _ _, True).
Proof.
  eapply keeps_bind; [apply keeps_load|].
  intros [l|xs|st rs t] _; first [apply keeps_ret | apply keeps_raise].
Qed.

Lemma keeps_seq_get (n s : nat) : keeps n (seq_get s) (λ _ _, True).
Proof.
  eapply keeps_bind; [apply keeps_load|].
  intros [l|xs|st rs t] _; first [apply keeps_ret | apply keeps_raise].
Qed.

Lemma keeps_list_len (n lst : nat) : keeps n (list_len lst) (λ _ _, True).
Proof.
  eapply keeps_bind; [apply keeps_seq_get | intros xs _; apply keeps_ret].
Qed.

Lemma keeps_Proof_lines (n proof : nat) :
  keeps n (Proof_lines proof) (λ _ _, True).
Proof.
  eapply keeps_bind; [apply keeps_load|].
  intros [l|xs|st rs t] _; first [apply keeps_seq_get | apply keeps_raise].
Qed.

Lemma keeps_Proof_read (n proof : nat) :
  keeps n (Proof_read proof) (λ _ _, True).
Proof. intros h Hn. unfold Proof_read. by destruct (deref h proof). Qed.

(** [lines.append(x)] changes the list [lst] and nothing else. *)
Lemma keeps_list_append (n lst x : nat) :
  n ≤ lst → keeps n (list_append lst x) (λ _ _, True).
Proof.
  intros Hlst. eapply keeps_bind; [apply keeps_seq_get|].
  intros xs _. by apply keeps_store.
Qed.

Lemma keeps_seq_set (n s i x : nat) :
  n ≤ s → keeps n (seq_set s i x) (λ _ _, True).
Proof.
  intros Hs. eapply keeps_bind; [apply keeps_seq_get|].
  intros xs _. by apply keeps_store.
Qed.

(** The constructor changes no object: the proof object is new, and so is
    its line sequence when the list it is given is. *)
Lemma keeps_Proof_new (n : nat) (copies : bool) (st : InferenceRule)
    (rs : gset InferenceRule) (lst : nat) :
  n ≤ lst → keeps n (Proof_new copies st rs lst) (own_line_sequence n).
Proof.
  intros Hlst h Hn. unfold Proof_new. destruct copies.
  - unfold seq_get, load, mbind, Prog_bind.
    destruct (h !! lst) as [[l|xs|st' rs' t']|]; simpl; try done.
    split; [|split].
    + rewrite take_app_le by (rewrite length_app; lia). by apply take_app_le.
    + rewrite !length_app. lia.
    + intros a [= <-]. rewrite length_app. simpl. split; [lia|].
      exists st, rs, (length h). split; [|done].
      by rewrite (list_lookup_middle (h ++ [OSeq xs]) [] _ (length h + 1))
        by (rewrite length_app; done).
  - simpl. split; [by apply take_app_le | split].
    + rewrite length_app. lia.
    + intros a [= <-]. split; [done|].
      exists st, rs, lst. split; [|done]. by apply list_lookup_middle.
Qed.

Ltac keeps_prim :=
  first
    [ apply keeps_ret | apply keeps_lift_Prog | apply keeps_raise
    | apply keeps_alloc | apply keeps_Line_new | apply keeps_list_new
    | apply keeps_load | apply keeps_Line_get | apply keeps_seq_get
    | apply keeps_list_len | apply keeps_Proof_lines | apply keeps_Proof_read
    | apply keeps_Proof_new; assumption
    | apply keeps_list_append; assumption
    | apply keeps_seq_set; assumption
    | apply keeps_store; assumption ].

Ltac keeps_step :=
  first
    [ progress cbv zeta
    | keeps_prim
    | apply keeps_for_each_Prog; intros ? ?
    | eapply keeps_bind; [|intros ? [? ?]]
    | match goal with
      | |- keeps _ (match ?x with _ => _ end) _ => destruct x
      | |- keeps _ (if ?b then _ else _) _ => destruct b
      end ].

Lemma keeps_append_lines_heap (n lines : nat) (xs : list nat) :
  n ≤ lines → keeps n (append_lines_heap lines xs) (λ _ _, True).
Proof. intros Hl. unfold append_lines_heap. repeat keeps_step. Qed.

Lemma keeps_append_shifted_heap (n offset lines : nat) (xs : list nat) :
  n ≤ lines → keeps n (append_shifted_heap offset lines xs) (λ _ _, True).
Proof. intros Hl. unfold append_shifted_heap. repeat keeps_step. Qed.

Lemma keeps_prove_corollary_heap (copies : bool) (n P : nat) (c : Formula) (r : InferenceRule) :
  keeps n (prove_corollary_heap copies P c r) (own_line_sequence n).
Proof.
  unfold prove_corollary_heap.
  repeat first [apply keeps_append_lines_heap; assumption | keeps_step].
Qed.

Lemma keeps_combine_proofs_heap (copies : bool) (n P1 P2 : nat) (c : Formula) (r : InferenceRule) :
  keeps n (combine_proofs_heap copies P1 P2 c r) (own_line_sequence n).
Proof.
  unfold combine_proofs_heap.
  repeat first [ apply keeps_append_lines_heap; assumption
               | apply keeps_append_shifted_heap; assumption
               | keeps_step ].
Qed.

Lemma keeps_remove_assumption_body_heap (n P : nat) (a : Formula)
    (new_lines x : nat) :
  n ≤ new_lines →
  keeps n (remove_assumption_body_heap P a new_lines x) (λ _ _, True).
Proof.
  intros Hl. unfold remove_assumption_body_heap. repeat keeps_step.
Qed.

Lemma keeps_remove_assumption_heap (copies : bool) (n P : nat) :
  keeps n (remove_assumption_heap copies P) (own_line_sequence n).
Proof.
  unfold remove_assumption_heap.
  repeat first [ apply keeps_remove_assumption_body_heap; assumption
               | keeps_step ].
Qed.

Lemma keeps_prove_from_opposites_heap (copies : bool) (n P1 P2 : nat) (c : Formula) :
  keeps n (prove_from_opposites_heap copies P1 P2 c) (own_line_sequence n).
Proof.
  unfold prove_from_opposites_heap.
  repeat first [ apply keeps_append_lines_heap; assumption
               | apply keeps_append_shifted_heap; assumption
               | keeps_step ].
Qed.

Lemma keeps_prove_by_way_of_contradiction_heap (n P : nat) :
  keeps n (prove_by_way_of_contradiction_heap P) (own_line_sequence n).
Proof. unfold prove_by_way_of_contradiction_heap. repeat keeps_step. Qed.

(** Reindexing in place a proof whose line sequence lies above the first
    [n] objects leaves those as they are. *)
Lemma keeps_reindex_in_place (n offset out : nat) (h' : list Obj) :
  n ≤ length h' → own_line_sequence n out h' →
  take n (reindex_in_place offset out h').1 = take n h'.
Proof.
  intros Hn (Hout & st & rs & t & HP & Ht).
  unfold reindex_in_place. unfold mbind at 1. unfold Prog_bind, load.
  rewrite HP.
  assert (keeps n
            (ys ← seq_get t;
             for_each_Prog
               (λ i x,
                  line ← Line_get x;
                  (if negb (is_assumption line)
                   then x' ← Line_new (shift_line offset line); seq_set t i x'
                   else mret tt);;
                  mret (S i))
               ys 0;;
             mret tt)
            (λ _ _, True)) as Hk by repeat keeps_step.
  by destruct (Hk h' Hn) as (Htake & _).
Qed.

(** Objects that stay in place keep every proof readable, with the same
    statement, rule set and lines. *)
Lemma deref_prefix (h h' : list Obj) (Q : nat) (q : Proof) :
  h `prefix_of` h' → deref h Q = Some q → deref h' Q = Some q.
Proof.
  intros Hpre. unfold deref.
  destruct (h !! Q) as [[l|xs|st rs t]|] eqn:HQ; try done.
  rewrite (prefix_lookup_Some _ _ _ _ HQ Hpre).
  destruct (h !! t) as [[l|xs|st' rs' t']|] eqn:Ht; try done.
  rewrite (prefix_lookup_Some _ _ _ _ Ht Hpre).
  destruct (mapM _ xs) as [ls|] eqn:Hls; [|done].
  intros [= <-]. apply mapM_Some_1 in Hls.
  match goal with
  | |- ?m ≫= _ = _ => assert (m = Some ls) as ->; [|done]
  end.
  apply mapM_Some_2. eapply Forall2_impl; [done|]. simpl.
  intros x l Hx.
  destruct (h !! x) as [[l0|?|? ? ?]|] eqn:Hhx; try done.
  by rewrite (prefix_lookup_Some _ _ _ _ Hhx Hpre).
Qed.

Lemma take_length_prefix (n : nat) (h h' : list Obj) :
  n = length h → take n h' = take n h → h `prefix_of` h'.
Proof.
  intros -> Ht. rewrite (take_ge h) in Ht by done.
  rewrite <- Ht. apply prefix_take.
Qed.

(** ** The maneuvers over the heap compute what the maneuvers on values do *)

Section wp.
Context {A : Type}.
Implicit Types (Φ : A → list Obj → Prop) (Ψ : exn → Prop) (g : list Obj).

Lemma wp_mono (m : Prog A) Φ Φ' Ψ Ψ' g :
  wp m Φ Ψ g → (∀ a g', Φ a g' → Φ' a g') → (∀ e, Ψ e → Ψ' e) → wp m Φ' Ψ' g.
Proof. unfold wp. destruct (m g) as [g' [a|e]]; auto. Qed.

Lemma wp_ret (a : A) Φ Ψ g : Φ a g → wp (mret a) Φ Ψ g.
Proof. done. Qed.

Lemma wp_lift_Prog (r : result A) Φ Ψ g :
  match r with Return a => Φ a g | Raise e => Ψ e end → wp (lift_Prog r) Φ Ψ g.
Proof. unfold wp, lift_Prog. by destruct r. Qed.

Lemma wp_raise (e : exn) Φ Ψ g : Ψ e → wp (raise e) Φ Ψ g.
Proof. done. Qed.

Lemma wp_bind {B} (m : Prog B) (k : B → Prog A) Φ Ψ g :
  wp m (λ b g', wp (k b) Φ Ψ g') Ψ g → wp (m ≫= k) Φ Ψ g.
Proof. unfold wp, mbind, Prog_bind. by destruct (m g) as [g' [b|e]]. Qed.
End wp.

Lemma wp_alloc (o : Obj) (Φ : nat → list Obj → Prop) Ψ g :
  Φ (length g) (g ++ [o]) → wp (alloc o) Φ Ψ g.
Proof. done. Qed.

Lemma wp_seq_get (s : nat) (xs : list nat) (Φ : list nat → list Obj → Prop) Ψ g :
  g !! s = Some (OSeq xs) → Φ xs g → wp (seq_get s) Φ Ψ g.
Proof. unfold wp, seq_get, load, mbind, Prog_bind. by intros ->. Qed.

Lemma wp_list_len (lst : nat) (xs : list nat) (Φ : nat → list Obj → Prop) Ψ g :
  g !! lst = Some (OSeq xs) → Φ (length xs) g → wp (list_len lst) Φ Ψ g.
Proof.
  intros Hlst HΦ. unfold list_len. apply wp_bind.
  by eapply wp_seq_get; [done|].
Qed.

Lemma wp_Line_get (x : nat) (l : Line) (Φ : Line → list Obj → Prop) Ψ g :
  g !! x = Some (OLine l) → Φ l g → wp (Line_get x) Φ Ψ g.
Proof. unfold wp, Line_get, load, mbind, Prog_bind. by intros ->. Qed.

Lemma wp_list_append (lst x : nat) (ys : list nat) (Φ : unit → list Obj → Prop)
    Ψ g :
  g !! lst = Some (OSeq ys) → Φ tt (<[lst := OSeq (ys ++ [x])]> g) →
  wp (list_append lst x) Φ Ψ g.
Proof.
  intros Hlst HΦ. unfold list_append. apply wp_bind.
  by eapply wp_seq_get; [done|].
Qed.

Lemma wp_Proof_read (P : nat) (p : Proof) (Φ : Proof → list Obj → Prop) Ψ g :
  deref g P = Some p → Φ p g → wp (Proof_read P) Φ Ψ g.
Proof. unfold wp, Proof_read. by intros ->. Qed.

(** *** Reading proofs and lines in a heap that has grown *)

Lemma deref_inv (h : list Obj) (P : nat) (p : Proof) :
  deref h P = Some p →
  ∃ t xs, h !! P = Some (OProof (statement p) (rules p) t)
          ∧ h !! t = Some (OSeq xs) ∧ lines_at h xs (lines p).
Proof.
  unfold deref.
  destruct (h !! P) as [[l|xs|st rs t]|]; try done.
  destruct (h !! t) as [[l|xs|st' rs' t']|] eqn:Ht; try done.
  destruct (mapM _ xs) as [ls|] eqn:Hls; [|done].
  intros [= <-]. exists t, xs. split; [done | split; [done|]].
  apply mapM_Some_1 in Hls. eapply Forall2_impl; [done|]. simpl.
  intros x l. by destruct (h !! x) as [[l0|?|? ? ?]|]; intros [= ->].
Qed.

Lemma deref_intro (g : list Obj) (P t : nat) (st : InferenceRule)
    (rs : gset InferenceRule) (xs : list nat) (ls : list Line) :
  g !! P = Some (OProof st rs t) → g !! t = Some (OSeq xs) → lines_at g xs ls →
  deref g P = Some (mkProof st rs ls).
Proof.
  intros HP Ht Hls. unfold deref. rewrite HP, Ht.
  match goal with
  | |- ?m ≫= _ = _ => assert (m = Some ls) as ->; [|done]
  end.
  apply mapM_Some_2. eapply Forall2_impl; [done|]. simpl.
  by intros x l ->.
Qed.

Lemma lines_at_length (g : list Obj) (xs : list nat) (ls : list Line) :
  lines_at g xs ls → length xs = length ls.
Proof. apply Forall2_length. Qed.

Lemma lines_at_prefix (g g' : list Obj) (xs : list nat) (ls : list Line) :
  g `prefix_of` g' → lines_at g xs ls → lines_at g' xs ls.
Proof.
  intros Hpre Hls. eapply Forall2_impl; [done|]. simpl.
  intros x l Hx. by eapply prefix_lookup_Some.
Qed.

(** Changing a list leaves every line where it is. *)
Lemma lines_at_insert (g : list Obj) (lst : nat) (ys zs xs : list nat)
    (ls : list Line) :
  g !! lst = Some (OSeq ys) → lines_at g xs ls →
  lines_at (<[lst := OSeq zs]> g) xs ls.
Proof.
  intros Hlst Hls. eapply Forall2_impl; [done|]. simpl.
  intros x l Hx. rewrite list_lookup_insert_ne; [done|]. congruence.
Qed.

Lemma lines_at_snoc (g : list Obj) (xs : list nat) (ls : list Line) (x : nat)
    (l : Line) :
  lines_at g xs ls → g !! x = Some (OLine l) → lines_at g (xs ++ [x]) (ls ++ [l]).
Proof. intros Hls Hx. apply Forall2_app; [done|]. by constructor. Qed.

Lemma prefix_insert_ge (h g : list Obj) (i : nat) (o : Obj) :
  h `prefix_of` g → length h ≤ i → h `prefix_of` <[i := o]> g.
Proof.
  intros [k ->] Hi. rewrite insert_app_r_alt by done. by eexists.
Qed.

(** [proof.lines] of a proof of [h], read in a heap that has grown out
    of [h]: the references are to lines of [h]. *)
Lemma wp_Proof_lines (h : list Obj) (P : nat) (p : Proof)
    (Φ : list nat → list Obj → Prop) Ψ g :
  deref h P = Some p → h `prefix_of` g →
  (∀ xs, lines_at h xs (lines p) → Φ xs g) →
  wp (Proof_lines P) Φ Ψ g.
Proof.
  intros (t & xs & HP & Ht & Hls)%deref_inv Hpre HΦ.
  unfold wp, Proof_lines, load, mbind, Prog_bind.
  rewrite (prefix_lookup_Some _ _ _ _ HP Hpre).
  fold (wp (seq_get t) Φ Ψ g).
  eapply wp_seq_get; [by eapply prefix_lookup_Some|].
  by apply HΦ.
Qed.

(** *** The list a maneuver builds *)

Lemma built_prefix (h g : list Obj) (lst : nat) (ys : list nat) (ls : list Line) :
  built h g lst ys ls → h `prefix_of` g.
Proof. by intros (? & _). Qed.

Lemma built_length (h g : list Obj) (lst : nat) (ys : list nat) (ls : list Line) :
  built h g lst ys ls → length ys = length ls.
Proof. intros (_ & _ & _ & Hls). by eapply lines_at_length. Qed.

Lemma built_new (h g : list Obj) :
  h `prefix_of` g → built h (g ++ [OSeq []]) (length g) [] [].
Proof.
  intros Hpre. split; [by apply prefix_app_r | split; [by apply prefix_length|]].
  split; [by apply list_lookup_middle | constructor].
Qed.

Lemma built_alloc (h g : list Obj) (lst : nat) (ys : list nat) (ls : list Line)
    (o : Obj) :
  built h g lst ys ls → built h (g ++ [o]) lst ys ls.
Proof.
  intros (Hpre & Hlst & Hg & Hls).
  split; [by apply prefix_app_r | split; [done|]].
  split; [by apply lookup_app_l_Some|].
  eapply lines_at_prefix; [|done]. by apply prefix_app_r.
Qed.

Lemma built_append (h g : list Obj) (lst : nat) (ys : list nat) (ls : list Line)
    (x : nat) (l : Line) :
  built h g lst ys ls → g !! x = Some (OLine l) →
  built h (<[lst := OSeq (ys ++ [x])]> g) lst (ys ++ [x]) (ls ++ [l]).
Proof.
  intros (Hpre & Hlst & Hg & Hls) Hx.
  split; [by apply prefix_insert_ge | split; [done|]].
  split; [by apply list_lookup_insert_eq, (lookup_lt_Some _ _ _ Hg)|].
  eapply lines_at_insert; [done|]. by apply lines_at_snoc.
Qed.

(** [lines.append(Proof.Line(...))] *)
Lemma wp_new_line_append {B} (h g : list Obj) (lst : nat) (ys : list nat)
    (ls : list Line) (l : Line) (rest : Prog B) (Φ : B → list Obj → Prop) Ψ :
  built h g lst ys ls →
  (∀ g', built h g' lst (ys ++ [length g]) (ls ++ [l]) → wp rest Φ Ψ g') →
  wp (x ← Line_new l; list_append lst x;; rest) Φ Ψ g.
Proof.
  intros Hb Hrest. apply wp_bind, wp_alloc. apply wp_bind.
  pose proof (built_alloc _ _ _ _ _ (OLine l) Hb) as Hb'.
  eapply wp_list_append; [apply Hb'|].
  apply Hrest, built_append; [done|]. by apply list_lookup_middle.
Qed.

Lemma wp_new_line_append_last (h g : list Obj) (lst : nat) (ys : list nat)
    (ls : list Line) (l : Line) (Φ : unit → list Obj → Prop) Ψ :
  built h g lst ys ls →
  (∀ g', built h g' lst (ys ++ [length g]) (ls ++ [l]) → Φ tt g') →
  wp (x ← Line_new l; list_append lst x) Φ Ψ g.
Proof.
  intros Hb HΦ. apply wp_bind, wp_alloc.
  pose proof (built_alloc _ _ _ _ _ (OLine l) Hb) as Hb'.
  eapply wp_list_append; [apply Hb'|].
  apply HΦ, built_append; [done|]. by apply list_lookup_middle.
Qed.

Lemma wp_append_lines_heap (h : list Obj) (lst : nat) (xs : list nat)
    (Φ : unit → list Obj → Prop) Ψ :
  ∀ (ls' : list Line) (g : list Obj) (ys : list nat) (ls : list Line),
    built h g lst ys ls → lines_at h xs ls' →
    (∀ g', built h g' lst (ys ++ xs) (ls ++ ls') → Φ tt g') →
    wp (append_lines_heap lst xs) Φ Ψ g.
Proof.
  unfold append_lines_heap.
  induction xs as [|x xs IH]; intros ls' g ys ls Hb Hxs HΦ.
  - apply Forall2_nil_inv_l in Hxs as ->. apply wp_ret, HΦ.
    by rewrite !app_nil_r.
  - apply Forall2_cons_inv_l in Hxs as (l & ls'' & Hx & Hxs & ->).
    cbn [for_each_Prog]. apply wp_bind.
    eapply wp_list_append; [apply Hb|].
    eapply (IH ls''); [apply built_append; [done|] | done |].
    + by eapply prefix_lookup_Some; [|eapply built_prefix].
    + intros g'. rewrite <- !(assoc_L (++)). apply HΦ.
Qed.

Lemma wp_append_shifted_heap (h : list Obj) (offset lst : nat) (xs : list nat)
    (Φ : unit → list Obj → Prop) Ψ :
  ∀ (ls' : list Line) (g : list Obj) (ys : list nat) (ls : list Line),
    built h g lst ys ls → lines_at h xs ls' →
    (∀ g' zs, built h g' lst (ys ++ zs) (ls ++ (shift_line offset <$> ls')) →
              Φ tt g') →
    wp (append_shifted_heap offset lst xs) Φ Ψ g.
Proof.
  unfold append_shifted_heap.
  induction xs as [|x xs IH]; intros ls' g ys ls Hb Hxs HΦ.
  - apply Forall2_nil_inv_l in Hxs as ->. apply wp_ret, (HΦ g []).
    by rewrite !app_nil_r.
  - apply Forall2_cons_inv_l in Hxs as (l & ls'' & Hx & Hxs & ->).
    assert (g !! x = Some (OLine l)) as Hgx
      by by eapply prefix_lookup_Some; [|eapply built_prefix].
    cbn [for_each_Prog]. apply wp_bind, wp_bind.
    eapply wp_Line_get; [done|].
    destruct l as [f|f r refs]; cbn [is_assumption negb].
    + eapply wp_list_append; [apply Hb|].
      eapply (IH ls''); [by apply built_append | done |].
      intros g' zs. rewrite <- !(assoc_L (++)). apply HΦ.
    + eapply wp_new_line_append_last; [done|]. intros g' Hb'.
      eapply (IH ls''); [done | done |].
      intros g'' zs. rewrite <- !(assoc_L (++)). apply HΦ.
Qed.

(** The constructor makes an object that stands for the proof with the
    lines the given list refers to, whether it copies the list or not. *)
Lemma wp_Proof_new (copies : bool) (h g : list Obj) (lst : nat) (ys : list nat)
    (ls : list Line) (st : InferenceRule) (rs : gset InferenceRule)
    (Φ : nat → list Obj → Prop) Ψ :
  built h g lst ys ls →
  (∀ g' out, h `prefix_of` g' → deref g' out = Some (mkProof st rs ls) →
             Φ out g') →
  wp (Proof_new copies st rs lst) Φ Ψ g.
Proof.
  intros (Hpre & Hlst & Hg & Hls) HΦ. unfold Proof_new. destruct copies.
  - apply wp_bind. eapply wp_seq_get; [done|].
    apply wp_bind, wp_alloc, wp_alloc. apply HΦ.
    + by do 2 apply prefix_app_r.
    + eapply (deref_intro _ _ (length g)).
      * by apply list_lookup_middle.
      * apply lookup_app_l_Some. by apply list_lookup_middle.
      * eapply lines_at_prefix; [|done]. by do 2 apply prefix_app_r.
  - apply wp_alloc, HΦ; [by apply prefix_app_r|].
    eapply (deref_intro _ _ lst).
    + by apply list_lookup_middle.
    + by apply lookup_app_l_Some.
    + eapply lines_at_prefix; [|done]. by apply prefix_app_r.
Qed.

Lemma refines_heap_wp (h : list Obj) (m : Prog nat) (r : result Proof) :
  wp m (λ out g', ∃ q, r = Return q ∧ deref g' out = Some q) (λ e, r = Raise e) h →
  refines_heap h m r.
Proof.
  unfold wp, refines_heap. destruct (m h) as [g' [out|e]]; simpl.
  - by intros (q & -> & Hq).
  - by intros ->.
Qed.


(** *** The five maneuvers *)

Lemma wp_assert {A} (b : bool) (k : Prog A) (Φ : A → list Obj → Prop) Ψ g :
  (if b then wp k Φ Ψ g else Ψ AssertionError) →
  wp (lift_Prog (assert b) ;; k) Φ Ψ g.
Proof. destruct b; [done|]. intros HΨ. by apply wp_bind, wp_lift_Prog. Qed.

(** The list literal [[Proof.Line(...)]] *)
Lemma built_literal (h g : list Obj) (l : Line) :
  h `prefix_of` g →
  built h ((g ++ [OLine l]) ++ [OSeq [length g]]) (length (g ++ [OLine l]))
        [length g] [l].
Proof.
  intros Hpre. split; [by do 2 apply prefix_app_r | split].
  - rewrite length_app. apply prefix_length in Hpre. lia.
  - split; [by apply list_lookup_middle|].
    constructor; [|constructor].
    apply lookup_app_l_Some. by apply list_lookup_middle.
Qed.

Lemma prove_corollary_heap_refines (copies : bool) (h : list Obj) (P : nat)
    (p : Proof) (c : Formula) (r : InferenceRule) :
  deref h P = Some p →
  refines_heap h (prove_corollary_heap copies P c r) (prove_corollary p c r).
Proof.
  intros Hd. apply refines_heap_wp. unfold prove_corollary_heap.
  apply wp_bind. eapply wp_Proof_read; [done|].
  apply wp_assert. destruct (is_valid p) eqn:Hv;
    [|unfold prove_corollary; by rewrite (assert_false _ _ Hv)].
  apply wp_assert. destruct (is_specialization_of _ r) eqn:Hs;
    [|unfold prove_corollary; by rewrite (assert_true _ _ Hv), (assert_false _ _ Hs)].
  rewrite (prove_corollary_run p c r Hv Hs).
  destruct (specialized_instance _ _ Hs) as (m & -> & ->). cbv zeta.
  apply wp_bind, wp_alloc. apply wp_bind, wp_alloc. apply wp_bind.
  eapply wp_Proof_new; [by apply built_literal|]. intros g0 _ Hpre0 _.
  apply wp_bind. eapply wp_Proof_lines; [done | done |]. intros xs0 Hxs0.
  apply wp_bind, wp_alloc.
  pose proof (built_new h g0 Hpre0) as Hb0.
  apply wp_bind.
  eapply wp_Proof_lines; [done | by eapply built_prefix |]. intros xs Hxs.
  apply wp_bind. eapply wp_append_lines_heap; [done | done |]. intros g1 Hb1.
  eapply wp_new_line_append; [done|]. intros g2 Hb2.
  eapply wp_new_line_append; [done|]. intros g3 Hb3.
  eapply wp_Proof_new; [done|]. intros g4 out _ Hout.
  eexists. split; [done|]. rewrite Hout. unfold prove_corollary_result.
  rewrite (lines_at_length _ _ _ Hxs0). pose proof (is_valid_nonempty p Hv).
  replace (length (lines p) - 1 + 1) with (length (lines p)) by lia.
  by rewrite app_nil_l, <- (assoc_L (++)).
Qed.

Lemma prove_by_way_of_contradiction_heap_refines (h : list Obj) (P : nat)
    (p : Proof) :
  deref h P = Some p →
  refines_heap h (prove_by_way_of_contradiction_heap P)
               (prove_by_way_of_contradiction p).
Proof.
  intros Hd. apply refines_heap_wp. unfold prove_by_way_of_contradiction_heap.
  apply wp_bind. eapply wp_Proof_read; [done|].
  apply wp_bind, wp_lift_Prog.
  pose proof (prove_by_way_of_contradiction_never_returns p) as Hnever.
  destruct (prove_by_way_of_contradiction p) as [out|e]; [by destruct (Hnever out)|done].
Qed.

Lemma combine_proofs_heap_refines (copies : bool) (h : list Obj) (P1 P2 : nat)
    (p1 p2 : Proof) (c : Formula) (r : InferenceRule) :
  deref h P1 = Some p1 → deref h P2 = Some p2 →
  refines_heap h (combine_proofs_heap copies P1 P2 c r) (combine_proofs p1 p2 c r).
Proof.
  intros Hd1 Hd2. apply refines_heap_wp. unfold combine_proofs_heap.
  apply wp_bind. eapply wp_Proof_read; [done|].
  apply wp_assert. destruct (is_valid p1) eqn:Hv1;
    [|unfold combine_proofs; by rewrite (assert_false _ _ Hv1)].
  apply wp_bind. eapply wp_Proof_read; [done|].
  apply wp_assert. destruct (is_valid p2) eqn:Hv2;
    [|unfold combine_proofs;
      by rewrite (assert_true _ _ Hv1), (assert_false _ _ Hv2)].
  apply wp_assert. destruct (bool_decide (assumptions _ = _)) eqn:Ha;
    [|unfold combine_proofs;
      by rewrite (assert_true _ _ Hv1), (assert_true _ _ Hv2),
                 (assert_false _ _ Ha)].
  apply wp_assert. destruct (bool_decide (rules _ = _)) eqn:Hr;
    [|unfold combine_proofs;
      by rewrite (assert_true _ _ Hv1), (assert_true _ _ Hv2),
                 (assert_true _ _ Ha), (assert_false _ _ Hr)].
  apply wp_assert. destruct (is_specialization_of _ r) eqn:Hs;
    [|unfold combine_proofs;
      by rewrite (assert_true _ _ Hv1), (assert_true _ _ Hv2),
                 (assert_true _ _ Ha), (assert_true _ _ Hr),
                 (assert_false _ _ Hs)].
  rewrite (combine_proofs_run p1 p2 c r Hv1 Hv2
             (bool_decide_eq_true_1 _ Ha) (bool_decide_eq_true_1 _ Hr) Hs).
  destruct (specialized_instance _ _ Hs) as (m & -> & ->). cbv zeta.
  apply wp_bind. eapply wp_Proof_lines; [exact Hd1 | done |]. intros ys1 Hys1.
  apply wp_bind. eapply wp_Proof_lines; [exact Hd2 | done |]. intros ys2 Hys2.
  apply wp_bind, wp_alloc.
  pose proof (built_new h h (reflexivity h)) as Hb0.
  apply wp_bind.
  eapply wp_Proof_lines; [exact Hd1 | by eapply built_prefix |]. intros xs1 Hxs1.
  apply wp_bind. eapply wp_append_lines_heap; [done | done |]. intros g1 Hb1.
  apply wp_bind.
  eapply wp_Proof_lines; [exact Hd2 | by eapply built_prefix |]. intros xs2 Hxs2.
  apply wp_bind. eapply wp_append_shifted_heap; [done | done |].
  intros g2 zs Hb2.
  eapply wp_new_line_append; [done|]. intros g3 Hb3.
  eapply wp_new_line_append; [done|]. intros g4 Hb4.
  eapply wp_new_line_append; [done|]. intros g5 Hb5.
  eapply wp_Proof_new; [done|]. intros g6 out _ Hout.
  eexists. split; [done|]. rewrite Hout. unfold combine_proofs_result.
  rewrite (lines_at_length _ _ _ Hys1), (lines_at_length _ _ _ Hys2).
  by rewrite app_nil_l, <- !(assoc_L (++)).
Qed.

Lemma prove_from_opposites_heap_refines (copies : bool) (h : list Obj)
    (P1 P2 : nat) (p1 p2 : Proof) (c : Formula) :
  deref h P1 = Some p1 → deref h P2 = Some p2 →
  refines_heap h (prove_from_opposites_heap copies P1 P2 c)
               (prove_from_opposites p1 p2 c).
Proof.
  intros Hd1 Hd2. apply refines_heap_wp. unfold prove_from_opposites_heap.
  apply wp_bind. eapply wp_Proof_read; [done|].
  apply wp_assert. destruct (is_valid p1) eqn:Hv1;
    [|unfold prove_from_opposites; by rewrite (assert_false _ _ Hv1)].
  apply wp_bind. eapply wp_Proof_read; [done|].
  apply wp_assert. destruct (is_valid p2) eqn:Hv2;
    [|unfold prove_from_opposites;
      by rewrite (assert_true _ _ Hv1), (assert_false _ _ Hv2)].
  apply wp_assert. destruct (bool_decide (assumptions _ = _)) eqn:Ha;
    [|unfold prove_from_opposites;
      by rewrite (assert_true _ _ Hv1), (assert_true _ _ Hv2),
                 (assert_false _ _ Ha)].
  apply wp_assert. destruct (bool_decide (Unary _ _ = _)) eqn:Hn;
    [|unfold prove_from_opposites;
      by rewrite (assert_true _ _ Hv1), (assert_true _ _ Hv2),
                 (assert_true _ _ Ha), (assert_false _ _ Hn)].
  apply wp_assert. destruct (bool_decide (rules _ = _)) eqn:Hr;
    [|unfold prove_from_opposites;
      by rewrite (assert_true _ _ Hv1), (assert_true _ _ Hv2),
                 (assert_true _ _ Ha), (assert_true _ _ Hn),
                 (assert_false _ _ Hr)].
  rewrite (prove_from_opposites_run p1 p2 c Hv1 Hv2
             (bool_decide_eq_true_1 _ Ha) (bool_decide_eq_true_1 _ Hn)
             (bool_decide_eq_true_1 _ Hr)).
  cbv zeta.
  apply wp_bind, wp_alloc.
  pose proof (built_new h h (reflexivity h)) as Hb0.
  apply wp_bind.
  eapply wp_Proof_lines; [exact Hd1 | by eapply built_prefix |]. intros xs1 Hxs1.
  apply wp_bind. eapply wp_append_lines_heap; [done | done |]. intros g1 Hb1.
  apply wp_bind. eapply wp_list_len; [apply Hb1|].
  apply wp_bind.
  eapply wp_Proof_lines; [exact Hd2 | by eapply built_prefix |]. intros xs2 Hxs2.
  apply wp_bind. eapply wp_append_shifted_heap; [done | done |].
  intros g2 zs Hb2.
  apply wp_bind. eapply wp_list_len; [apply Hb2|].
  eapply wp_new_line_append; [done|]. intros g3 Hb3.
  apply wp_bind. eapply wp_list_len; [apply Hb3|].
  eapply wp_new_line_append; [done|]. intros g4 Hb4.
  apply wp_bind. eapply wp_list_len; [apply Hb4|].
  eapply wp_new_line_append; [done|]. intros g5 Hb5.
  eapply wp_Proof_new; [done|]. intros g6 out _ Hout.
  eexists. split; [done|]. rewrite Hout. unfold prove_from_opposites_result.
  pose proof (built_length _ _ _ _ _ Hb1) as Hl1.
  pose proof (built_length _ _ _ _ _ Hb2) as Hl2.
  pose proof (is_valid_nonempty p1 Hv1) as Hne.
  rewrite !app_nil_l in *. rewrite !length_app, length_fmap in Hl2.
  rewrite !length_app. cbn [length]. rewrite Hl1.
  replace (length zs) with (length (lines p2)) by lia.
  replace (length (lines p1) - 1 + 1) with (length (lines p1)) by lia.
  rewrite <- !(assoc_L (++)). simpl.
  repeat (f_equal; try lia).
Qed.

(** [proof.lines[i]] in the heap and on values: both raise [IndexError],
    or the heap has the line. *)
Lemma wp_index_line {A} (h : list Obj) (P : nat) (p : Proof) (i : nat)
    (k : Line → Prog A) (Φ : A → list Obj → Prop) Ψ g :
  deref h P = Some p → h `prefix_of` g →
  match index (lines p) i with
  | Return l => wp (k l) Φ Ψ g
  | Raise e => Ψ e
  end →
  wp (ys ← Proof_lines P; x ← lift_Prog (index ys i); l ← Line_get x; k l) Φ Ψ g.
Proof.
  intros Hd Hpre Hk. apply wp_bind.
  eapply wp_Proof_lines; [done | done |]. intros ys Hys.
  apply wp_bind, wp_lift_Prog. unfold index in *.
  destruct (lines p !! i) as [l|] eqn:Hl.
  - destruct (Forall2_lookup_r _ _ _ _ _ Hys Hl) as (x & -> & Hx).
    apply wp_bind. eapply wp_Line_get; [|done].
    by eapply prefix_lookup_Some.
  - apply lookup_ge_None_1 in Hl.
    rewrite (lookup_ge_None_2 ys i); [done|].
    by rewrite (lines_at_length _ _ _ Hys).
Qed.

(** The loop of [remove_assumption] over the heap builds the lines the
    loop on values builds, and raises when that raises. *)
Lemma wp_remove_assumption_loop (h : list Obj) (P : nat) (p : Proof)
    (a : Formula) (lst : nat) (Φ : unit → list Obj → Prop) Ψ (xs : list nat) :
  deref h P = Some p →
  ∀ (ls_in : list Line) (g : list Obj) (ys : list nat) (ls : list Line),
    built h g lst ys ls → lines_at h xs ls_in →
    match for_each (remove_assumption_body p a) ls_in ls with
    | Return new_lines => ∀ g' ys', built h g' lst ys' new_lines → Φ tt g'
    | Raise e => Ψ e
    end →
    wp (for_each_Prog (λ _ x, remove_assumption_body_heap P a lst x) xs tt) Φ Ψ g.
Proof.
  intros Hd. induction xs as [|x xs IH]; intros ls_in g ys ls Hb Hxs HΦ.
  - apply Forall2_nil_inv_l in Hxs as ->. apply wp_ret. by eapply HΦ.
  - apply Forall2_cons_inv_l in Hxs as (l & ls'' & Hx & Hxs & ->).
    cbn [for_each_Prog for_each] in *. apply wp_bind.
    unfold remove_assumption_body_heap. apply wp_bind.
    eapply wp_Line_get;
      [by eapply prefix_lookup_Some; [|eapply built_prefix]|].
    destruct l as [psi|psi rule_used refs]; cbn [remove_assumption_body] in HΦ.
    + destruct (decide (psi = a)); rewrite bind_Return in HΦ.
      * eapply wp_new_line_append_last; [done|]. intros g' Hb'. by eapply IH.
      * eapply wp_new_line_append_last; [done|]. intros g' Hb'. by eapply IH.
    + destruct (decide (rule_used = MP)) as [Heq|Hne].
      * apply wp_bind, wp_lift_Prog.
        destruct (index refs 0) as [phi_line|e0]; [|done].
        apply wp_bind, wp_lift_Prog. rewrite bind_Return in HΦ.
        destruct (index refs 1) as [implication_line|e1]; [|done].
        rewrite bind_Return in HΦ.
        eapply wp_index_line; [done | by eapply built_prefix |].
        destruct (index (lines p) phi_line) as [phi|e2]; [|done].
        rewrite bind_Return in HΦ.
        eapply wp_index_line; [done | by eapply built_prefix |].
        destruct (index (lines p) implication_line) as [implication|e3]; [|done].
        rewrite bind_Return in HΦ.
        eapply wp_new_line_append_last; [done|]. intros g' Hb'. by eapply IH.
      * rewrite bind_Return in HΦ.
        eapply wp_new_line_append; [done|]. intros g1 Hb1.
        eapply wp_new_line_append; [done|]. intros g2 Hb2.
        apply wp_bind. eapply wp_list_len; [apply Hb2|].
        rewrite (built_length _ _ _ _ _ Hb2).
        eapply wp_new_line_append_last; [done|]. intros g3 Hb3. by eapply IH.
Qed.

Lemma remove_assumption_heap_refines (copies : bool) (h : list Obj) (P : nat)
    (p : Proof) :
  deref h P = Some p →
  refines_heap h (remove_assumption_heap copies P) (remove_assumption p).
Proof.
  intros Hd. apply refines_heap_wp.
  unfold remove_assumption_heap, remove_assumption.
  apply wp_bind. eapply wp_Proof_read; [done|].
  apply wp_assert. destruct (is_valid p) eqn:Hv; [|done].
  rewrite (assert_true _ _ eq_refl).
  apply wp_assert. destruct (bool_decide (0 < _)) eqn:Hn; [|done].
  rewrite (assert_true _ _ eq_refl).
  apply wp_assert. destruct (only_MP_or_assumptionless _) eqn:Hr; [|done].
  rewrite (assert_true _ _ eq_refl).
  apply wp_bind, wp_lift_Prog.
  destruct (index_last _) as [a|e]; [|done]. rewrite bind_Return.
  apply wp_bind, wp_alloc.
  pose proof (built_new h h (reflexivity h)) as Hb0.
  apply wp_bind.
  eapply wp_Proof_lines; [done | by eapply built_prefix |]. intros xs Hxs.
  apply wp_bind.
  eapply wp_remove_assumption_loop; [done | done | done |].
  destruct (for_each _ _ _) as [new_lines|e]; [|done].
  intros g1 ys1 Hb1. cbv zeta.
  apply wp_bind, wp_alloc.
  eapply wp_Proof_new; [by eapply built_new, built_prefix|].
  intros g2 out _ Hout. eexists. by split.
Qed.

(** *** Reindexing in place *)

Lemma wp_seq_set (s i x : nat) (xs : list nat) (Φ : unit → list Obj → Prop) Ψ g :
  g !! s = Some (OSeq xs) → Φ tt (<[s := OSeq (<[i := x]> xs)]> g) →
  wp (seq_set s i x) Φ Ψ g.
Proof.
  intros Hs HΦ. unfold seq_set. apply wp_bind.
  by eapply wp_seq_get; [done|].
Qed.

(** The loop of [reindex_in_place]: the slots before the current index
    hold reindexed lines, the others the lines still to be reindexed; no
    object but the sequence changes. *)
Lemma wp_reindex_loop (t offset : nat) (Φ : nat → list Obj → Prop) Ψ
    (xs : list nat) :
  ∀ (ls : list Line) (g0 g : list Obj) (pre : list nat) (lsd : list Line),
    (∀ y o, y ≠ t → g0 !! y = Some o → g !! y = Some o) →
    g !! t = Some (OSeq (pre ++ xs)) →
    lines_at g pre lsd → lines_at g xs ls →
    (∀ n g' pre',
       (∀ y o, y ≠ t → g0 !! y = Some o → g' !! y = Some o) →
       g' !! t = Some (OSeq pre') →
       lines_at g' pre' (lsd ++ (shift_line offset <$> ls)) →
       Φ n g') →
    wp (for_each_Prog
          (λ i x,
             line ← Line_get x;
             (if negb (is_assumption line)
              then x' ← Line_new (shift_line offset line); seq_set t i x'
              else mret tt);;
             mret (S i))
          xs (length pre)) Φ Ψ g.
Proof.
  induction xs as [|x xs IH]; intros ls g0 g pre lsd Hsame Ht Hdone Hxs HΦ.
  - apply Forall2_nil_inv_l in Hxs as ->. apply wp_ret.
    rewrite app_nil_r in Ht. eapply HΦ; [done | done |].
    by rewrite fmap_nil, app_nil_r.
  - apply Forall2_cons_inv_l in Hxs as (l & ls' & Hx & Hxs & ->).
    cbn [for_each_Prog]. apply wp_bind, wp_bind.
    eapply wp_Line_get; [done|].
    destruct l as [f|f r refs]; cbn [is_assumption negb].
    + apply wp_bind, wp_ret, wp_ret.
      replace (S (length pre)) with (length (pre ++ [x]))
        by (rewrite length_app; simpl; lia).
      eapply (IH ls' g0 g (pre ++ [x]) (lsd ++ [AssumptionLine f]));
        [done | by rewrite <- (assoc_L (++)) | by apply lines_at_snoc | done |].
      intros n g' pre' Hsame' Ht' Hpre'.
      eapply HΦ; [done | done |]. by rewrite <- (assoc_L (++)) in Hpre'.
    + apply wp_bind, wp_bind, wp_alloc.
      eapply wp_seq_set; [by apply lookup_app_l_Some|].
      apply wp_ret.
      rewrite (insert_app_r_alt pre) by lia. rewrite Nat.sub_diag.
      cbn [insert list_insert].
      set (l' := shift_line offset (RuleLine f r refs)).
      set (g1 := g ++ [OLine l']).
      assert (g1 !! t = Some (OSeq (pre ++ x :: xs))) as Ht1
        by by apply lookup_app_l_Some.
      assert (g `prefix_of` g1) as Hpre by by apply prefix_app_r.
      replace (S (length pre)) with (length (pre ++ [length g]))
        by (rewrite length_app; simpl; lia).
      eapply (IH ls' g0 _ (pre ++ [length g]) (lsd ++ [l'])).
      * intros y o Hy Ho. rewrite list_lookup_insert_ne by done.
        by apply lookup_app_l_Some, Hsame.
      * rewrite <- (assoc_L (++)).
        by apply list_lookup_insert_eq, (lookup_lt_Some _ _ _ Ht1).
      * eapply lines_at_insert; [done|]. apply lines_at_snoc.
        -- by eapply lines_at_prefix.
        -- by apply list_lookup_middle.
      * eapply lines_at_insert; [done|]. by eapply lines_at_prefix.
      * intros n g' pre' Hsame' Ht' Hpre'.
        eapply HΦ; [done | done |]. by rewrite <- (assoc_L (++)) in Hpre'.
Qed.

(** Reindexing in place a proof of the heap returns, and the proof then
    has every reference of its rule lines shifted. *)
Lemma reindex_in_place_spec (offset out : nat) (g : list Obj) (q : Proof) :
  deref g out = Some q →
  (reindex_in_place offset out g).2 = Return tt
  ∧ deref (reindex_in_place offset out g).1 out = Some (reindexed offset q).
Proof.
  intros (t & xs & Hout & Ht & Hxs)%deref_inv.
  assert (wp (reindex_in_place offset out)
             (λ _ g', deref g' out = Some (reindexed offset q))
             (λ _, False) g) as Hwp.
  { unfold reindex_in_place, wp at 1, mbind at 1, Prog_bind at 1, load.
    rewrite Hout.
    match goal with
    | |- match ?m g with _ => _ end =>
        change (wp m (λ _ g', deref g' out = Some (reindexed offset q))
                  (λ _, False) g)
    end.
    apply wp_bind. eapply wp_seq_get; [done|]. apply wp_bind.
    eapply (wp_reindex_loop t offset _ _ xs (lines q) g g [] []);
      [done | done | constructor | done |].
    intros n g' pre' Hsame Ht' Hdone'. apply wp_ret.
    eapply deref_intro; [|done|done].
    apply Hsame; [|done]. intros ->. congruence. }
  unfold wp in Hwp. by destruct (reindex_in_place offset out g) as [g' [[]|e]].
Qed.

(** * Main results *)

(** ** [remove_assumption] *)

(** What [remove_assumption] returns once its assertions pass and its loop
    over the lines completes: the lines the loop has built are dropped. *)
Lemma remove_assumption_run (proof : Proof) (phi : Formula) (new_lines : list Line) :
  is_valid proof = true →
  only_MP_or_assumptionless (rules proof) = true →
  last (assumptions (statement proof)) = Some phi →
  for_each (remove_assumption_body proof phi) (lines proof) [] = Return new_lines →
  remove_assumption proof =
    Return (mkProof
              (mkInferenceRule (removelast (assumptions (statement proof)))
                               (phi ->> conclusion (statement proof))%F)
              (rules proof ∪ {[ MP; I0; I1; D ]}) []).
Proof.
  intros Hv Hr Hlast Hloop. unfold remove_assumption.
  rewrite (assert_true _ _ Hv).
  rewrite assert_true.
  - rewrite (assert_true _ _ Hr). unfold index_last. rewrite Hlast.
    rewrite bind_Return, Hloop. done.
  - apply bool_decide_eq_true.
    destruct (assumptions (statement proof)); [done | simpl; lia].
Qed.

(** Whatever proof [remove_assumption] returns has no lines, hence is not
    valid. *)
Lemma remove_assumption_returns_no_lines (proof out : Proof) :
  remove_assumption proof = Return out →
  lines out = [] ∧ is_valid out = false.
Proof.
  unfold remove_assumption. intros H.
  destruct (assert (is_valid proof)) as [[]|]; [|done].
  destruct (assert (bool_decide _)) as [[]|]; [|done].
  destruct (assert (only_MP_or_assumptionless _)) as [[]|]; [|done].
  rewrite !bind_Return in H.
  destruct (index_last _) as [phi|]; [|done].
  rewrite !bind_Return in H.
  destruct (for_each _ _ _) as [nl|]; [|done].
  rewrite !bind_Return in H. injection H as <-. done.
Qed.

(** C1: on the two-line scenario proof (assumptions [q; p], both lines the
    assumption [p]), which is valid and uses no rule with assumptions,
    [remove_assumption] returns a proof with the expected statement
    ([q] entails [(p->p)]) and rule set, but with an empty line list;
    the returned proof fails [is_valid]. *)
Theorem remove_assumption_scenario_not_valid :
  is_valid scenario_proof = true
  ∧ only_MP_or_assumptionless (rules scenario_proof) = true
  ∧ ∃ out, remove_assumption scenario_proof = Return out
           ∧ statement out = mkInferenceRule [Var "q"] (Var "p" ->> Var "p")%F
           ∧ rules out = rules scenario_proof ∪ {[ MP; I0; I1; D ]}
           ∧ lines out = []
           ∧ is_valid out = false.
Proof.
  assert (is_valid scenario_proof = true) as Hv by (vm_compute; reflexivity).
  assert (only_MP_or_assumptionless (rules scenario_proof) = true) as Hr
    by (vm_compute; reflexivity).
  split; [done|]. split; [done|].
  eexists. split.
  - apply (remove_assumption_run scenario_proof (Var "p")
             [RuleLine (Var "p" ->> Var "p")%F I0 [];
              RuleLine (Var "p" ->> Var "p")%F I0 []]); try done.
  - repeat split.
Qed.

(** ** [prove_by_way_of_contradiction] *)

(** C2: on a valid proof of [~(p->p)] whose last assumption is the negation
    [~(p->p)] of the formula [(p->p)], with no rules beyond the allowed
    ones, every assertion of [prove_by_way_of_contradiction] passes and the
    call then raises [NameError] instead of returning a proof of [(p->p)]. *)
Theorem prove_by_way_of_contradiction_raises_NameError :
  is_valid contradiction_proof = true
  ∧ conclusion (statement contradiction_proof) = (~~ (Var "p" ->> Var "p"))%F
  ∧ last (assumptions (statement contradiction_proof))
    = Some (~~ (Var "p" ->> Var "p"))%F
  ∧ only_MP_or_assumptionless (rules contradiction_proof) = true
  ∧ prove_by_way_of_contradiction contradiction_proof = Raise NameError.
Proof. repeat split; vm_compute; reflexivity. Qed.

(** The composition never returns a proof either, whatever the schema:
    its first step yields a proof without lines, which the second step's
    validity assertion rejects. *)
Lemma remove_then_corollary_raises (N : InferenceRule) (proof : Proof) (phi : Formula) :
  ∃ e, remove_then_corollary N proof phi = Raise e.
Proof.
  unfold remove_then_corollary.
  destruct (remove_assumption proof) as [q|e] eqn:Hq; [|by exists e].
  apply remove_assumption_returns_no_lines in Hq as [_ Hq].
  exists AssertionError. rewrite bind_Return.
  unfold prove_corollary. by rewrite (assert_false _ _ Hq).
Qed.

(** C3: on the valid proof [contradiction_proof] of [~(p->p)] from
    [~(p->p)], the direct call raises [NameError] while the two-step
    composition (for any schema [N]) raises [AssertionError]: neither
    returns a proof, and the two calls do not even fail alike. *)
Theorem prove_by_way_of_contradiction_is_not_the_composition (N : InferenceRule) :
  prove_by_way_of_contradiction contradiction_proof = Raise NameError
  ∧ remove_then_corollary N contradiction_proof (Var "p" ->> Var "p")%F
    = Raise AssertionError.
Proof.
  split; [vm_compute; reflexivity|].
  unfold remove_then_corollary.
  rewrite (remove_assumption_run contradiction_proof
             (~~ (Var "p" ->> Var "p"))%F
             [RuleLine ((~~ (Var "p" ->> Var "p")) ->>
                        (~~ (Var "p" ->> Var "p")))%F I0 []]);
    [|vm_compute; reflexivity..].
  rewrite bind_Return. unfold prove_corollary. by rewrite assert_false.
Qed.

(** ** [prove_corollary] *)

(** C4: for the valid one-line proof of [x] from [x], the consequent
    [(y->x)] and the assumptionless schema I1, of which [(x->(y->x))] is a
    specialization, [prove_corollary] returns a proof with the expected
    statement and rule set whose line 1 is justified by the instance
    [(x->(y->x))] itself, a rule outside the rule set: the returned proof
    fails [is_valid]. *)
Theorem prove_corollary_result_not_valid :
  is_valid x_from_x = true
  ∧ is_specialization_of
      (mkInferenceRule [] (Var "x" ->> (Var "y" ->> Var "x"))%F) I1 = true
  ∧ ∃ out, prove_corollary x_from_x (Var "y" ->> Var "x")%F I1 = Return out
           ∧ statement out
             = mkInferenceRule [Var "x"] (Var "y" ->> Var "x")%F
           ∧ rules out = rules x_from_x ∪ {[ MP; I1 ]}
           ∧ lines out !! 1
             = Some (RuleLine (Var "x" ->> (Var "y" ->> Var "x"))%F
                       (mkInferenceRule [] (Var "x" ->> (Var "y" ->> Var "x"))%F)
                       [])
           ∧ is_valid out = false.
Proof.
  assert (is_valid x_from_x = true) as Hv by (vm_compute; reflexivity).
  assert (is_specialization_of
            (mkInferenceRule [] (Var "x" ->> (Var "y" ->> Var "x"))%F) I1 = true)
    as Hs by (vm_compute; reflexivity).
  split; [done|]. split; [done|].
  eexists. split; [by apply prove_corollary_run|].
  do 3 (split; [reflexivity|]).
  apply not_true_is_false.
  rewrite (prove_corollary_result_valid_iff _ _ _ Hv).
  unfold x_from_x, MP, I1; simpl.
  intros [Hin|Hin]%elem_of_union; [by apply not_elem_of_empty in Hin|].
  apply elem_of_union in Hin as [Hin|Hin];
    apply elem_of_singleton in Hin; discriminate.
Qed.

(** ** [combine_proofs] *)

(** C5: for the valid one-line proofs of [x] and of [y] from [x; y], the
    consequent [x] and the assumptionless schema I1, of which
    [(x->(y->x))] is a specialization, [combine_proofs] returns a proof
    with the expected statement, rule set and line count 1 + 1 + 3, whose
    line 2 is justified by the instance [(x->(y->x))] itself, a rule
    outside the rule set: the returned proof fails [is_valid]. *)
Theorem combine_proofs_result_not_valid :
  is_valid proof_of_x = true ∧ is_valid proof_of_y = true
  ∧ is_specialization_of
      (mkInferenceRule [] (Var "x" ->> (Var "y" ->> Var "x"))%F) I1 = true
  ∧ ∃ out, combine_proofs proof_of_x proof_of_y (Var "x") I1 = Return out
           ∧ statement out = mkInferenceRule [Var "x"; Var "y"] (Var "x")
           ∧ rules out = rules proof_of_x ∪ {[ MP; I1 ]}
           ∧ length (lines out)
             = length (lines proof_of_x) + length (lines proof_of_y) + 3
           ∧ lines out !! 2
             = Some (RuleLine (Var "x" ->> (Var "y" ->> Var "x"))%F
                       (mkInferenceRule [] (Var "x" ->> (Var "y" ->> Var "x"))%F)
                       [])
           ∧ is_valid out = false.
Proof.
  assert (is_valid proof_of_x = true) as Hv1 by (vm_compute; reflexivity).
  assert (is_valid proof_of_y = true) as Hv2 by (vm_compute; reflexivity).
  assert (is_specialization_of
            (mkInferenceRule [] (Var "x" ->> (Var "y" ->> Var "x"))%F) I1 = true)
    as Hs by (vm_compute; reflexivity).
  split; [done|]. split; [done|]. split; [done|].
  eexists. split; [by apply combine_proofs_run|].
  do 4 (split; [reflexivity|]).
  apply not_true_is_false.
  rewrite (combine_proofs_result_valid_iff _ _ _ _ Hv1 Hv2 eq_refl eq_refl).
  unfold proof_of_x, MP, I1; simpl.
  intros [Hin|Hin]%elem_of_union; [by apply not_elem_of_empty in Hin|].
  apply elem_of_union in Hin as [Hin|Hin];
    apply elem_of_singleton in Hin; discriminate.
Qed.

(** C6 (as worded): on the one-line proofs of [x] and of [y] from [x; y]
    with consequent [x] and schema I1, the lines [combine_proofs] returns
    are not in the order the specification words: the first Modus Ponens
    line does not refer to the last line of the second proof. *)
Lemma combine_order_claimed_fails :
  ∃ out, combine_proofs proof_of_x proof_of_y (Var "x") I1 = Return out
         ∧ ¬ combine_order_claimed proof_of_x proof_of_y (Var "x") out.
Proof.
  eexists. split.
  - apply combine_proofs_run; try reflexivity; vm_compute; reflexivity.
  - intros (special_rule & refs1 & refs2 & Hp1 & _ & Hl).
    simpl in Hl. injection Hl as _ Hrefs1 _. subst refs1.
    assert (0 ∈ [1; 2]) as Hin by (rewrite <- Hp1; apply list_elem_of_here).
    apply list_elem_of_In in Hin. simpl in Hin. lia.
Qed.

(** C6 (amended): whenever the preconditions of [combine_proofs] hold, it
    returns a proof whose lines are, in order: the lines of the first proof
    as they are; the lines of the second proof with every reference
    increased by the length of the first (assumption lines as they are);
    the specialized schema line with no references; a Modus Ponens line
    referring to the last line of the first proof (which proves A) and to
    the specialized line, deriving (B->C); and a final Modus Ponens line
    referring to the last line of the shifted second proof (which proves B)
    and to the (B->C) line, deriving C. *)
Theorem combine_proofs_line_order (p1 p2 : Proof) (c : Formula) (r : InferenceRule) :
  is_valid p1 = true → is_valid p2 = true →
  assumptions (statement p1) = assumptions (statement p2) →
  rules p1 = rules p2 →
  is_specialization_of
    (mkInferenceRule []
       (conclusion (statement p1) ->> (conclusion (statement p2) ->> c))%F)
    r = true →
  ∃ out, combine_proofs p1 p2 c r = Return out
         ∧ combine_order_actual p1 p2 c r out.
Proof.
  intros Hv1 Hv2 Hasm Hrules Hs.
  eexists. split; [by apply combine_proofs_run|].
  destruct (specialized_instance _ _ Hs) as (m & Hm & Hinst).
  exists m. rewrite Hinst. split; [done|]. split; [done|].
  split; [reflexivity|]. split.
  - by apply last_line_formula.
  - by apply (last_shifted_line_formula p2 (lines p1)).
Qed.

Lemma combine_proofs_line_order_witness :
  ∃ out, combine_proofs proof_of_x proof_of_y (Var "x") I1 = Return out
         ∧ combine_order_actual proof_of_x proof_of_y (Var "x") I1 out.
Proof.
  apply (combine_proofs_line_order proof_of_x proof_of_y (Var "x") I1);
    try reflexivity; vm_compute; reflexivity.
Defined.

(** ** [prove_from_opposites] *)

(** C7: for valid proofs of A and of [~A] with equal assumptions and equal
    rule sets, and for every formula C whatsoever, [prove_from_opposites]
    returns a valid proof whose statement has the shared assumptions and
    the conclusion C, whose rule set is the shared rules with MP and I2
    added, and whose last line's formula is C. *)
Theorem prove_from_opposites_correct (Pa Pn : Proof) (C : Formula) :
  is_valid Pa = true → is_valid Pn = true →
  conclusion (statement Pn) = (~~ conclusion (statement Pa))%F →
  assumptions (statement Pa) = assumptions (statement Pn) →
  rules Pa = rules Pn →
  ∃ out, prove_from_opposites Pa Pn C = Return out
         ∧ is_valid out = true
         ∧ statement out = mkInferenceRule (assumptions (statement Pa)) C
         ∧ rules out = rules Pa ∪ {[ MP; I2 ]}
         ∧ formula <$> last (lines out) = Some C.
Proof.
  intros Hva Hvn Hneg Hasm Hrules.
  exists (prove_from_opposites_result Pa Pn C).
  split; [by apply prove_from_opposites_run|].
  split; [by apply prove_from_opposites_result_valid|].
  split; [done|]. split; [done|].
  unfold prove_from_opposites_result. cbn [lines].
  by rewrite app_assoc, spliced_result_last.
Qed.

Lemma prove_from_opposites_correct_witness :
  ∃ out, prove_from_opposites proof_of_p proof_of_not_p (Var "q") = Return out
         ∧ is_valid out = true
         ∧ statement out
           = mkInferenceRule (assumptions (statement proof_of_p)) (Var "q")
         ∧ rules out = rules proof_of_p ∪ {[ MP; I2 ]}
         ∧ formula <$> last (lines out) = Some (Var "q").
Proof.
  apply (prove_from_opposites_correct proof_of_p proof_of_not_p (Var "q"));
    try reflexivity; vm_compute; reflexivity.
Defined.

(** ** Specialization failures *)

(** C8: when the needed implication is not a specialization of the
    supplied rule, [prove_corollary] and [combine_proofs] raise (an
    [AssertionError]) and return no proof; run in a store, they raise
    before any line object is created, leaving the store as it was. *)
Theorem specialization_failure_raises (p p1 p2 : Proof) (c : Formula)
    (conditional double_conditional : InferenceRule) :
  (is_specialization_of
     (mkInferenceRule [] (conclusion (statement p) ->> c)%F) conditional = false →
   prove_corollary p c conditional = Raise AssertionError
   ∧ ∀ h P, view h P = Some p →
            prove_corollary_obj P c conditional h = (h, Raise AssertionError))
  ∧ (is_specialization_of
       (mkInferenceRule []
          (conclusion (statement p1) ->> (conclusion (statement p2) ->> c))%F)
       double_conditional = false →
     combine_proofs p1 p2 c double_conditional = Raise AssertionError
     ∧ ∀ h P1 P2, view h P1 = Some p1 → view h P2 = Some p2 →
                  combine_proofs_obj P1 P2 c double_conditional h
                  = (h, Raise AssertionError)).
Proof.
  split; intros Hs; split.
  - unfold prove_corollary.
    destruct (is_valid p); [|done].
    rewrite assert_true by done. by rewrite (assert_false _ _ Hs).
  - intros h P Hview. unfold prove_corollary_obj.
    rewrite (M_bind_Return _ _ h h p (read_Proof_view h P p Hview)).
    rewrite lift_assert_bind. destruct (is_valid p); [|done].
    by rewrite lift_assert_bind, Hs.
  - unfold combine_proofs.
    destruct (is_valid p1); [|done]. rewrite assert_true by done.
    destruct (is_valid p2); [|done]. rewrite assert_true by done.
    destruct (bool_decide (assumptions _ = _)); [|done].
    rewrite assert_true by done.
    destruct (bool_decide (rules _ = _)); [|done].
    rewrite assert_true by done. by rewrite (assert_false _ _ Hs).
  - intros h P1 P2 Hview1 Hview2. unfold combine_proofs_obj.
    rewrite (M_bind_Return _ _ h h p1 (read_Proof_view h P1 p1 Hview1)).
    rewrite (M_bind_Return _ _ h h p2 (read_Proof_view h P2 p2 Hview2)).
    rewrite lift_assert_bind. destruct (is_valid p1); [|done].
    rewrite lift_assert_bind. destruct (is_valid p2); [|done].
    rewrite lift_assert_bind.
    destruct (bool_decide (assumptions _ = _)); [|done].
    rewrite lift_assert_bind. destruct (bool_decide (rules _ = _)); [|done].
    by rewrite lift_assert_bind, Hs.
Qed.

Lemma specialization_failure_raises_witness :
  (prove_corollary x_from_x (Var "y") I1 = Raise AssertionError
   ∧ prove_corollary_obj x_from_x_obj (Var "y") I1 x_from_x_store
     = (x_from_x_store, Raise AssertionError))
  ∧ combine_proofs proof_of_x proof_of_y (Var "y") I1 = Raise AssertionError.
Proof.
  destruct (specialization_failure_raises x_from_x proof_of_x proof_of_y
              (Var "y") I1 I1) as [H1 H2].
  split; [split|].
  - apply H1. vm_compute; reflexivity.
  - apply H1; [vm_compute; reflexivity | reflexivity].
  - apply H2. vm_compute; reflexivity.
Defined.

(** ** No maneuver changes its inputs *)

(** A call that returns has read its inputs. *)
Lemma Proof_read_returns {A} (P : nat) (k : Proof → Prog A) (h : list Obj) (a : A) :
  ((Proof_read P ≫= k) h).2 = Return a →
  ∃ p, deref h P = Some p ∧ (k p h).2 = Return a.
Proof.
  unfold mbind, Prog_bind, Proof_read.
  destruct (deref h P) as [p|]; [by exists p | done].
Qed.

Lemma assert_returns {A} (b : bool) (k : Prog A) (h : list Obj) (a : A) :
  ((lift_Prog (assert b) ;; k) h).2 = Return a → (k h).2 = Return a.
Proof. by destruct b. Qed.

Lemma refines_heap_returns (h : list Obj) (m : Prog nat) (r : result Proof)
    (out : nat) :
  refines_heap h m r → (m h).2 = Return out →
  ∃ q, deref (m h).1 out = Some q.
Proof.
  unfold refines_heap. intros Href Hret. rewrite Hret in Href.
  destruct r as [q|e]; [by exists q | done].
Qed.

Lemma prove_corollary_heap_returns_proof (copies : bool) (P : nat) (c : Formula)
    (r : InferenceRule) (h : list Obj) (out : nat) :
  (prove_corollary_heap copies P c r h).2 = Return out →
  ∃ q, deref (prove_corollary_heap copies P c r h).1 out = Some q.
Proof.
  intros Hret. pose proof Hret as (p & Hd & _)%Proof_read_returns.
  by eapply refines_heap_returns; [apply prove_corollary_heap_refines|].
Qed.

Lemma combine_proofs_heap_returns_proof (copies : bool) (P1 P2 : nat)
    (c : Formula) (r : InferenceRule) (h : list Obj) (out : nat) :
  (combine_proofs_heap copies P1 P2 c r h).2 = Return out →
  ∃ q, deref (combine_proofs_heap copies P1 P2 c r h).1 out = Some q.
Proof.
  intros Hret. pose proof Hret as (p1 & Hd1 & Hret1)%Proof_read_returns.
  apply assert_returns in Hret1 as (p2 & Hd2 & _)%Proof_read_returns.
  by eapply refines_heap_returns; [apply combine_proofs_heap_refines|].
Qed.

Lemma remove_assumption_heap_returns_proof (copies : bool) (P : nat)
    (h : list Obj) (out : nat) :
  (remove_assumption_heap copies P h).2 = Return out →
  ∃ q, deref (remove_assumption_heap copies P h).1 out = Some q.
Proof.
  intros Hret. pose proof Hret as (p & Hd & _)%Proof_read_returns.
  by eapply refines_heap_returns; [apply remove_assumption_heap_refines|].
Qed.

Lemma prove_from_opposites_heap_returns_proof (copies : bool) (P1 P2 : nat)
    (c : Formula) (h : list Obj) (out : nat) :
  (prove_from_opposites_heap copies P1 P2 c h).2 = Return out →
  ∃ q, deref (prove_from_opposites_heap copies P1 P2 c h).1 out = Some q.
Proof.
  intros Hret. pose proof Hret as (p1 & Hd1 & Hret1)%Proof_read_returns.
  apply assert_returns in Hret1 as (p2 & Hd2 & _)%Proof_read_returns.
  by eapply refines_heap_returns; [apply prove_from_opposites_heap_refines|].
Qed.

Lemma prove_by_way_of_contradiction_heap_returns_proof (P : nat) (h : list Obj)
    (out : nat) :
  (prove_by_way_of_contradiction_heap P h).2 = Return out →
  ∃ q, deref (prove_by_way_of_contradiction_heap P h).1 out = Some q.
Proof.
  intros Hret. pose proof Hret as (p & Hd & _)%Proof_read_returns.
  by eapply refines_heap_returns;
    [apply prove_by_way_of_contradiction_heap_refines|].
Qed.

Lemma keeps_does_not_mutate_inputs (m : Prog nat) :
  (∀ n, keeps n m (own_line_sequence n)) →
  (∀ h out, (m h).2 = Return out → ∃ q, deref (m h).1 out = Some q) →
  does_not_mutate_inputs m.
Proof.
  intros Hm Hproof h.
  destruct (Hm (length h) h (le_n _)) as (Ht & Hl & Hout).
  assert (h `prefix_of` (m h).1) as Hpre by by eapply take_length_prefix.
  split; [done | split].
  - intros Q q. by apply deref_prefix.
  - intros out Hret. split; [by apply Hout|].
    destruct (Hproof h out Hret) as (returned & Hreturned).
    exists returned. split; [done|]. intros offset.
    destruct (reindex_in_place_spec offset out _ _ Hreturned) as (Hrun & Hre).
    assert (h `prefix_of` (reindex_in_place offset out (m h).1).1) as Hpre'.
    { eapply take_length_prefix; [done|].
      rewrite (keeps_reindex_in_place (length h)); [done | done | by apply Hout]. }
    split; [done | split; [done | split; [done|]]].
    intros Q q. by apply deref_prefix.
Qed.



(** The property is one of the maneuvers, not of every program.  A program
    that hands its input back has changed nothing, but what it returns has
    no line sequence of its own: reindexing it in place moves the
    references of the input's third line from [0; 1] to [1; 2]. *)
Example returning_the_input_is_not_enough :
  lines <$> deref (reindex_in_place 1 4 y_by_MP_heap).1 4
  = Some [AssumptionLine (Var "x");
          AssumptionLine (Var "x" ->> Var "y")%F;
          RuleLine (Var "y") MP [1; 2]]
  ∧ ¬ does_not_mutate_inputs (mret 4).
Proof.
  split; [apply (bool_decide_unpack _); vm_compute; exact I|].
  intros H. destruct (H y_by_MP_heap) as (_ & _ & Hout).
  destruct (Hout 4 eq_refl) as (_ & returned & _ & Hreindex).
  destruct (Hreindex 1) as (_ & _ & _ & Hderef).
  assert (deref y_by_MP_heap 4 = Some y_by_MP) as Hin
    by (apply (bool_decide_unpack _); vm_compute; exact I).
  apply Hderef, (bool_decide_pack _) in Hin.
  vm_compute in Hin. exact Hin.
Qed.

(** Neither is it one of a program that appends to the line sequence of
    its input before it builds its result from it. *)
Example extending_the_input_is_not_allowed (copies : bool) :
  ¬ does_not_mutate_inputs
      (x ← Line_new (AssumptionLine (Var "x"));
       list_append 3 x;;
       Proof_new copies (statement y_by_MP) (rules y_by_MP) 3).
Proof.
  intros H. destruct (H y_by_MP_heap) as (_ & Hderef & _).
  assert (deref y_by_MP_heap 4 = Some y_by_MP) as Hin
    by (apply (bool_decide_unpack _); vm_compute; exact I).
  apply Hderef, (bool_decide_pack _) in Hin.
  destruct copies; vm_compute in Hin; exact Hin.
Qed.

(** What the result owns is its sequence, not every line in it: the lines
    a maneuver copies are the input's own line objects, here 0, 1 and 2.
    Reindexing the result puts a new line in the slot of line 2 and does
    not touch line 2 itself. *)
Example prove_corollary_heap_shares_copied_lines :
  (Proof_lines 4 y_by_MP_heap).2 = Return [0; 1; 2]
  ∧ (Proof_lines 13
       (prove_corollary_heap true 4 (Var "z" ->> Var "y")%F I1 y_by_MP_heap).1).2
    = Return [0; 1; 2; 10; 11]
  ∧ (Proof_lines 13
       (reindex_in_place 1 13
          (prove_corollary_heap true 4 (Var "z" ->> Var "y")%F I1
             y_by_MP_heap).1).1).2
    = Return [0; 1; 14; 15; 16].
Proof. split; [|split]; vm_compute; reflexivity. Qed.

(** The same sharing in the store of line objects: location 0 of the input
    is also the first line of the result. *)
Example prove_corollary_obj_shares_copied_lines :
  match (prove_corollary_obj x_from_x_obj (Var "y" ->> Var "x")%F I1
           x_from_x_store).2 with
  | Return out => obj_lines out = [0; 2; 3]
  | Raise _ => False
  end.
Proof. vm_compute. reflexivity. Qed.

(** ** Reference order of Modus Ponens lines *)

Lemma MP_refs_ordered_of_valid (out : Proof) :
  (∀ k, k < length (lines out) →
        is_line_valid out k = true
        ∨ ∀ (Y : Formula) refs, lines out !! k ≠ Some (RuleLine Y MP refs)) →
  MP_refs_ordered (lines out).
Proof.
  intros Hall k Y refs Hk.
  destruct (Hall k (lookup_lt_Some _ _ _ Hk)) as [Hv|Hne]; [|by destruct (Hne Y refs)].
  destruct (is_line_valid_MP_inv out k Y refs Hk Hv)
    as (i & j & X & -> & _ & _ & HX & HXY).
  by exists i, j, X.
Qed.

(** C10: under their preconditions, [prove_corollary], [combine_proofs]
    and [prove_from_opposites] return a proof that ends in a Modus Ponens
    line and in which every Modus Ponens line has exactly two references,
    in this order: first the index of the line proving the antecedent,
    second the index of the line proving the implication from that
    antecedent to the line's own formula. *)
Theorem MP_lines_refer_to_antecedent_then_implication :
  (∀ (p : Proof) (c : Formula) (r : InferenceRule),
     is_valid p = true →
     is_specialization_of
       (mkInferenceRule [] (conclusion (statement p) ->> c)%F) r = true →
     ∃ out refs, prove_corollary p c r = Return out
                 ∧ last (lines out) = Some (RuleLine c MP refs)
                 ∧ MP_refs_ordered (lines out))
  ∧ (∀ (p1 p2 : Proof) (c : Formula) (r : InferenceRule),
       is_valid p1 = true → is_valid p2 = true →
       assumptions (statement p1) = assumptions (statement p2) →
       rules p1 = rules p2 →
       is_specialization_of
         (mkInferenceRule []
            (conclusion (statement p1) ->> (conclusion (statement p2) ->> c))%F)
         r = true →
       ∃ out refs, combine_proofs p1 p2 c r = Return out
                   ∧ last (lines out) = Some (RuleLine c MP refs)
                   ∧ MP_refs_ordered (lines out))
  ∧ (∀ (p1 p2 : Proof) (c : Formula),
       is_valid p1 = true → is_valid p2 = true →
       assumptions (statement p1) = assumptions (statement p2) →
       (~~ conclusion (statement p1))%F = conclusion (statement p2) →
       rules p1 = rules p2 →
       ∃ out refs, prove_from_opposites p1 p2 c = Return out
                   ∧ last (lines out) = Some (RuleLine c MP refs)
                   ∧ MP_refs_ordered (lines out)).
Proof.
  split; [|split].
  - intros p c r Hv Hs.
    eexists _, _. split; [by apply prove_corollary_run|]. split.
    + unfold prove_corollary_result. cbn [lines].
      by rewrite (last_app_cons (lines p)), last_cons_cons.
    + apply MP_refs_ordered_of_valid. intros k Hk.
      rewrite prove_corollary_result_length in Hk.
      destruct (decide (k = length (lines p))) as [->|Hne].
      * right. intros Y refs.
        rewrite prove_corollary_result_instance_line. intros [=].
      * left. by apply prove_corollary_result_lines_valid.
  - intros p1 p2 c r Hv1 Hv2 Hasm Hrules Hs.
    eexists _, _. split; [by apply combine_proofs_run|]. split.
    + unfold combine_proofs_result. cbn [lines].
      by rewrite app_assoc, spliced_result_last.
    + apply MP_refs_ordered_of_valid. intros k Hk.
      rewrite combine_proofs_result_length in Hk.
      destruct (decide (k = length (lines p1) + length (lines p2))) as [->|Hne].
      * right. intros Y refs.
        rewrite combine_proofs_result_instance_line. intros [=].
      * left. by apply combine_proofs_result_lines_valid.
  - intros p1 p2 c Hv1 Hv2 Hasm Hneg Hrules.
    eexists _, _. split; [by apply prove_from_opposites_run|]. split.
    + unfold prove_from_opposites_result. cbn [lines].
      by rewrite app_assoc, spliced_result_last.
    + apply MP_refs_ordered_of_valid. intros k Hk. left.
      pose proof (prove_from_opposites_result_valid p1 p2 c
                    Hv1 Hv2 Hasm Hneg Hrules) as [_ Hall]%is_valid_spec.
      by apply Hall.
Qed.

Lemma MP_lines_refer_to_antecedent_then_implication_witness :
  (∃ out refs,
     prove_corollary x_from_x (Var "y" ->> Var "x")%F I1 = Return out
     ∧ last (lines out) = Some (RuleLine (Var "y" ->> Var "x")%F MP refs)
     ∧ MP_refs_ordered (lines out))
  ∧ (∃ out refs,
       combine_proofs proof_of_x proof_of_y (Var "x") I1 = Return out
       ∧ last (lines out) = Some (RuleLine (Var "x") MP refs)
       ∧ MP_refs_ordered (lines out))
  ∧ (∃ out refs,
       prove_from_opposites proof_of_p proof_of_not_p (Var "q") = Return out
       ∧ last (lines out) = Some (RuleLine (Var "q") MP refs)
       ∧ MP_refs_ordered (lines out)).
Proof.
  destruct MP_lines_refer_to_antecedent_then_implication as (H1 & H2 & H3).
  split; [|split].
  - apply (H1 x_from_x); vm_compute; reflexivity.
  - apply (H2 proof_of_x proof_of_y); try reflexivity; vm_compute; reflexivity.
  - apply (H3 proof_of_p proof_of_not_p); try reflexivity; vm_compute; reflexivity.
Defined.

(** * Further properties of the maneuvers *)

(** ** When the splicing maneuvers return, and what *)

(** X1: [prove_corollary] raises [AssertionError] exactly when its proof is
    not valid or the needed implication is not a specialization of the
    conditional, and raises nothing else; otherwise it returns the lines of
    the given proof, unchanged, followed by a line for the implication
    (justified by the implication's own instance rule) and a Modus Ponens
    line referring to lines n-1 and n, under the statement (assumptions,
    consequent) and the rules extended by MP and the conditional. *)
Theorem prove_corollary_returns_iff (p : Proof) (c : Formula) (r : InferenceRule) :
  prove_corollary p c r =
    if is_valid p
       && is_specialization_of
            (mkInferenceRule [] (conclusion (statement p) ->> c)%F) r
    then Return (prove_corollary_result p c r)
    else Raise AssertionError.
Proof.
  destruct (is_valid p) eqn:Hv.
  - destruct (is_specialization_of _ r) eqn:Hs; simpl.
    + by apply prove_corollary_run.
    + unfold prove_corollary.
      by rewrite (assert_true _ _ Hv), (assert_false _ _ Hs).
  - simpl. unfold prove_corollary. by rewrite (assert_false _ _ Hv).
Qed.

(** X2: [combine_proofs] raises [AssertionError] exactly when one of its
    five preconditions fails, and raises nothing else; otherwise it returns
    [len(proof1) + len(proof2) + 3] lines: those of the first proof
    unchanged, those of the second with shifted references, and the three
    closing lines. *)
Theorem combine_proofs_returns_iff (p1 p2 : Proof) (c : Formula) (r : InferenceRule) :
  combine_proofs p1 p2 c r =
    if is_valid p1 && is_valid p2
       && bool_decide (assumptions (statement p1) = assumptions (statement p2))
       && bool_decide (rules p1 = rules p2)
       && is_specialization_of
            (mkInferenceRule []
               (conclusion (statement p1) ->> (conclusion (statement p2) ->> c))%F)
            r
    then Return (combine_proofs_result p1 p2 c r)
    else Raise AssertionError.
Proof.
  destruct (is_valid p1) eqn:Hv1; simpl;
    [|by unfold combine_proofs; rewrite (assert_false _ _ Hv1)].
  destruct (is_valid p2) eqn:Hv2; simpl;
    [|by unfold combine_proofs;
         rewrite (assert_true _ _ Hv1), (assert_false _ _ Hv2)].
  destruct (bool_decide (assumptions _ = _)) eqn:Ha; simpl;
    [|by unfold combine_proofs;
         rewrite (assert_true _ _ Hv1), (assert_true _ _ Hv2),
                 (assert_false _ _ Ha)].
  destruct (bool_decide (rules _ = _)) eqn:Hr; simpl;
    [|by unfold combine_proofs;
         rewrite (assert_true _ _ Hv1), (assert_true _ _ Hv2),
                 (assert_true _ _ Ha), (assert_false _ _ Hr)].
  destruct (is_specialization_of _ r) eqn:Hs.
  - apply combine_proofs_run; try done; by eapply bool_decide_eq_true_1.
  - unfold combine_proofs.
    by rewrite (assert_true _ _ Hv1), (assert_true _ _ Hv2),
               (assert_true _ _ Ha), (assert_true _ _ Hr), (assert_false _ _ Hs).
Qed.

(** X3: [prove_from_opposites] raises [AssertionError] exactly when one of
    its five preconditions fails, and raises nothing else; otherwise it
    returns [len(affirmation proof) + len(negation proof) + 3] lines: the
    affirmation proof's lines unchanged, the negation proof's lines with
    shifted references, the I2 instance, and two Modus Ponens lines. *)
Theorem prove_from_opposites_returns_iff (p1 p2 : Proof) (c : Formula) :
  prove_from_opposites p1 p2 c =
    if is_valid p1 && is_valid p2
       && bool_decide (assumptions (statement p1) = assumptions (statement p2))
       && bool_decide ((~~ conclusion (statement p1))%F = conclusion (statement p2))
       && bool_decide (rules p1 = rules p2)
    then Return (prove_from_opposites_result p1 p2 c)
    else Raise AssertionError.
Proof.
  destruct (is_valid p1) eqn:Hv1; simpl;
    [|by unfold prove_from_opposites; rewrite (assert_false _ _ Hv1)].
  destruct (is_valid p2) eqn:Hv2; simpl;
    [|by unfold prove_from_opposites;
         rewrite (assert_true _ _ Hv1), (assert_false _ _ Hv2)].
  destruct (bool_decide (assumptions _ = _)) eqn:Ha; simpl;
    [|by unfold prove_from_opposites;
         rewrite (assert_true _ _ Hv1), (assert_true _ _ Hv2),
                 (assert_false _ _ Ha)].
  destruct (bool_decide (Unary _ _ = _)) eqn:Hn; simpl;
    [|by unfold prove_from_opposites;
         rewrite (assert_true _ _ Hv1), (assert_true _ _ Hv2),
                 (assert_true _ _ Ha), (assert_false _ _ Hn)].
  destruct (bool_decide (rules _ = _)) eqn:Hr.
  - apply prove_from_opposites_run; try done; by eapply bool_decide_eq_true_1.
  - unfold prove_from_opposites.
    by rewrite (assert_true _ _ Hv1), (assert_true _ _ Hv2),
               (assert_true _ _ Ha), (assert_true _ _ Hn), (assert_false _ _ Hr).
Qed.

(** ** Which line of a returned proof can be invalid *)

(** X4: whenever [prove_corollary] returns, every line of the result other
    than the inserted implication line (line n) is valid, and the result is
    valid exactly when the implication's instance rule
    [InferenceRule([], (A->C))], which justifies that line, is one of the
    result's rules. *)
Theorem prove_corollary_valid_iff (p : Proof) (c : Formula) (r : InferenceRule) :
  is_valid p = true →
  is_specialization_of
    (mkInferenceRule [] (conclusion (statement p) ->> c)%F) r = true →
  ∃ out, prove_corollary p c r = Return out
         ∧ length (lines out) = length (lines p) + 2
         ∧ (∀ k, k < length (lines p) + 2 → k ≠ length (lines p) →
                 is_line_valid out k = true)
         ∧ (is_valid out = true ↔
            mkInferenceRule [] (conclusion (statement p) ->> c)%F ∈ rules out).
Proof.
  intros Hv Hs. exists (prove_corollary_result p c r).
  split; [by apply prove_corollary_run|].
  split; [by apply prove_corollary_result_length|].
  split; [intros k; by apply prove_corollary_result_lines_valid|].
  by apply prove_corollary_result_valid_iff.
Qed.

(** A one-line proof of [x] from [x] and the fact [(x->(y->x))] used as its
    own conditional: here the inserted line is justified by a rule of the
    result. *)
Lemma prove_corollary_valid_iff_witness :
  ∃ out,
    prove_corollary x_from_x (Var "y" ->> Var "x")%F
      (mkInferenceRule [] (Var "x" ->> (Var "y" ->> Var "x"))%F) = Return out
    ∧ length (lines out) = length (lines x_from_x) + 2
    ∧ (∀ k, k < length (lines x_from_x) + 2 → k ≠ length (lines x_from_x) →
            is_line_valid out k = true)
    ∧ (is_valid out = true ↔
       mkInferenceRule [] (conclusion (statement x_from_x) ->>
                           (Var "y" ->> Var "x"))%F ∈ rules out).
Proof.
  apply (prove_corollary_valid_iff x_from_x (Var "y" ->> Var "x")%F
           (mkInferenceRule [] (Var "x" ->> (Var "y" ->> Var "x"))%F));
    vm_compute; reflexivity.
Defined.

(** X5: whenever [combine_proofs] returns, every line of the result other
    than the inserted schema-instance line (line n1 + n2) is valid, and the
    result is valid exactly when the instance rule
    [InferenceRule([], (A->(B->C)))], which justifies that line, is one of
    the result's rules. *)
Theorem combine_proofs_valid_iff (p1 p2 : Proof) (c : Formula) (r : InferenceRule) :
  is_valid p1 = true → is_valid p2 = true →
  assumptions (statement p1) = assumptions (statement p2) →
  rules p1 = rules p2 →
  is_specialization_of
    (mkInferenceRule []
       (conclusion (statement p1) ->> (conclusion (statement p2) ->> c))%F)
    r = true →
  ∃ out, combine_proofs p1 p2 c r = Return out
         ∧ (∀ k, k < length (lines p1) + length (lines p2) + 3 →
                 k ≠ length (lines p1) + length (lines p2) →
                 is_line_valid out k = true)
         ∧ (is_valid out = true ↔
            mkInferenceRule []
              (conclusion (statement p1) ->> (conclusion (statement p2) ->> c))%F
            ∈ rules out).
Proof.
  intros Hv1 Hv2 Hasm Hrules Hs. exists (combine_proofs_result p1 p2 c r).
  split; [by apply combine_proofs_run|].
  split; [intros k; by apply combine_proofs_result_lines_valid|].
  by apply combine_proofs_result_valid_iff.
Qed.

Lemma combine_proofs_valid_iff_witness :
  ∃ out,
    combine_proofs proof_of_x proof_of_y (Var "x")
      (mkInferenceRule [] (Var "x" ->> (Var "y" ->> Var "x"))%F) = Return out
    ∧ (∀ k, k < length (lines proof_of_x) + length (lines proof_of_y) + 3 →
            k ≠ length (lines proof_of_x) + length (lines proof_of_y) →
            is_line_valid out k = true)
    ∧ (is_valid out = true ↔
       mkInferenceRule []
         (conclusion (statement proof_of_x) ->>
          (conclusion (statement proof_of_y) ->> Var "x"))%F
       ∈ rules out).
Proof.
  apply (combine_proofs_valid_iff proof_of_x proof_of_y (Var "x")
           (mkInferenceRule [] (Var "x" ->> (Var "y" ->> Var "x"))%F));
    try reflexivity; vm_compute; reflexivity.
Defined.

(** ** [remove_assumption] on every input *)

Lemma for_each_returns {A S} (body : S → A → result S) (l : list A) :
  (∀ s x, x ∈ l → ∃ s', body s x = Return s') →
  ∀ s, ∃ s', for_each body l s = Return s'.
Proof.
  induction l as [|x l IH]; intros Hbody s; simpl; [by exists s|].
  destruct (Hbody s x) as [s1 ->]; [apply list_elem_of_here|].
  rewrite bind_Return. apply IH. intros s2 y Hy. apply Hbody.
  by apply list_elem_of_further.
Qed.

(** On a valid line the loop body of [remove_assumption] finds the two
    lines a Modus Ponens step refers to, so it does not raise. *)
Lemma remove_assumption_body_returns (p : Proof) (phi : Formula)
    (new_lines : list Line) (l : Line) (k : nat) :
  lines p !! k = Some l → is_line_valid p k = true →
  ∃ new_lines', remove_assumption_body p phi new_lines l = Return new_lines'.
Proof.
  intros Hk Hv. destruct l as [psi|psi rule_used refs]; simpl.
  - case_decide; eauto.
  - case_decide as HMP; [|eauto]. subst rule_used.
    destruct (is_line_valid_MP_inv p k psi refs Hk Hv)
      as (i & j & X & -> & _ & _ & Hi & Hj).
    unfold index. simpl.
    destruct (lines p !! i) as [li|]; [|done].
    destruct (lines p !! j) as [lj|]; [|done].
    rewrite !bind_Return. eauto.
Qed.

Lemma remove_assumption_loop_returns (p : Proof) (phi : Formula) :
  is_valid p = true →
  ∃ new_lines,
    for_each (remove_assumption_body p phi) (lines p) [] = Return new_lines.
Proof.
  intros [_ Hall]%is_valid_spec.
  apply for_each_returns. intros acc l [k Hk]%list_elem_of_lookup.
  apply (remove_assumption_body_returns p phi acc l k Hk).
  apply Hall. by eapply lookup_lt_Some.
Qed.

(** On inputs that pass its assertions [remove_assumption] returns. *)
Lemma remove_assumption_run_valid (p : Proof) :
  is_valid p = true →
  0 < length (assumptions (statement p)) →
  only_MP_or_assumptionless (rules p) = true →
  ∃ phi,
    last (assumptions (statement p)) = Some phi
    ∧ remove_assumption p =
        Return (mkProof
                  (mkInferenceRule (removelast (assumptions (statement p)))
                                   (phi ->> conclusion (statement p))%F)
                  (rules p ∪ {[ MP; I0; I1; D ]}) []).
Proof.
  intros Hv Hlen Hr.
  destruct (last (assumptions (statement p))) as [phi|] eqn:Hlast.
  - exists phi. split; [done|].
    destruct (remove_assumption_loop_returns p phi Hv) as [nl Hnl].
    by apply (remove_assumption_run p phi nl).
  - apply last_None in Hlast. rewrite Hlast in Hlen. simpl in Hlen. lia.
Qed.

(** X6: on every valid proof with at least one assumption whose rules are
    MP or assumptionless, [remove_assumption] returns (its loop never
    fails to find the lines a Modus Ponens step refers to): the statement
    is the assumptions without the last one and the implication from the
    last assumption to the conclusion, the rules are extended by MP, I0, I1
    and D, and the line list is empty, so the result is not valid. *)
Theorem remove_assumption_returns (p : Proof) :
  is_valid p = true →
  0 < length (assumptions (statement p)) →
  only_MP_or_assumptionless (rules p) = true →
  ∃ phi out,
    last (assumptions (statement p)) = Some phi
    ∧ remove_assumption p = Return out
    ∧ statement out =
        mkInferenceRule (removelast (assumptions (statement p)))
                        (phi ->> conclusion (statement p))%F
    ∧ rules out = rules p ∪ {[ MP; I0; I1; D ]}
    ∧ lines out = []
    ∧ is_valid out = false.
Proof.
  intros Hv Hlen Hr.
  destruct (remove_assumption_run_valid p Hv Hlen Hr) as (phi & Hlast & Hrun).
  exists phi. eexists. split; [done|]. split; [exact Hrun|]. done.
Qed.

Lemma remove_assumption_returns_witness :
  ∃ phi out,
    last (assumptions (statement scenario_proof)) = Some phi
    ∧ remove_assumption scenario_proof = Return out
    ∧ statement out =
        mkInferenceRule (removelast (assumptions (statement scenario_proof)))
                        (phi ->> conclusion (statement scenario_proof))%F
    ∧ rules out = rules scenario_proof ∪ {[ MP; I0; I1; D ]}
    ∧ lines out = []
    ∧ is_valid out = false.
Proof.
  apply (remove_assumption_returns scenario_proof).
  - vm_compute; reflexivity.
  - simpl; lia.
  - vm_compute; reflexivity.
Defined.

(** X7: the only exception [remove_assumption] raises is [AssertionError],
    and it raises it exactly when the proof is not valid, has no
    assumption, or has a rule with assumptions other than MP. *)
Theorem remove_assumption_raises_iff (p : Proof) (e : exn) :
  remove_assumption p = Raise e ↔
    e = AssertionError
    ∧ (is_valid p = false
       ∨ assumptions (statement p) = []
       ∨ only_MP_or_assumptionless (rules p) = false).
Proof.
  destruct (is_valid p) eqn:Hv.
  - destruct (assumptions (statement p)) as [|a asm] eqn:Hasm.
    + unfold remove_assumption.
      rewrite (assert_true _ _ Hv), Hasm, assert_false by done.
      split; [intros [= <-]; auto | by intros [-> _]].
    + destruct (only_MP_or_assumptionless (rules p)) eqn:Hr.
      * destruct (remove_assumption_run_valid p Hv) as (phi & _ & ->);
          [rewrite Hasm; simpl; lia | done |].
        split; [done | intros [_ [?|[?|?]]]; done].
      * unfold remove_assumption.
        rewrite (assert_true _ _ Hv), Hasm, assert_true by done.
        rewrite (assert_false _ _ Hr).
        split; [intros [= <-]; auto | by intros [-> _]].
  - unfold remove_assumption. rewrite (assert_false _ _ Hv).
    split; [intros [= <-]; auto | by intros [-> _]].
Qed.

(** X8: a proof returned by [remove_assumption] is accepted by no
    maneuver: passed to any of them, in any position, the call raises
    [AssertionError]; in particular [remove_assumption] cannot be applied
    twice in a row. *)
Theorem remove_assumption_result_is_rejected (p q other : Proof) (c : Formula)
    (r : InferenceRule) :
  remove_assumption p = Return q →
  remove_assumption q = Raise AssertionError
  ∧ prove_corollary q c r = Raise AssertionError
  ∧ combine_proofs q other c r = Raise AssertionError
  ∧ combine_proofs other q c r = Raise AssertionError
  ∧ prove_from_opposites q other c = Raise AssertionError
  ∧ prove_from_opposites other q c = Raise AssertionError
  ∧ prove_by_way_of_contradiction q = Raise AssertionError.
Proof.
  intros [_ Hq]%remove_assumption_returns_no_lines.
  split; [by unfold remove_assumption; rewrite (assert_false _ _ Hq)|].
  split; [by unfold prove_corollary; rewrite (assert_false _ _ Hq)|].
  split; [by unfold combine_proofs; rewrite (assert_false _ _ Hq)|].
  split.
  { unfold combine_proofs. destruct (is_valid other); [|done].
    by rewrite assert_true, (assert_false _ _ Hq). }
  split; [by unfold prove_from_opposites; rewrite (assert_false _ _ Hq)|].
  split.
  { unfold prove_from_opposites. destruct (is_valid other); [|done].
    by rewrite assert_true, (assert_false _ _ Hq). }
  by unfold prove_by_way_of_contradiction; rewrite (assert_false _ _ Hq).
Qed.

Lemma remove_assumption_result_is_rejected_witness :
  ∃ q, remove_assumption scenario_proof = Return q
       ∧ remove_assumption q = Raise AssertionError
       ∧ prove_corollary q (Var "p") I0 = Raise AssertionError.
Proof.
  destruct (remove_assumption_run_valid scenario_proof) as (phi & _ & Hq);
    [vm_compute; reflexivity | simpl; lia | vm_compute; reflexivity |].
  eexists. split; [exact Hq|].
  destruct (remove_assumption_result_is_rejected scenario_proof _ scenario_proof
              (Var "p") I0 Hq) as (H1 & H2 & _).
  by split.
Defined.

(** ** The reindexing loop *)

Lemma shift_line_shift_line (a b : nat) (l : Line) :
  shift_line a (shift_line b l) = shift_line (b + a) l.
Proof.
  destruct l as [f|f r refs]; simpl; [done|]. f_equal.
  rewrite <- list_fmap_compose. apply list_fmap_ext.
  intros i x _. simpl. lia.
Qed.

(** X10: the loop that appends a proof's lines with shifted references
    appends exactly one line per input line, keeps every formula and rule,
    leaves assumption lines as they are, and composes additively: laying
    lines out at offset b and the result at offset a is laying them out at
    offset b + a, and offset 0 copies the lines unchanged. *)
Theorem append_shifted_composes (a b : nat) (acc ls : list Line) :
  append_shifted a acc (append_shifted b [] ls)
  = append_shifted (b + a) acc ls
  ∧ append_shifted 0 acc ls = append_lines acc ls
  ∧ length (append_shifted a acc ls) = length acc + length ls
  ∧ formula <$> append_shifted a [] ls = formula <$> ls
  ∧ is_assumption <$> append_shifted a [] ls = is_assumption <$> ls.
Proof.
  rewrite !append_shifted_app, append_lines_app, !app_nil_l.
  split; [|split; [|split; [|split]]].
  - f_equal. rewrite <- list_fmap_compose. apply list_fmap_ext.
    intros i l _. apply shift_line_shift_line.
  - f_equal. rewrite <- (list_fmap_id ls) at 2. apply list_fmap_ext.
    intros i l _. apply shift_line_0.
  - by rewrite length_app, length_fmap.
  - rewrite <- list_fmap_compose. apply list_fmap_ext.
    intros i l _. apply formula_shift_line.
  - rewrite <- list_fmap_compose. apply list_fmap_ext.
    intros i l _. by destruct l.
Qed.

(** X11: splicing keeps lines valid.  In any proof whose lines begin with
    the lines of a valid proof [p1] followed by the lines of a valid proof
    [p2] with references shifted by [len(p1.lines)], under the same
    assumptions and with at least the rules of both, every one of these
    copied lines is valid, whatever lines follow. *)
Theorem spliced_copies_are_valid (p1 p2 out : Proof) (ext : list Line) (k : nat) :
  is_valid p1 = true → is_valid p2 = true →
  assumptions (statement p1) = assumptions (statement out) →
  assumptions (statement p2) = assumptions (statement out) →
  rules p1 ⊆ rules out → rules p2 ⊆ rules out →
  lines out = append_shifted (length (lines p1)) (append_lines [] (lines p1))
                (lines p2) ++ ext →
  k < length (lines p1) + length (lines p2) →
  is_line_valid out k = true.
Proof.
  intros Hv1 Hv2 Ha1 Ha2 Hr1 Hr2 Hl Hk.
  rewrite append_shifted_app, append_lines_app, app_nil_l, <- app_assoc in Hl.
  by apply (spliced_lines_valid p1 p2 out ext k).
Qed.

Lemma spliced_copies_are_valid_witness :
  is_line_valid
    (mkProof (mkInferenceRule [Var "x"; Var "y"] (Var "z")) ∅
       (append_shifted 1 (append_lines [] (lines proof_of_x)) (lines proof_of_y)
        ++ [AssumptionLine (Var "z")]))
    1 = true.
Proof.
  apply (spliced_copies_are_valid proof_of_x proof_of_y _
           [AssumptionLine (Var "z")] 1);
    try reflexivity; try (vm_compute; reflexivity); simpl; lia.
Defined.

(** ** Which line objects a result shares with its inputs *)

(** The shifting loop returns one location per input line: the input's own
    location for an assumption line, the location of a new object holding
    the shifted line for a rule line. *)
Lemma append_shifted_obj_locations (offset : nat) (xs : list nat) :
  ∀ (h : list Line) (acc : list nat) (ls : list Line),
    mapM (λ x, h !! x) xs = Some ls →
    ∃ h' ys,
      append_shifted_obj offset acc xs h = (h', Return (acc ++ ys))
      ∧ h `prefix_of` h'
      ∧ Forall2 (λ xl y, if is_assumption xl.2 then y = xl.1
                         else length h ≤ y
                              ∧ h' !! y = Some (shift_line offset xl.2))
                (zip xs ls) ys.
Proof.
  unfold append_shifted_obj.
  induction xs as [|x xs IH]; intros h acc ls Hxs.
  - apply mapM_Some_1 in Hxs. inversion Hxs; subst.
    exists h, []. simpl. rewrite app_nil_r. by repeat split.
  - apply mapM_Some_1 in Hxs.
    inversion Hxs as [|? l ? ls' Hx Hxs']; subst.
    apply mapM_Some_2 in Hxs'. cbn [for_each_M].
    assert (get_Line x h = (h, Return l)) as Hget
      by (unfold get_Line, index; by rewrite Hx).
    destruct l as [f|f r refs].
    + erewrite M_bind_Return;
        [|by erewrite M_bind_Return; [|exact Hget]].
      destruct (IH h (acc ++ [x]) ls' Hxs') as (h' & ys & Hrun & Hpre & Hall).
      exists h', (x :: ys). rewrite <- app_assoc in Hrun.
      split; [done|]. split; [done|]. by constructor.
    + erewrite M_bind_Return;
        [|by erewrite M_bind_Return; [|exact Hget]].
      set (l' := shift_line offset (RuleLine f r refs)).
      destruct (IH (h ++ [l']) (acc ++ [length h]) ls')
        as (h' & ys & Hrun & Hpre & Hall).
      { eapply mapM_lookup_prefix; [|done]. by apply prefix_app_r. }
      exists h', (length h :: ys). rewrite <- app_assoc in Hrun.
      split; [done|]. split; [etrans; [|done]; by apply prefix_app_r|].
      constructor.
      * simpl. split; [done|].
        eapply prefix_lookup_Some; [|done].
        rewrite lookup_app_r by done. by rewrite Nat.sub_diag.
      * eapply Forall2_impl; [done|]. simpl.
        intros [x' l0] y. simpl. destruct (is_assumption l0); [done|].
        rewrite length_app. simpl. intros [Hle Hy]. split; [lia | done].
Qed.

(** X12: the result of [prove_corollary] shares the line objects of its
    input: its first [len(lines)] lines are the very objects of the given
    proof, and only its last two lines are new objects.  Of the three line
    objects the call creates, the first (the line of the unused
    [implication_proof]) is not part of the result. *)
Theorem prove_corollary_obj_shares_lines (h : list Line) (P : ProofObj) (p : Proof)
    (c : Formula) (r : InferenceRule) :
  view h P = Some p →
  is_valid p = true →
  is_specialization_of
    (mkInferenceRule [] (conclusion (statement p) ->> c)%F) r = true →
  ∃ h' out,
    prove_corollary_obj P c r h = (h', Return out)
    ∧ length h' = length h + 3
    ∧ obj_lines out = obj_lines P ++ [length h + 1; length h + 2].
Proof.
  intros Hview Hv Hs. unfold prove_corollary_obj.
  rewrite (M_bind_Return _ _ h h p (read_Proof_view h P p Hview)).
  rewrite lift_assert_bind, Hv, lift_assert_bind, Hs.
  destruct (specialized_instance _ _ Hs) as (m & -> & _).
  unfold mbind at 1 2 3, M_bind, new_Line, mret, M_ret. simpl.
  eexists _, _. split; [done|]. simpl.
  rewrite append_lines_obj_app, app_nil_l. split.
  - rewrite !length_app. simpl. lia.
  - rewrite !length_app, <- app_assoc. simpl.
    by replace (length h + 1 + 1) with (length h + 2) by lia.
Qed.

Lemma prove_corollary_obj_shares_lines_witness :
  ∃ h' out,
    prove_corollary_obj x_from_x_obj (Var "y" ->> Var "x")%F I1 x_from_x_store
    = (h', Return out)
    ∧ length h' = length x_from_x_store + 3
    ∧ obj_lines out
      = obj_lines x_from_x_obj
        ++ [length x_from_x_store + 1; length x_from_x_store + 2].
Proof.
  apply (prove_corollary_obj_shares_lines x_from_x_store x_from_x_obj x_from_x);
    try reflexivity; vm_compute; reflexivity.
Defined.

(** X13: the result of [combine_proofs] begins with the line objects of
    the first proof themselves; for each line of the second proof it holds
    that line's own object if it is an assumption line, and a new object
    with the shifted references if it is a rule line; its last three lines
    are new objects. *)
Theorem combine_proofs_obj_shares_lines (h : list Line) (P1 P2 : ProofObj)
    (p1 p2 : Proof) (c : Formula) (r : InferenceRule) :
  view h P1 = Some p1 → view h P2 = Some p2 →
  is_valid p1 = true → is_valid p2 = true →
  assumptions (statement p1) = assumptions (statement p2) →
  rules p1 = rules p2 →
  is_specialization_of
    (mkInferenceRule []
       (conclusion (statement p1) ->> (conclusion (statement p2) ->> c))%F)
    r = true →
  ∃ h' out ys zs,
    combine_proofs_obj P1 P2 c r h = (h', Return out)
    ∧ obj_lines out = obj_lines P1 ++ ys ++ zs
    ∧ Forall (λ z, length h ≤ z) zs ∧ length zs = 3
    ∧ Forall2 (λ xl y, if is_assumption xl.2 then y = xl.1
                       else length h ≤ y
                            ∧ h' !! y
                              = Some (shift_line (length (obj_lines P1)) xl.2))
              (zip (obj_lines P2) (lines p2)) ys.
Proof.
  intros Hview1 Hview2 Hv1 Hv2 Hasm Hrules Hs.
  destruct (view_Some h P2 p2 Hview2) as (_ & _ & Hls2 & _).
  unfold combine_proofs_obj.
  rewrite (M_bind_Return _ _ h h p1 (read_Proof_view h P1 p1 Hview1)).
  rewrite (M_bind_Return _ _ h h p2 (read_Proof_view h P2 p2 Hview2)).
  rewrite lift_assert_bind, Hv1, lift_assert_bind, Hv2.
  rewrite lift_assert_bind, (bool_decide_eq_true_2 _ Hasm).
  rewrite lift_assert_bind, (bool_decide_eq_true_2 _ Hrules).
  rewrite lift_assert_bind, Hs.
  destruct (specialized_instance _ _ Hs) as (m & -> & _).
  destruct (append_shifted_obj_locations (length (obj_lines P1)) (obj_lines P2)
              h (append_lines_obj [] (obj_lines P1)) (lines p2) Hls2)
    as (h1 & ys & Hrun & Hpre & Hall).
  rewrite (M_bind_Return _ _ h h1 _ Hrun).
  unfold mbind at 1 2 3, M_bind, new_Line, mret, M_ret. simpl.
  apply prefix_length in Hpre.
  eexists _, _, ys, [length h1; _; _]. split; [done|]. simpl.
  rewrite append_lines_obj_app, app_nil_l, <- !app_assoc. simpl.
  split; [done|]. split.
  - rewrite !length_app. simpl. repeat constructor; lia.
  - split; [done|]. eapply Forall2_impl; [done|]. simpl.
    intros [x l] y. simpl. destruct (is_assumption l); [done|].
    intros [Hle Hy]. split; [done|].
    eapply prefix_lookup_Some; [done|]. by apply prefix_app_r.
Qed.

Lemma combine_proofs_obj_shares_lines_witness :
  ∃ h' out ys zs,
    combine_proofs_obj
      (mkProofObj (mkInferenceRule [Var "x"; Var "y"] (Var "x")) ∅ [0])
      (mkProofObj (mkInferenceRule [Var "x"; Var "y"] (Var "y")) ∅ [1])
      (Var "x") I1 [AssumptionLine (Var "x"); AssumptionLine (Var "y")]
    = (h', Return out)
    ∧ obj_lines out = [0] ++ ys ++ zs
    ∧ Forall (λ z, 2 ≤ z) zs ∧ length zs = 3
    ∧ Forall2 (λ xl y, if is_assumption xl.2 then y = xl.1
                       else 2 ≤ y ∧ h' !! y = Some (shift_line 1 xl.2))
              (zip [1] (lines proof_of_y)) ys.
Proof.
  apply (combine_proofs_obj_shares_lines
           [AssumptionLine (Var "x"); AssumptionLine (Var "y")]
           (mkProofObj (mkInferenceRule [Var "x"; Var "y"] (Var "x")) ∅ [0])
           (mkProofObj (mkInferenceRule [Var "x"; Var "y"] (Var "y")) ∅ [1])
           proof_of_x proof_of_y (Var "x") I1);
    try reflexivity; vm_compute; reflexivity.
Defined.

(** * Graphs and colorings *)

Lemma is_graph_spec (n : Z) (edges : gset (Z * Z)) :
  is_graph (n, edges) = true ↔
    ∀ u v : Z, (u, v) ∈ edges → (1 ≤ u ≤ n)%Z ∧ (1 ≤ v ≤ n)%Z ∧ u ≠ v.
Proof.
  unfold is_graph. rewrite forallb_forall. split.
  - intros H u v Huv.
    specialize (H (u, v)). simpl in H.
    rewrite !andb_true_iff, !bool_decide_eq_true, negb_true_iff,
      bool_decide_eq_false in H.
    destruct H as [[? ?] ?]; [|done].
    by apply list_elem_of_In, elem_of_elements.
  - intros H [u v] Huv%list_elem_of_In%elem_of_elements. simpl.
    destruct (H u v Huv) as (? & ? & ?).
    rewrite !andb_true_iff, !bool_decide_eq_true, negb_true_iff,
      bool_decide_eq_false. done.
Qed.

Lemma all_colored_spec (coloring : gmap Z Z) (n : Z) :
  forallb (has_color_1_2_3 coloring) (seqZ 1 n) = true ↔
    ∀ v : Z, (1 ≤ v ≤ n)%Z →
             ∃ c : Z, coloring !! v = Some c ∧ (c = 1 ∨ c = 2 ∨ c = 3)%Z.
Proof.
  rewrite forallb_forall. unfold has_color_1_2_3. split.
  - intros H v Hv. specialize (H v).
    destruct (coloring !! v) as [c|].
    + exists c. split; [done|]. eapply bool_decide_eq_true_1, H.
      apply list_elem_of_In, elem_of_seqZ. lia.
    + discriminate H. apply list_elem_of_In, elem_of_seqZ. lia.
  - intros H v Hv%list_elem_of_In%elem_of_seqZ.
    destruct (H v) as (c & -> & Hc); [lia|]. by apply bool_decide_eq_true_2.
Qed.

(** When both ends of every edge are colored, the loop over the edges
    raises nothing and answers whether all edges join different colors. *)
Lemma check_edges_spec (coloring : gmap Z Z) (es : list (Z * Z)) :
  Forall (λ e, is_Some (coloring !! e.1) ∧ is_Some (coloring !! e.2)) es →
  ∃ b, check_edges coloring es = inr b
       ∧ (b = true ↔ Forall (λ e, coloring !! e.1 ≠ coloring !! e.2) es).
Proof.
  induction 1 as [|[u v] es [[cu Hu] [cv Hv]] _ (b & Hb & IH)]; simpl in *.
  - exists true. split; [done|]. split; [constructor | done].
  - unfold getitem. rewrite Hu, Hv. case_bool_decide as Heq.
    + exists false. split; [done|]. split; [done|].
      intros Hall. inversion Hall as [|?? Hne _]; subst. simpl in Hne.
      by rewrite Hu, Hv in Hne.
    + exists b. split; [done|]. rewrite IH. split.
      * intros Hall. constructor; [|done]. simpl. rewrite Hu, Hv. congruence.
      * intros Hall. by inversion Hall.
Qed.

(** On a graph, [is_valid_3coloring] returns, and returns [True] exactly
    for the proper colorings. *)
Lemma is_valid_3coloring_spec (graph : Graph) (coloring : gmap Z Z) :
  is_graph graph = true →
  ∃ b, is_valid_3coloring graph coloring = inr b
       ∧ (b = true ↔ proper_3coloring graph coloring).
Proof.
  destruct graph as [n edges]. intros Hg.
  unfold is_valid_3coloring, proper_3coloring. rewrite Hg. simpl.
  destruct (forallb _ (seqZ 1 n)) eqn:Hcol; simpl.
  - pose proof (proj1 (all_colored_spec coloring n) Hcol) as Hall.
    pose proof (proj1 (is_graph_spec n edges) Hg) as Hedges.
    destruct (check_edges_spec coloring (elements edges)) as (b & Hb & Hiff).
    { apply Forall_forall. intros [u v] Huv%elem_of_elements. simpl.
      destruct (Hedges u v Huv) as (Hu & Hv & _).
      destruct (Hall u Hu) as (cu & -> & _).
      destruct (Hall v Hv) as (cv & -> & _). eauto. }
    exists b. split; [done|]. rewrite Hiff, Forall_forall. split.
    + intros H. split; [done|]. intros u v Huv.
      by apply (H (u, v)), elem_of_elements.
    + intros [_ H] [u v] Huv%elem_of_elements. by apply H.
  - exists false. split; [done|]. split; [done|].
    intros [Hall _]. apply all_colored_spec in Hall. congruence.
Qed.

(** X14: [is_valid_3coloring] never raises [KeyError]: on a data structure
    that is not a graph it raises the assertion error, and on every graph
    it returns, with [True] exactly for the proper colorings (every vertex
    1..n has a color among 1, 2, 3 and no edge joins two vertices of the
    same color). *)
Theorem is_valid_3coloring_correct (graph : Graph) (coloring : gmap Z Z) :
  is_valid_3coloring graph coloring ≠ inl KeyError
  ∧ (is_graph graph = false →
     is_valid_3coloring graph coloring = inl GraphAssertionError)
  ∧ (is_graph graph = true →
     ∃ b, is_valid_3coloring graph coloring = inr b
          ∧ (b = true ↔ proper_3coloring graph coloring)).
Proof.
  destruct (is_graph graph) eqn:Hg.
  - destruct (is_valid_3coloring_spec graph coloring Hg) as (b & Hb & Hiff).
    split; [by rewrite Hb|]. split; [done|]. intros _. by exists b.
  - assert (is_valid_3coloring graph coloring = inl GraphAssertionError) as H
      by (unfold is_valid_3coloring; by rewrite Hg).
    split; [by rewrite H|]. split; done.
Qed.

Lemma is_valid_3coloring_correct_witness :
  ∃ b, is_valid_3coloring (2%Z, {[ (1%Z, 2%Z) ]})
         (<[1%Z := 1%Z]> (<[2%Z := 3%Z]> ∅)) = inr b
       ∧ (b = true ↔
          proper_3coloring (2%Z, {[ (1%Z, 2%Z) ]})
            (<[1%Z := 1%Z]> (<[2%Z := 3%Z]> ∅))).
Proof.
  destruct (is_valid_3coloring_correct (2%Z, {[ (1%Z, 2%Z) ]})
              (<[1%Z := 1%Z]> (<[2%Z := 3%Z]> ∅))) as (_ & _ & H).
  apply H. vm_compute; reflexivity.
Defined.

(** X15: a coloring accepted for a graph is accepted for every graph on
    the same vertices with fewer edges, and such a graph passes [is_graph]
    whenever the larger one does. *)
Theorem is_valid_3coloring_fewer_edges (n : Z) (edges edges' : gset (Z * Z))
    (coloring : gmap Z Z) :
  edges' ⊆ edges →
  is_valid_3coloring (n, edges) coloring = inr true →
  is_graph (n, edges') = true
  ∧ is_valid_3coloring (n, edges') coloring = inr true.
Proof.
  intros Hsub Hvalid.
  assert (is_graph (n, edges) = true) as Hg.
  { unfold is_valid_3coloring in Hvalid.
    by destruct (is_graph (n, edges)). }
  assert (is_graph (n, edges') = true) as Hg'.
  { apply is_graph_spec. intros u v Huv.
    apply (proj1 (is_graph_spec n edges) Hg). by apply Hsub. }
  split; [done|].
  destruct (is_valid_3coloring_spec (n, edges) coloring Hg)
    as (b & Hb & Hiff).
  rewrite Hvalid in Hb. injection Hb as <-.
  destruct (proj1 Hiff eq_refl) as [Hall Hedges].
  destruct (is_valid_3coloring_spec (n, edges') coloring Hg')
    as (b' & -> & Hiff').
  f_equal. apply Hiff'. split; [done|].
  intros u v Huv. apply Hedges. by apply Hsub.
Qed.

Lemma is_valid_3coloring_fewer_edges_witness :
  is_graph (2%Z, ∅) = true
  ∧ is_valid_3coloring (2%Z, ∅) (<[1%Z := 1%Z]> (<[2%Z := 3%Z]> ∅)) = inr true.
Proof.
  apply (is_valid_3coloring_fewer_edges 2 {[ (1%Z, 2%Z) ]} ∅).
  - apply empty_subseteq.
  - vm_compute; reflexivity.
Defined.

(** X16: [is_valid_3coloring] looks only at the colors of the vertices
    1..n: two colorings that agree there get the same answer, whatever
    other keys they hold. *)
Theorem is_valid_3coloring_only_reads_vertices (graph : Graph)
    (coloring coloring' : gmap Z Z) :
  (∀ v : Z, (1 ≤ v ≤ graph.1)%Z → coloring !! v = coloring' !! v) →
  is_valid_3coloring graph coloring = is_valid_3coloring graph coloring'.
Proof.
  destruct graph as [n edges]. simpl. intros Hagree.
  destruct (is_graph (n, edges)) eqn:Hg;
    [|by unfold is_valid_3coloring; rewrite Hg].
  destruct (is_valid_3coloring_spec (n, edges) coloring Hg)
    as (b & -> & Hiff).
  destruct (is_valid_3coloring_spec (n, edges) coloring' Hg)
    as (b' & -> & Hiff').
  f_equal. apply eq_true_iff_eq. rewrite Hiff, Hiff'.
  pose proof (proj1 (is_graph_spec n edges) Hg) as Hedges.
  unfold proper_3coloring. simpl. split; intros [Hall Hne]; split.
  - intros v Hv. rewrite <- Hagree by done. by apply Hall.
  - intros u v Huv. destruct (Hedges u v Huv) as (Hu & Hv & _).
    rewrite <- !Hagree by done. by apply Hne.
  - intros v Hv. rewrite Hagree by done. by apply Hall.
  - intros u v Huv. destruct (Hedges u v Huv) as (Hu & Hv & _).
    rewrite !Hagree by done. by apply Hne.
Qed.

Lemma is_valid_3coloring_only_reads_vertices_witness :
  is_valid_3coloring (1%Z, ∅) (<[1%Z := 2%Z]> ∅)
  = is_valid_3coloring (1%Z, ∅) (<[1%Z := 2%Z]> (<[7%Z := 9%Z]> ∅)).
Proof.
  apply (is_valid_3coloring_only_reads_vertices (1%Z, ∅)).
  simpl. intros v Hv. assert (v = 1%Z) as -> by lia. reflexivity.
Defined.
